(** * The transaction and read hooks: a shallow embedding

    [src/transaction.ts] is a React hook.  A render of the hook closes over
    the values of its six state cells and over what the four wallet-client
    hooks report at that moment; every function the hook defines
    ([execute], [reset], [executeApproval], [executeTransaction], the effect
    bodies, the [onError] handlers) reads that closure and the props only,
    and acts by calling state setters, the write primitives and the caller's
    callbacks.  Such a function is embedded as the list of [Action]s it
    performs, in source order; [apply_action] gives each action its meaning
    on a [Machine], which holds the state cells, the two write clients, the
    settled receipts, the closure of the last render (for the dependency
    arrays) and the trace of everything done so far.

    The hook is driven in two ways.  [run] takes a list of [Step]s under
    props that stay the same, with a wallet client that keeps to the spec's
    contract: a wait answers once.  [happen] takes a list of [Event]s: each
    step runs under props of its own, and a wait that reported success may
    take it back.

    [src/read.ts] is embedded in [Module Read]. *)

From Stdlib Require Import ZArith.
From stdpp Require Import gmap strings list.

Local Open Scope Z_scope.

(** ** Data *)

(** [Address] and the transaction hashes are template-literal strings
    [`0x${string}`]: the constructor carries what follows the prefix, so a
    hash is never the empty (falsy) string. *)
Inductive Hash := Hex (digits : string).

Definition Address : Type := string.

(** An ABI is only passed along by the hooks, never inspected. *)
Definition Abi : Type := list string.

(** A JavaScript [Error].  Dependency arrays compare two errors by what
    they carry. *)
Inductive Error := MkError (message : string).

(** The elements of an [unknown[]] argument array. *)
Inductive Value :=
| VAddress (a : Address)
| VBigint (n : Z)
| VString (s : string)
| VNumber (n : Z)
| VBool (b : bool).

(** [amount: bigint | string] *)
Inductive Amount :=
| AmountBigint (n : Z)
| AmountString (s : string).

#[global] Instance Hash_eq_dec : EqDecision Hash.
Proof. solve_decision. Defined.

#[global] Instance Hash_countable : Countable Hash.
Proof.
  refine (inj_countable' (fun h => match h with Hex d => d end) Hex _).
  by intros [d].
Defined.

#[global] Instance Error_eq_dec : EqDecision Error.
Proof. solve_decision. Defined.

#[global] Instance Value_eq_dec : EqDecision Value.
Proof. solve_decision. Defined.

Record ApprovalConfig := {
  tokenAddress : Address;
  tokenAbi : Abi;
  spenderAddress : Address;
  amount : Amount;
  decimals : option Z;
}.

Record TransactionConfig := {
  contractAddress : Address;
  contractAbi : Abi;
  functionName : string;
  args : option (list Value);
}.

(** The props.  A callback is opaque to the hook; its field says whether the
    caller supplied it, and a call to it is recorded in the trace. *)
Record UseUniversalTransactionParams := {
  approvalConfig : option ApprovalConfig;
  transactionConfig : TransactionConfig;
  onApprovalSuccess : bool;
  onTransactionSuccess : bool;
  onApprovalError : bool;
  onTransactionError : bool;
  onFinalSuccess : bool;
}.

(** The first argument of [writeContract]. *)
Module WriteContract.

Record Request := {
  address : Address;
  abi : Abi;
  functionName : string;
  args : list Value;
}.

End WriteContract.

#[global] Instance Request_eq_dec : EqDecision WriteContract.Request.
Proof. solve_decision. Defined.

(** The six [useState] cells. *)
Record HookState := {
  approvalHash : option Hash;
  transactionHash : option Hash;
  isApproving : bool;
  isTransacting : bool;
  approvalError : option Error;
  transactionError : option Error;
}.

Definition initialState : HookState :=
  {| approvalHash := None; transactionHash := None;
     isApproving := false; isTransacting := false;
     approvalError := None; transactionError := None |}.

(** What a function of the hook can do. *)
Inductive Action :=
| SetApprovalHash (h : option Hash)
| SetTransactionHash (h : option Hash)
| SetIsApproving (b : bool)
| SetIsTransacting (b : bool)
| SetApprovalError (e : option Error)
| SetTransactionError (e : option Error)
| WriteApproval (r : WriteContract.Request)
| WriteTransaction (r : WriteContract.Request)
| ResetApproval
| ResetTransaction
| OnApprovalSuccess (h : Hash)
| OnTransactionSuccess (h : Hash)
| OnApprovalError (e : Error)
| OnTransactionError (e : Error)
| OnFinalSuccess.

#[global] Instance Action_eq_dec : EqDecision Action.
Proof. solve_decision. Defined.

(** [cb?.(x)]: the call happens when the callback was supplied. *)
Definition optcall (provided : bool) (a : Action) : list Action :=
  if provided then [a] else [].

(** ** The wallet client

    The wallet-client library is an external collaborator.  The hook reaches
    it through two primitives only, and the spec gives their contract:
    "submit a call, receive a handle; wait on a handle, receive
    success/failure". *)

(** Modelled from the spec: what [useWriteContract] holds, "submit a call,
    receive a handle".  A write client is idle, has a call pending, has
    handed back the handle (the transaction hash) as its [data], or has
    failed with its [error]. *)
Inductive WriteClient :=
| WIdle
| WPending
| WSuccess (h : Hash)
| WError (e : Error).

Definition data (w : WriteClient) : option Hash :=
  match w with WSuccess h => Some h | _ => None end.

Definition error (w : WriteClient) : option Error :=
  match w with WError e => Some e | _ => None end.

(** Modelled from the spec: how a handle that is waited on ends, "receive
    success/failure".  A hash settles once; until then it is not in the map
    of receipts. *)
Inductive Outcome :=
| Confirmed
| Failed (e : Error).

(** The three fields the hook reads off [useWaitForTransactionReceipt]. *)

Record Receipt := {
  isLoading : bool;
  isSuccess : bool;
  receiptError : option Error;
}.

(** Modelled from the spec: [useWaitForTransactionReceipt({ hash })], "wait
    on a handle, receive success/failure".  Without a hash nothing is waited
    on; with one, the wait is loading until the hash settles, then it is a
    success or carries the error. *)
Definition useWaitForTransactionReceipt
    (receipts : gmap Hash Outcome) (hash : option Hash) : Receipt :=
  match hash with
  | None => {| isLoading := false; isSuccess := false; receiptError := None |}
  | Some h =>
      match receipts !! h with
      | None => {| isLoading := true; isSuccess := false; receiptError := None |}
      | Some Confirmed =>
          {| isLoading := false; isSuccess := true; receiptError := None |}
      | Some (Failed e) =>
          {| isLoading := false; isSuccess := false; receiptError := Some e |}
      end
  end.

(** ** One render: the closure *)

Record Closure := {
  state : HookState;
  approvalData : option Hash;
  approvalWriteError : option Error;
  transactionData : option Hash;
  transactionWriteError : option Error;
  isApprovingConfirming : bool;
  isApprovalSuccess : bool;
  approvalConfirmError : option Error;
  isTransactionConfirming : bool;
  isTransactionSuccess : bool;
  transactionConfirmError : option Error;
}.

(** JavaScript truthiness of a [string | null] holding a hash or of an
    [Error | null]: the value is there. *)
Definition truthy {A} (o : option A) : bool :=
  match o with Some _ => true | None => false end.

(** ** The hook *)

Section Hook.

(** [parseUnits] of the wallet library is not part of this repository: it
    either returns the scaled integer or throws. *)
Variable parseUnits : string -> Z -> Error + Z.

Variable p : UseUniversalTransactionParams.

(** The [onError] handler handed to [writeApproval], which is also the
    body of the [catch] in [executeApproval]. *)
Definition approvalOnError (e : Error) : list Action :=
  [SetApprovalError (Some e); SetIsApproving false]
  ++ optcall (onApprovalError p) (OnApprovalError e).

Definition transactionOnError (e : Error) : list Action :=
  [SetTransactionError (Some e); SetIsTransacting false]
  ++ optcall (onTransactionError p) (OnTransactionError e).

(** [typeof amount === 'string' ? parseUnits(amount, decimals) : amount],
    with [decimals = 18] when the field is left out. *)
Definition approvalAmount (cfg : ApprovalConfig) : Error + Z :=
  match amount cfg with
  | AmountString s => parseUnits s (default 18 (decimals cfg))
  | AmountBigint n => inr n
  end.

Definition approvalRequest (cfg : ApprovalConfig) (approvalAmount : Z)
    : WriteContract.Request :=
  {| WriteContract.address := tokenAddress cfg;
     WriteContract.abi := tokenAbi cfg;
     WriteContract.functionName := "approve";
     WriteContract.args := [VAddress (spenderAddress cfg); VBigint approvalAmount] |}.

Definition executeApproval : list Action :=
  match approvalConfig p with
  | None => []
  | Some cfg =>
      [SetIsApproving true; SetApprovalError None]
      ++ match approvalAmount cfg with
         | inr approvalAmount => [WriteApproval (approvalRequest cfg approvalAmount)]
         | inl e => approvalOnError e
         end
  end.

Definition transactionRequest (cfg : TransactionConfig) : WriteContract.Request :=
  {| WriteContract.address := contractAddress cfg;
     WriteContract.abi := contractAbi cfg;
     WriteContract.functionName := functionName cfg;
     WriteContract.args := default [] (args cfg) |}.

(** Nothing in the [try] block throws (the write primitive reports a
    failure through [onError]), so the [catch] is never entered. *)
Definition executeTransaction : list Action :=
  [SetIsTransacting true; SetTransactionError None;
   WriteTransaction (transactionRequest (transactionConfig p))].

(** [execute] awaits [executeApproval] or [executeTransaction]; neither
    awaits anything itself, so all of it runs in the one call. *)
Definition execute : list Action :=
  [SetApprovalHash None; SetTransactionHash None;
   SetApprovalError None; SetTransactionError None;
   SetIsApproving false; SetIsTransacting false;
   ResetApproval; ResetTransaction]
  ++ match approvalConfig p with
     | Some _ => executeApproval
     | None => executeTransaction
     end.

Definition reset : list Action :=
  [SetApprovalHash None; SetTransactionHash None;
   SetIsApproving false; SetIsTransacting false;
   SetApprovalError None; SetTransactionError None;
   ResetApproval; ResetTransaction].

(** *** The effects, in source order.  Each is the body run with the
    closure of the render that scheduled it. *)

Definition effectApprovalData (c : Closure) : list Action :=
  match approvalData c with
  | Some h => [SetApprovalHash (Some h)]
  | None => []
  end.

Definition effectTransactionData (c : Closure) : list Action :=
  match transactionData c with
  | Some h => [SetTransactionHash (Some h)]
  | None => []
  end.

Definition effectApprovalWriteError (c : Closure) : list Action :=
  match approvalWriteError c with
  | Some e => approvalOnError e
  | None => []
  end.

Definition effectTransactionWriteError (c : Closure) : list Action :=
  match transactionWriteError c with
  | Some e => transactionOnError e
  | None => []
  end.

Definition effectApprovalConfirmError (c : Closure) : list Action :=
  match approvalConfirmError c with
  | Some e => approvalOnError e
  | None => []
  end.

Definition effectTransactionConfirmError (c : Closure) : list Action :=
  match transactionConfirmError c with
  | Some e => transactionOnError e
  | None => []
  end.

Definition effectApprovalSuccess (c : Closure) : list Action :=
  match approvalHash (state c) with
  | Some h =>
      if isApprovalSuccess c
         && negb (isTransacting (state c))
         && negb (truthy (transactionHash (state c)))
      then [SetIsApproving false]
           ++ optcall (onApprovalSuccess p) (OnApprovalSuccess h)
           ++ executeTransaction
      else []
  | None => []
  end.

Definition effectTransactionSuccess (c : Closure) : list Action :=
  match transactionHash (state c) with
  | Some h =>
      if isTransactionSuccess c
      then [SetIsTransacting false]
           ++ optcall (onTransactionSuccess p) (OnTransactionSuccess h)
           ++ optcall (onFinalSuccess p) OnFinalSuccess
      else []
  | None => []
  end.

(** *** The returned [TransactionState] *)

Record TransactionState := {
  ret_isApproving : bool;
  ret_isApprovingConfirming : bool;
  ret_isTransacting : bool;
  ret_isTransactionConfirming : bool;
  ret_isLoading : bool;
  ret_isApprovalSuccess : bool;
  ret_isTransactionSuccess : bool;
  ret_isComplete : bool;
  ret_approvalError : option Error;
  ret_transactionError : option Error;
  ret_approvalConfirmError : option Error;
  ret_transactionConfirmError : option Error;
  ret_approvalHash : option Hash;
  ret_transactionHash : option Hash;
  ret_execute : list Action;
  ret_reset : list Action;
}.

Definition useUniversalTransaction (c : Closure) : TransactionState :=
  let isLoading :=
    isApproving (state c)
    || isApprovingConfirming c
    || isTransacting (state c)
    || isTransactionConfirming c in
  let isComplete :=
    (match approvalConfig p with
     | Some _ => isApprovalSuccess c
     | None => true
     end) && isTransactionSuccess c in
  {| ret_isApproving := isApproving (state c);
     ret_isApprovingConfirming := isApprovingConfirming c;
     ret_isTransacting := isTransacting (state c);
     ret_isTransactionConfirming := isTransactionConfirming c;
     ret_isLoading := isLoading;
     ret_isApprovalSuccess := isApprovalSuccess c;
     ret_isTransactionSuccess := isTransactionSuccess c;
     ret_isComplete := isComplete;
     ret_approvalError := approvalError (state c);
     ret_transactionError := transactionError (state c);
     ret_approvalConfirmError := approvalConfirmError c;
     ret_transactionConfirmError := transactionConfirmError c;
     ret_approvalHash := approvalHash (state c);
     ret_transactionHash := transactionHash (state c);
     ret_execute := execute;
     ret_reset := reset |}.
(** ** The machine

    The six cells, the two write clients, the receipts that are in, the
    closure of the last render and the trace.  A setter call is applied to
    its cell at once: the hook reads a cell only through the closure of a
    render, and a render sees every setter call made before it. *)

Record Machine := {
  hook : HookState;
  approvalClient : WriteClient;
  transactionClient : WriteClient;
  receipts : gmap Hash Outcome;
  rendered : Closure;
  log : list Action;
}.

(** What a render of the hook sees. *)
Definition closure (m : Machine) : Closure :=
  let approvalReceipt :=
    useWaitForTransactionReceipt (receipts m) (approvalHash (hook m)) in
  let transactionReceipt :=
    useWaitForTransactionReceipt (receipts m) (transactionHash (hook m)) in
  {| state := hook m;
     approvalData := data (approvalClient m);
     approvalWriteError := error (approvalClient m);
     transactionData := data (transactionClient m);
     transactionWriteError := error (transactionClient m);
     isApprovingConfirming := isLoading approvalReceipt;
     isApprovalSuccess := isSuccess approvalReceipt;
     approvalConfirmError := receiptError approvalReceipt;
     isTransactionConfirming := isLoading transactionReceipt;
     isTransactionSuccess := isSuccess transactionReceipt;
     transactionConfirmError := receiptError transactionReceipt |}.

(** A state cell takes the value its own setter is called with. *)
Definition cellApprovalHash (v : option Hash) (a : Action) : option Hash :=
  match a with SetApprovalHash h => h | _ => v end.

Definition cellTransactionHash (v : option Hash) (a : Action) : option Hash :=
  match a with SetTransactionHash h => h | _ => v end.

Definition cellIsApproving (v : bool) (a : Action) : bool :=
  match a with SetIsApproving b => b | _ => v end.

Definition cellIsTransacting (v : bool) (a : Action) : bool :=
  match a with SetIsTransacting b => b | _ => v end.

Definition cellApprovalError (v : option Error) (a : Action) : option Error :=
  match a with SetApprovalError e => e | _ => v end.

Definition cellTransactionError (v : option Error) (a : Action) : option Error :=
  match a with SetTransactionError e => e | _ => v end.

Definition setState (s : HookState) (a : Action) : HookState :=
  {| approvalHash := cellApprovalHash (approvalHash s) a;
     transactionHash := cellTransactionHash (transactionHash s) a;
     isApproving := cellIsApproving (isApproving s) a;
     isTransacting := cellIsTransacting (isTransacting s) a;
     approvalError := cellApprovalError (approvalError s) a;
     transactionError := cellTransactionError (transactionError s) a |}.

(** [writeContract] starts a call on its client, [reset] puts the client
    back to idle (a call still pending is dropped). *)
Definition onApprovalClient (w : WriteClient) (a : Action) : WriteClient :=
  match a with
  | WriteApproval _ => WPending
  | ResetApproval => WIdle
  | _ => w
  end.

Definition onTransactionClient (w : WriteClient) (a : Action) : WriteClient :=
  match a with
  | WriteTransaction _ => WPending
  | ResetTransaction => WIdle
  | _ => w
  end.

Definition apply_action (m : Machine) (a : Action) : Machine :=
  {| hook := setState (hook m) a;
     approvalClient := onApprovalClient (approvalClient m) a;
     transactionClient := onTransactionClient (transactionClient m) a;
     receipts := receipts m;
     rendered := rendered m;
     log := log m ++ [a] |}.

Definition apply_actions (m : Machine) (l : list Action) : Machine :=
  foldl apply_action m l.

(** [useEffect(body, deps)]: the body runs when a dependency differs from
    its value at the previous render. *)
Definition useEffect (changed : bool) (body : list Action) : list Action :=
  if changed then body else [].

Definition differs `{EqDecision A} (x y : A) : bool :=
  negb (bool_decide (x = y)).

(** The effects a render schedules.  [ca] and [ct] tell whether the caller
    handed in a new [onApprovalError] / [onTransactionError] function object
    with this render; the other dependencies are compared with the closure
    of the previous render. *)
Definition effects (prev c : Closure) (ca ct : bool) : list Action :=
  useEffect (differs (approvalData prev) (approvalData c))
    (effectApprovalData c)
  ++ useEffect (differs (transactionData prev) (transactionData c))
    (effectTransactionData c)
  ++ useEffect (differs (approvalWriteError prev) (approvalWriteError c) || ca)
    (effectApprovalWriteError c)
  ++ useEffect (differs (transactionWriteError prev) (transactionWriteError c) || ct)
    (effectTransactionWriteError c)
  ++ useEffect (differs (approvalConfirmError prev) (approvalConfirmError c) || ca)
    (effectApprovalConfirmError c)
  ++ useEffect (differs (transactionConfirmError prev) (transactionConfirmError c) || ct)
    (effectTransactionConfirmError c)
  ++ useEffect (differs (isApprovalSuccess prev) (isApprovalSuccess c)
                || differs (approvalHash (state prev)) (approvalHash (state c)))
    (effectApprovalSuccess c)
  ++ useEffect (differs (isTransactionSuccess prev) (isTransactionSuccess c)
                || differs (transactionHash (state prev)) (transactionHash (state c)))
    (effectTransactionSuccess c).

Definition withRendered (m : Machine) (c : Closure) : Machine :=
  {| hook := hook m; approvalClient := approvalClient m;
     transactionClient := transactionClient m; receipts := receipts m;
     rendered := c; log := log m |}.

Definition withApprovalClient (m : Machine) (w : WriteClient) : Machine :=
  {| hook := hook m; approvalClient := w;
     transactionClient := transactionClient m; receipts := receipts m;
     rendered := rendered m; log := log m |}.

Definition withTransactionClient (m : Machine) (w : WriteClient) : Machine :=
  {| hook := hook m; approvalClient := approvalClient m;
     transactionClient := w; receipts := receipts m;
     rendered := rendered m; log := log m |}.

Definition settle (m : Machine) (h : Hash) (o : Outcome) : Machine :=
  {| hook := hook m; approvalClient := approvalClient m;
     transactionClient := transactionClient m;
     receipts := <[h := o]> (receipts m);
     rendered := rendered m; log := log m |}.

Definition render (m : Machine) (ca ct : bool) : Machine :=
  let c := closure m in
  apply_actions (withRendered m c) (effects (rendered m) c ca ct).

(** What can happen to a mounted hook: the user calls one of the two
    returned actions, a pending write hands back its hash or fails (the
    [onError] handler given to [writeContract] then runs), a hash not yet
    settled settles, or React renders the component.  A hash settles once
    here; [Event] adds the wait that takes back its answer. *)
Inductive Step :=
| UserExecute
| UserReset
| ApprovalWriteOk (h : Hash)
| ApprovalWriteFail (e : Error)
| TransactionWriteOk (h : Hash)
| TransactionWriteFail (e : Error)
| ReceiptOk (h : Hash)
| ReceiptFail (h : Hash) (e : Error)
| Render (ca ct : bool).

Definition step (m : Machine) (s : Step) : Machine :=
  match s with
  | UserExecute => apply_actions m execute
  | UserReset => apply_actions m reset
  | ApprovalWriteOk h =>
      match approvalClient m with
      | WPending => withApprovalClient m (WSuccess h)
      | _ => m
      end
  | ApprovalWriteFail e =>
      match approvalClient m with
      | WPending => apply_actions (withApprovalClient m (WError e)) (approvalOnError e)
      | _ => m
      end
  | TransactionWriteOk h =>
      match transactionClient m with
      | WPending => withTransactionClient m (WSuccess h)
      | _ => m
      end
  | TransactionWriteFail e =>
      match transactionClient m with
      | WPending =>
          apply_actions (withTransactionClient m (WError e)) (transactionOnError e)
      | _ => m
      end
  | ReceiptOk h =>
      match receipts m !! h with
      | None => settle m h Confirmed
      | Some _ => m
      end
  | ReceiptFail h e =>
      match receipts m !! h with
      | None => settle m h (Failed e)
      | Some _ => m
      end
  | Render ca ct => render m ca ct
  end.

(** The actions a step performs. *)
Definition performed (m : Machine) (s : Step) : list Action :=
  match s with
  | UserExecute => execute
  | UserReset => reset
  | ApprovalWriteFail e =>
      match approvalClient m with WPending => approvalOnError e | _ => [] end
  | TransactionWriteFail e =>
      match transactionClient m with WPending => transactionOnError e | _ => [] end
  | Render ca ct => effects (rendered m) (closure m) ca ct
  | _ => []
  end.

Definition run (m : Machine) (l : list Step) : Machine := foldl step m l.

(** The hook as mounted: nothing submitted, nothing settled. *)
Definition initialClosure : Closure :=
  {| state := initialState;
     approvalData := None; approvalWriteError := None;
     transactionData := None; transactionWriteError := None;
     isApprovingConfirming := false; isApprovalSuccess := false;
     approvalConfirmError := None;
     isTransactionConfirming := false; isTransactionSuccess := false;
     transactionConfirmError := None |}.

Definition mounted : Machine :=
  {| hook := initialState; approvalClient := WIdle; transactionClient := WIdle;
     receipts := ∅; rendered := initialClosure; log := [] |}.

(** The calls of the transaction write primitive in a trace. *)
Definition isWriteTransaction (a : Action) : bool :=
  match a with WriteTransaction _ => true | _ => false end.

Definition isWriteApproval (a : Action) : bool :=
  match a with WriteApproval _ => true | _ => false end.

Definition submissions (l : list Action) : list Action :=
  filter (fun a => isWriteTransaction a = true) l.

Definition approvals (l : list Action) : list Action :=
  filter (fun a => isWriteApproval a = true) l.

(** The approval-success effect runs its body. *)
Definition fires (prev c : Closure) : bool :=
  (differs (isApprovalSuccess prev) (isApprovalSuccess c)
   || differs (approvalHash (state prev)) (approvalHash (state c)))
  && (truthy (approvalHash (state c)) && isApprovalSuccess c
      && negb (isTransacting (state c))
      && negb (truthy (transactionHash (state c)))).

(** *** Invariants of a run *)

(** An approval hash that is set is the hash the approval client handed
    back. *)
Definition approval_hash_follows_client (m : Machine) : Prop :=
  forall h, approvalHash (hook m) = Some h -> approvalClient m = WSuccess h.

(** The approval hash is set and its receipt is in, confirmed. *)
Definition approval_confirmed (m : Machine) : Prop :=
  exists h, approvalHash (hook m) = Some h /\ receipts m !! h = Some Confirmed.

(** With an approval configured, the transaction client is busy, and a
    transaction hash is waited on, only once the approval is confirmed. *)
Definition sequenced (m : Machine) : Prop :=
  approval_hash_follows_client m /\
  (transactionClient m <> WIdle -> approval_confirmed m) /\
  (is_Some (transactionHash (hook m)) -> approval_confirmed m).

(** Once the one submission of an execution is made, the approval-success
    effect cannot run its body again before the next [execute], as long as
    the approval's wait keeps its answer: either the last render already
    saw this approval hash confirmed, so the dependencies stay as they are,
    or the approval side was reset. *)
Definition spent (m : Machine) : Prop :=
  (exists h,
     approvalHash (hook m) = Some h /\ approvalClient m = WSuccess h /\
     receipts m !! h = Some Confirmed /\
     isApprovalSuccess (rendered m) = true /\
     approvalHash (state (rendered m)) = Some h) \/
  (approvalClient m = WIdle /\ approvalHash (hook m) = None).

(** *** The approval fails *)

(** The two ways the approval can fail at [m]: the pending approval write
    fails with [e], or the hash the hook is waiting on settles as failed
    with [e]. *)
Definition approval_fails (m : Machine) (f : Step) (e : Error) : Prop :=
  (f = ApprovalWriteFail e /\ approvalClient m = WPending) \/
  (exists h, f = ReceiptFail h e /\
     approvalHash (hook m) = Some h /\ receipts m !! h = None).

(** The approval of this execution cannot be confirmed any more: the
    approval client is not pending, and if it handed back a hash, that hash
    has settled as failed. *)
Definition doomed (m : Machine) : Prop :=
  approval_hash_follows_client m /\
  approvalClient m <> WPending /\
  (forall h, approvalClient m = WSuccess h ->
     exists e, receipts m !! h = Some (Failed e)).

(** The failed receipt is in, and the next render will see
    [approvalConfirmError] change. *)
Definition unnoticed (e : Error) (m : Machine) : Prop :=
  exists h, approvalHash (hook m) = Some h /\ approvalClient m = WSuccess h /\
    receipts m !! h = Some (Failed e) /\
    approvalConfirmError (rendered m) = None.

(** The failure [e] sits in the [approvalError] cell, and the approval side
    is such that it stays there. *)
Definition exposed (e : Error) (m : Machine) : Prop :=
  approvalError (hook m) = Some e /\
  ((approvalClient m = WError e /\ approvalHash (hook m) = None) \/
   (exists h, approvalHash (hook m) = Some h /\ approvalClient m = WSuccess h /\
      receipts m !! h = Some (Failed e))).

(** While the hook waits on an unsettled approval hash, the last render saw
    no confirmation error. *)
Definition awaiting (m : Machine) : Prop :=
  forall h, approvalHash (hook m) = Some h -> receipts m !! h = None ->
    approvalConfirmError (rendered m) = None.

Definition isRender (s : Step) : Prop := exists ca ct, s = Render ca ct.

(** Everything done along a run. *)
Fixpoint trace (m : Machine) (l : list Step) : list Action :=
  match l with
  | [] => []
  | s :: l => performed m s ++ trace (step m s) l
  end.

End Hook.

(** ** The read hook, [src/read.ts] *)

Module Read.

(** The wallet library's side: what [useReadContract] takes and gives.
    Its result carries more than the seven fields the hook picks. *)
Module Query.

Record Options := { enabled : bool }.

Record Parameters := {
  address : Address;
  abi : Abi;
  functionName : string;
  args : list Value;
  query : Options;
  watch : bool;
  chainId : option Z;
}.

Record Result (T Refetch Rest : Type) := {
  data : option T;
  isLoading : bool;
  isError : bool;
  error : option Error;
  refetch : Refetch;
  isSuccess : bool;
  isFetching : bool;
  rest : Rest;
}.

Arguments data {T Refetch Rest} _.
Arguments isLoading {T Refetch Rest} _.
Arguments isError {T Refetch Rest} _.
Arguments error {T Refetch Rest} _.
Arguments refetch {T Refetch Rest} _.
Arguments isSuccess {T Refetch Rest} _.
Arguments isFetching {T Refetch Rest} _.
Arguments rest {T Refetch Rest} _.

End Query.

Record UseUniversalReadContractParams := {
  functionName : string;
  args : option (list Value);
  address : option Address;
  abi : option Abi;
  enabled : option bool;
  watch : option bool;
  chainId : option Z;
}.

Record UseUniversalReadContractReturn (T Refetch : Type) := {
  data : option T;
  isLoading : bool;
  isError : bool;
  error : option Error;
  refetch : Refetch;
  isSuccess : bool;
  isFetching : bool;
}.

Arguments data {T Refetch} _.
Arguments isLoading {T Refetch} _.
Arguments isError {T Refetch} _.
Arguments error {T Refetch} _.
Arguments refetch {T Refetch} _.
Arguments isSuccess {T Refetch} _.
Arguments isFetching {T Refetch} _.

Section ReadHook.

Context {T Refetch Rest : Type}.

(** [@/config/contracts] is not among the sources. *)
Variable DEFAULT_CONTRACT_ADDRESS : Address.
Variable DEFAULT_CONTRACT_ABI : Abi.

Variable useReadContract : Query.Parameters -> Query.Result T Refetch Rest.

Definition useUniversalReadContract (params : UseUniversalReadContractParams)
    : UseUniversalReadContractReturn T Refetch :=
  let functionName := functionName params in
  let args := match args params with Some a => a | None => [] end in
  let address :=
    match address params with Some a => a | None => DEFAULT_CONTRACT_ADDRESS end in
  let abi := match abi params with Some a => a | None => DEFAULT_CONTRACT_ABI end in
  let enabled := match enabled params with Some b => b | None => true end in
  let watch := match watch params with Some b => b | None => false end in
  let chainId := chainId params in
  let r :=
    useReadContract
      {| Query.address := address;
         Query.abi := abi;
         Query.functionName := functionName;
         Query.args := args;
         Query.query := {| Query.enabled := enabled |};
         Query.watch := watch;
         Query.chainId := chainId |} in
  {| data := Query.data r;
     isLoading := Query.isLoading r;
     isError := Query.isError r;
     error := Query.error r;
     refetch := Query.refetch r;
     isSuccess := Query.isSuccess r;
     isFetching := Query.isFetching r |}.

(** The spec's words: "forwards parameters, with defaults, to an external
    read-query primitive and reshapes its result". *)
Definition forwarded (params : UseUniversalReadContractParams) : Query.Parameters :=
  {| Query.address := default DEFAULT_CONTRACT_ADDRESS (address params);
     Query.abi := default DEFAULT_CONTRACT_ABI (abi params);
     Query.functionName := functionName params;
     Query.args := default [] (args params);
     Query.query := {| Query.enabled := default true (enabled params) |};
     Query.watch := default false (watch params);
     Query.chainId := chainId params |}.

Definition reshape (r : Query.Result T Refetch Rest)
    : UseUniversalReadContractReturn T Refetch :=
  {| data := Query.data r;
     isLoading := Query.isLoading r;
     isError := Query.isError r;
     error := Query.error r;
     refetch := Query.refetch r;
     isSuccess := Query.isSuccess r;
     isFetching := Query.isFetching r |}.

Definition readDelegateSpec (params : UseUniversalReadContractParams)
    : UseUniversalReadContractReturn T Refetch :=
  reshape (useReadContract (forwarded params)).

End ReadHook.

(** A primitive that hands back, as its data, the parameters it was called
    with: it shows what the hook passes down. *)
Definition echo (q : Query.Parameters) : Query.Result Query.Parameters unit unit :=
  {| Query.data := Some q; Query.isLoading := false; Query.isError := false;
     Query.error := None; Query.refetch := tt; Query.isSuccess := true;
     Query.isFetching := false; Query.rest := tt |}.

End Read.

(** ** Sample inputs *)

(** A stand-in for the library's [parseUnits], to run the hook on concrete
    inputs: it takes whole numbers only and throws on anything else. *)
Fixpoint digits (s : string) (acc : Z) : option Z :=
  match s with
  | EmptyString => Some acc
  | String c s =>
      let n := Z.of_nat (Ascii.nat_of_ascii c) - 48 in
      if (0 <=? n) && (n <=? 9) then digits s (10 * acc + n) else None
  end.

Definition sampleParseUnits (s : string) (decimals : Z) : Error + Z :=
  match s with
  | EmptyString => inl (MkError "invalid decimal number")
  | _ =>
      match digits s 0 with
      | Some n => inr (n * 10 ^ decimals)
      | None => inl (MkError "invalid decimal number")
      end
  end.

Definition sampleApproval : ApprovalConfig :=
  {| tokenAddress := "0xToken"; tokenAbi := ["approve"];
     spenderAddress := "0xStaking"; amount := AmountString "5";
     decimals := None |}.

Definition sampleTransaction : TransactionConfig :=
  {| contractAddress := "0xStaking"; contractAbi := ["stake"];
     functionName := "stake"; args := Some [VBigint 5] |}.

Definition sampleParams : UseUniversalTransactionParams :=
  {| approvalConfig := Some sampleApproval;
     transactionConfig := sampleTransaction;
     onApprovalSuccess := true; onTransactionSuccess := true;
     onApprovalError := true; onTransactionError := true;
     onFinalSuccess := true |}.

Definition sampleDirect : UseUniversalTransactionParams :=
  {| approvalConfig := None;
     transactionConfig := sampleTransaction;
     onApprovalSuccess := false; onTransactionSuccess := true;
     onApprovalError := false; onTransactionError := true;
     onFinalSuccess := false |}.

(** ** Further predicates on runs *)

Definition isExecute (s : Step) : bool :=
  match s with UserExecute => true | _ => false end.

(** Nothing in flight and nothing recorded: the six cells at their initial
    values and both write clients idle. *)
Definition quiet (m : Machine) : Prop :=
  hook m = initialState /\ approvalClient m = WIdle /\ transactionClient m = WIdle.

(** [executeApproval] gave up on an amount [parseUnits] threw [e] for: the
    error is recorded, nothing is in flight and nothing was submitted. *)
Definition gave_up (e : Error) (m : Machine) : Prop :=
  approvalError (hook m) = Some e /\
  isApproving (hook m) = false /\ isTransacting (hook m) = false /\
  approvalHash (hook m) = None /\ transactionHash (hook m) = None /\
  approvalClient m = WIdle /\ transactionClient m = WIdle.

(** A write client has a call under way whose hash has not reached the
    hook's cell: it is pending, or it has handed the hash back. *)
Definition under_way (w : WriteClient) : Prop :=
  w = WPending \/ exists h, w = WSuccess h.

(** What the cells say follows what the write clients hold: a recorded
    hash is the one its client handed back, and while a call is under way
    and its hash not recorded, the step's in-progress flag is up. *)
Definition tracked (m : Machine) : Prop :=
  approval_hash_follows_client m /\
  (forall t, transactionHash (hook m) = Some t -> transactionClient m = WSuccess t) /\
  (approvalHash (hook m) = None -> under_way (approvalClient m) ->
   isApproving (hook m) = true) /\
  (transactionHash (hook m) = None -> under_way (transactionClient m) ->
   isTransacting (hook m) = true).

Definition sampleUnparsable : UseUniversalTransactionParams :=
  {| approvalConfig :=
       Some {| tokenAddress := "0xToken"; tokenAbi := ["approve"];
               spenderAddress := "0xStaking"; amount := AmountString "five";
               decimals := Some 6 |};
     transactionConfig := sampleTransaction;
     onApprovalSuccess := true; onTransactionSuccess := true;
     onApprovalError := true; onTransactionError := true;
     onFinalSuccess := true |}.

(** *** The transaction fails *)

(** The two ways the dependent transaction can fail at [m]: the pending
    transaction write fails with [e], or the transaction hash the hook is
    waiting on settles as failed with [e]. *)
Definition transaction_fails (m : Machine) (f : Step) (e : Error) : Prop :=
  (f = TransactionWriteFail e /\ transactionClient m = WPending) \/
  (exists t, f = ReceiptFail t e /\
     transactionHash (hook m) = Some t /\ receipts m !! t = None).

(** The failed receipt of the transaction is in, and the next render will
    see [transactionConfirmError] change. *)
Definition unnoticed_transaction (e : Error) (m : Machine) : Prop :=
  exists t, transactionHash (hook m) = Some t /\ transactionClient m = WSuccess t /\
    receipts m !! t = Some (Failed e) /\
    transactionConfirmError (rendered m) = None.

(** The failure [e] of the transaction sits in [transactionError] with
    [isTransacting] down, and the machine is such that both stay so. *)
Definition exposed_transaction (e : Error) (m : Machine) : Prop :=
  transactionError (hook m) = Some e /\
  isTransacting (hook m) = false /\
  ((transactionClient m = WError e /\ transactionHash (hook m) = None /\ spent m) \/
   (exists t, transactionHash (hook m) = Some t /\
      transactionClient m = WSuccess t /\
      receipts m !! t = Some (Failed e))).

(** While the hook waits on an unsettled transaction hash, the last render
    saw no confirmation error for it. *)
Definition awaiting_transaction (m : Machine) : Prop :=
  forall t, transactionHash (hook m) = Some t -> receipts m !! t = None ->
    transactionConfirmError (rendered m) = None.

(** A transaction client that is busy has used up the first submission of
    the execution. *)
Definition busy_is_spent (m : Machine) : Prop :=
  transactionClient m <> WIdle -> spent m.

(** *** The success callbacks *)

(** The calls made by the transaction-success effect: [onFinalSuccess] for
    [final], [onTransactionSuccess] otherwise. *)
Definition successCall (final : bool) (a : Action) : bool :=
  match a with
  | OnFinalSuccess => final
  | OnTransactionSuccess _ => negb final
  | _ => false
  end.

Definition successCalls (final : bool) (l : list Action) : list Action :=
  filter (fun a => successCall final a = true) l.

(** The transaction-success effect has run its body for this execution and
    cannot run it again before the next [execute], as long as the
    transaction's wait keeps its answer: the last render already saw this
    transaction hash confirmed, or everything was reset. *)
Definition finished (m : Machine) : Prop :=
  (exists t,
     transactionHash (hook m) = Some t /\ transactionClient m = WSuccess t /\
     receipts m !! t = Some Confirmed /\
     isTransactionSuccess (rendered m) = true /\
     transactionHash (state (rendered m)) = Some t) \/
  (transactionClient m = WIdle /\ transactionHash (hook m) = None /\
   approvalClient m = WIdle /\ approvalHash (hook m) = None).

(** *** What the user is shown *)

(** The flow is complete, as [isComplete] computes it. *)
Definition completed (p : UseUniversalTransactionParams) (m : Machine) : bool :=
  match approvalConfig p with
  | Some _ => isApprovalSuccess (closure m)
  | None => true
  end && isTransactionSuccess (closure m).

(** One of the two in-progress cells is up, one of the two error cells is
    set, or the flow is complete. *)
Definition reporting (p : UseUniversalTransactionParams) (m : Machine) : Prop :=
  isApproving (hook m) = true \/ isTransacting (hook m) = true \/
  is_Some (approvalError (hook m)) \/ is_Some (transactionError (hook m)) \/
  completed p m = true.

(** *** The flow without failures *)

(** Six cells with no error in them. *)
Definition cells (ah th : option Hash) (ia it : bool) : HookState :=
  {| approvalHash := ah; transactionHash := th;
     isApproving := ia; isTransacting := it;
     approvalError := None; transactionError := None |}.

(** What a render sees of given cells, clients and receipts. *)
Definition view (s : HookState) (ac tc : WriteClient)
    (rc : gmap Hash Outcome) : Closure :=
  closure {| hook := s; approvalClient := ac; transactionClient := tc;
             receipts := rc; rendered := initialClosure; log := [] |}.

(** ** Props that change, answers that are taken back

    [run] holds the props fixed and lets a wait answer once.  Neither is in
    the code: the hook reads its props anew at every render, and [execute],
    the effect bodies and the [onError] handlers close over the props of
    the render that made them; and what the hook reads off a wait it reads
    at every render, whatever it read before.  An [Event] is a step
    together with the props it runs under, or a wait taking back the
    success it reported: the wallet library keeps receipts in a query
    cache, an entry can be dropped and fetched again, and [isSuccess] then
    goes from true to false and back to true for one hash. *)

Inductive Event :=
| Under (q : UseUniversalTransactionParams) (s : Step)
| ReceiptLost (h : Hash).

(** The wait on [h] is loading again. *)
Definition unsettle (m : Machine) (h : Hash) : Machine :=
  {| hook := hook m; approvalClient := approvalClient m;
     transactionClient := transactionClient m;
     receipts := delete h (receipts m);
     rendered := rendered m; log := log m |}.

Section World.

Variable parseUnits : string -> Z -> Error + Z.

(** Only a confirmation is taken back; a failure stays, as in [step]. *)
Definition occur (m : Machine) (e : Event) : Machine :=
  match e with
  | Under q s => step parseUnits q m s
  | ReceiptLost h =>
      match receipts m !! h with
      | Some Confirmed => unsettle m h
      | _ => m
      end
  end.

(** The actions an event performs. *)
Definition caused (m : Machine) (e : Event) : list Action :=
  match e with
  | Under q s => performed parseUnits q m s
  | ReceiptLost _ => []
  end.

Definition happen (m : Machine) (l : list Event) : Machine := foldl occur m l.

(** Everything done along a list of events. *)
Fixpoint history (m : Machine) (l : list Event) : list Action :=
  match l with
  | [] => []
  | e :: l => caused m e ++ history (occur m e) l
  end.

End World.

Definition isExecution (e : Event) : bool :=
  match e with Under _ UserExecute => true | _ => false end.

Definition isResetting (e : Event) : bool :=
  match e with Under _ UserReset => true | _ => false end.

(** A wait takes back its success. *)
Definition isLoss (e : Event) : bool :=
  match e with ReceiptLost _ => true | _ => false end.

(** The wallet answers a transaction write with a failure. *)
Definition isRejection (e : Event) : bool :=
  match e with Under _ (TransactionWriteFail _) => true | _ => false end.

Definition isRendering (e : Event) : Prop :=
  exists q ca ct, e = Under q (Render ca ct).

Definition count (f : Event -> bool) (l : list Event) : nat :=
  length (filter (fun e => f e = true) l).

(** No wait takes back its answer. *)
Definition settled (l : list Event) : Prop :=
  Forall (fun e => isLoss e = false) l.

(** The guard of the approval-success effect is shut, and stays shut until
    the transaction write fails or [execute] is called: the transaction
    client holds no error, and a transaction is in flight, or its hash is
    recorded, or there is no approval to act on. *)
Definition closed (m : Machine) : Prop :=
  error (transactionClient m) = None /\
  (isTransacting (hook m) = true \/
   is_Some (transactionHash (hook m)) \/
   (approvalClient m = WIdle /\ approvalHash (hook m) = None)).

(** An event that is not a call of [execute] under props with an approval
    configured. *)
Definition direct (e : Event) : Prop :=
  match e with
  | Under q UserExecute => approvalConfig q = None
  | _ => True
  end.

(** An event that is not a call of [execute] under props without an
    approval configured. *)
Definition approving (e : Event) : Prop :=
  match e with
  | Under q UserExecute => is_Some (approvalConfig q)
  | _ => True
  end.

(** The props of the event's step supply [onTransactionError]. *)
Definition handlesTransactionError (e : Event) : Prop :=
  match e with
  | Under q _ => onTransactionError q = true
  | ReceiptLost _ => True
  end.

(** While the transaction hash the hook waits on has not failed, the last
    render saw no confirmation error for it. *)
Definition unfailed_transaction (m : Machine) : Prop :=
  forall t, transactionHash (hook m) = Some t ->
    (forall e, receipts m !! t <> Some (Failed e)) ->
    transactionConfirmError (rendered m) = None.

(** * Properties *)

(** ** What a render returns *)

(** C4: the returned [isComplete] is true exactly when the dependent
    transaction is confirmed and, if an approval is configured, the approval
    is confirmed too; without an approval configured it equals
    [isTransactionSuccess]. *)
Theorem isComplete_spec parseUnits p c :
  let r := useUniversalTransaction parseUnits p c in
  (ret_isComplete r = true <->
     ret_isTransactionSuccess r = true /\
     (is_Some (approvalConfig p) -> ret_isApprovalSuccess r = true)) /\
  match approvalConfig p with
  | None => ret_isComplete r = ret_isTransactionSuccess r
  | Some _ => ret_isComplete r = ret_isApprovalSuccess r && ret_isTransactionSuccess r
  end.
Proof.
  cbn. destruct (approvalConfig p) as [cfg|]; cbn.
  - split; [|reflexivity]. rewrite andb_true_iff. split.
    + intros [Ha Ht]. split; [exact Ht | intros _; exact Ha].
    + intros [Ht Ha]. split; [apply Ha; eauto | exact Ht].
  - split; [|reflexivity]. split.
    + intros Ht. split; [exact Ht | intros [x Hx]; discriminate].
    + intros [Ht _]. exact Ht.
Qed.

(** C5: the returned [isLoading] is true exactly when one of the four
    per-step loading flags is. *)
Theorem isLoading_spec parseUnits p c :
  let r := useUniversalTransaction parseUnits p c in
  ret_isLoading r = true <->
    ret_isApproving r = true \/ ret_isApprovingConfirming r = true \/
    ret_isTransacting r = true \/ ret_isTransactionConfirming r = true.
Proof.
  cbn. rewrite !orb_true_iff. tauto.
Qed.

(** ** The approval call *)

(** C6: with an approval configured, [executeApproval] makes exactly one
    approval call when the configured amount is a bigint, or a string that
    [parseUnits] returns a value for (at [decimals], or 18 when [decimals]
    is left out): the call goes to the token address with the token ABI,
    names the function [approve], and carries exactly the spender and that
    amount.  When [parseUnits] throws, the [catch] block runs instead: no
    call is made, and the thrown error goes to [approvalError] and to
    [onApprovalError]. *)
Theorem executeApproval_call parseUnits p cfg :
  approvalConfig p = Some cfg ->
  match amount cfg with
  | AmountBigint n =>
      approvals (executeApproval parseUnits p) =
        [WriteApproval
           {| WriteContract.address := tokenAddress cfg;
              WriteContract.abi := tokenAbi cfg;
              WriteContract.functionName := "approve";
              WriteContract.args := [VAddress (spenderAddress cfg); VBigint n] |}]
  | AmountString s =>
      match parseUnits s (match decimals cfg with Some d => d | None => 18 end) with
      | inr v =>
          approvals (executeApproval parseUnits p) =
            [WriteApproval
               {| WriteContract.address := tokenAddress cfg;
                  WriteContract.abi := tokenAbi cfg;
                  WriteContract.functionName := "approve";
                  WriteContract.args :=
                    [VAddress (spenderAddress cfg); VBigint v] |}]
      | inl e =>
          approvals (executeApproval parseUnits p) = [] /\
          executeApproval parseUnits p =
            [SetIsApproving true; SetApprovalError None;
             SetApprovalError (Some e); SetIsApproving false]
            ++ (if onApprovalError p then [OnApprovalError e] else [])
      end
  end.
Proof.
  intros Hcfg. unfold executeApproval, approvalAmount. rewrite Hcfg.
  destruct (amount cfg) as [n|s]; [reflexivity|].
  destruct (decimals cfg) as [d|]; cbn [from_option id];
    match goal with |- context [parseUnits s ?d] =>
      destruct (parseUnits s d) as [e|v]
    end; try reflexivity;
    unfold approvalOnError, optcall; destruct (onApprovalError p);
    split; reflexivity.
Qed.

Lemma executeApproval_call_witness :
  approvals (executeApproval sampleParseUnits sampleParams) =
    [WriteApproval
       {| WriteContract.address := "0xToken";
          WriteContract.abi := ["approve"];
          WriteContract.functionName := "approve";
          WriteContract.args :=
            [VAddress "0xStaking"; VBigint 5000000000000000000] |}].
Proof.
  exact (executeApproval_call sampleParseUnits sampleParams sampleApproval
           eq_refl).
Defined.

(** An approval configuration for which [executeApproval] submits no call:
    the amount is a string that [parseUnits] throws on, and the [catch]
    block is all that runs after the first two statements. *)
Lemma executeApproval_without_call :
  approvalConfig sampleUnparsable =
    Some {| tokenAddress := "0xToken"; tokenAbi := ["approve"];
            spenderAddress := "0xStaking"; amount := AmountString "five";
            decimals := Some 6 |} /\
  approvals (executeApproval sampleParseUnits sampleUnparsable) = [] /\
  exists e,
    sampleParseUnits "five" 6 = inl e /\
    executeApproval sampleParseUnits sampleUnparsable =
      [SetIsApproving true; SetApprovalError None;
       SetApprovalError (Some e); SetIsApproving false; OnApprovalError e].
Proof. repeat split. eexists. split; reflexivity. Qed.

(** C10: the amount that goes into the approval call is the configured
    [amount] itself when it is a bigint, whatever [decimals] says, and
    [parseUnits(amount, decimals)] when it is a string, with 18 for
    [decimals] left out. *)
Theorem approvalAmount_passed parseUnits p cfg :
  approvalConfig p = Some cfg ->
  match amount cfg with
  | AmountBigint n =>
      approvals (executeApproval parseUnits p) =
        [WriteApproval
           {| WriteContract.address := tokenAddress cfg;
              WriteContract.abi := tokenAbi cfg;
              WriteContract.functionName := "approve";
              WriteContract.args := [VAddress (spenderAddress cfg); VBigint n] |}]
  | AmountString s =>
      forall v,
        parseUnits s (match decimals cfg with Some d => d | None => 18 end) = inr v ->
        approvals (executeApproval parseUnits p) =
          [WriteApproval
             {| WriteContract.address := tokenAddress cfg;
                WriteContract.abi := tokenAbi cfg;
                WriteContract.functionName := "approve";
                WriteContract.args := [VAddress (spenderAddress cfg); VBigint v] |}]
  end.
Proof.
  intros Hcfg. unfold executeApproval, approvalAmount. rewrite Hcfg.
  destruct (amount cfg) as [n|s]; [reflexivity|].
  intros v Hv. destruct (decimals cfg); cbn in *; rewrite Hv; reflexivity.
Qed.

Lemma approvalAmount_passed_witness :
  approvalConfig sampleParams = Some sampleApproval /\
  approvals (executeApproval sampleParseUnits sampleParams) =
    [WriteApproval
       {| WriteContract.address := "0xToken";
          WriteContract.abi := ["approve"];
          WriteContract.functionName := "approve";
          WriteContract.args :=
            [VAddress "0xStaking"; VBigint 5000000000000000000] |}].
Proof.
  split; [reflexivity|].
  apply (approvalAmount_passed sampleParseUnits sampleParams sampleApproval);
    reflexivity.
Defined.

(** ** [execute] and [reset] *)

Lemma execute_unfold parseUnits p :
  execute parseUnits p =
    take 8 (execute parseUnits p)
    ++ match approvalConfig p with
       | Some _ => executeApproval parseUnits p
       | None => executeTransaction p
       end.
Proof. reflexivity. Qed.

Lemma executeApproval_no_submission parseUnits p :
  submissions (executeApproval parseUnits p) = [].
Proof.
  unfold executeApproval. destruct (approvalConfig p) as [cfg|]; [|reflexivity].
  destruct (approvalAmount parseUnits cfg); [|reflexivity].
  unfold approvalOnError, optcall. destruct (onApprovalError p); reflexivity.
Qed.

(** ** How actions act on the machine *)

(** Case analysis on one effect body. *)
Ltac effect_cases :=
  unfold useEffect, effectApprovalData, effectTransactionData,
    effectApprovalWriteError, effectTransactionWriteError,
    effectApprovalConfirmError, effectTransactionConfirmError,
    effectApprovalSuccess, effectTransactionSuccess,
    approvalOnError, transactionOnError, executeTransaction, optcall;
  repeat case_match; try reflexivity.

Section Frames.

Variable parseUnits : string -> Z -> Error + Z.
Variable p : UseUniversalTransactionParams.

Lemma apply_actions_app m l1 l2 :
  apply_actions m (l1 ++ l2) = apply_actions (apply_actions m l1) l2.
Proof. apply foldl_app. Qed.

Lemma log_apply_actions m l : log (apply_actions m l) = log m ++ l.
Proof.
  revert m. induction l as [|a l IH]; intros m; cbn.
  - by rewrite app_nil_r.
  - unfold apply_actions in IH. rewrite IH. cbn. by rewrite <- app_assoc.
Qed.

Lemma hook_apply_actions m l :
  hook (apply_actions m l) = foldl setState (hook m) l.
Proof. revert m. induction l as [|a l IH]; intros m; [done|]. apply (IH (apply_action m a)). Qed.

Lemma approvalClient_apply_actions m l :
  approvalClient (apply_actions m l) = foldl onApprovalClient (approvalClient m) l.
Proof. revert m. induction l as [|a l IH]; intros m; [done|]. apply (IH (apply_action m a)). Qed.

Lemma transactionClient_apply_actions m l :
  transactionClient (apply_actions m l)
  = foldl onTransactionClient (transactionClient m) l.
Proof. revert m. induction l as [|a l IH]; intros m; [done|]. apply (IH (apply_action m a)). Qed.

Lemma receipts_apply_actions m l : receipts (apply_actions m l) = receipts m.
Proof. revert m. induction l as [|a l IH]; intros m; [done|]. apply (IH (apply_action m a)). Qed.

Lemma rendered_apply_actions m l : rendered (apply_actions m l) = rendered m.
Proof. revert m. induction l as [|a l IH]; intros m; [done|]. apply (IH (apply_action m a)). Qed.

Lemma submissions_app l1 l2 :
  submissions (l1 ++ l2) = submissions l1 ++ submissions l2.
Proof. apply filter_app. Qed.

Lemma approvals_app l1 l2 : approvals (l1 ++ l2) = approvals l1 ++ approvals l2.
Proof. apply filter_app. Qed.

Lemma log_step m s :
  log (step parseUnits p m s) = log m ++ performed parseUnits p m s.
Proof.
  destruct s; cbn [step performed]; unfold render, settle;
    repeat case_match; rewrite ?log_apply_actions, ?app_nil_r; reflexivity.
Qed.

(** Only the approval-success effect submits the dependent transaction. *)
Lemma submissions_effects prev c ca ct :
  submissions (effects p prev c ca ct) =
    submissions
      (useEffect (differs (isApprovalSuccess prev) (isApprovalSuccess c)
                  || differs (approvalHash (state prev)) (approvalHash (state c)))
         (effectApprovalSuccess p c)).
Proof.
  unfold effects. rewrite !submissions_app.
  replace (submissions (useEffect _ (effectApprovalData c))) with (@nil Action)
    by effect_cases.
  replace (submissions (useEffect _ (effectTransactionData c))) with (@nil Action)
    by effect_cases.
  replace (submissions (useEffect _ (effectApprovalWriteError p c))) with (@nil Action)
    by effect_cases.
  replace (submissions (useEffect _ (effectTransactionWriteError p c))) with (@nil Action)
    by effect_cases.
  replace (submissions (useEffect _ (effectApprovalConfirmError p c))) with (@nil Action)
    by effect_cases.
  replace (submissions (useEffect _ (effectTransactionConfirmError p c))) with (@nil Action)
    by effect_cases.
  replace (submissions (useEffect _ (effectTransactionSuccess p c))) with (@nil Action)
    by effect_cases.
  by rewrite app_nil_r.
Qed.

Lemma submissions_effectApprovalSuccess c :
  submissions (effectApprovalSuccess p c) =
    if truthy (approvalHash (state c)) && isApprovalSuccess c
       && negb (isTransacting (state c))
       && negb (truthy (transactionHash (state c)))
    then [WriteTransaction (transactionRequest (transactionConfig p))]
    else [].
Proof.
  unfold effectApprovalSuccess.
  destruct (approvalHash (state c)); [|reflexivity]. cbn.
  destruct (isApprovalSuccess c), (isTransacting (state c)),
    (transactionHash (state c)); cbn; try reflexivity;
    unfold optcall; destruct (onApprovalSuccess p); reflexivity.
Qed.

(** *** What a render does to the cells and the clients *)

Lemma approvalHash_foldl s l :
  approvalHash (foldl setState s l) = foldl cellApprovalHash (approvalHash s) l.
Proof. revert s. induction l as [|a l IH]; intros s; [done|]. apply (IH (setState s a)). Qed.

Lemma transactionHash_foldl s l :
  transactionHash (foldl setState s l) = foldl cellTransactionHash (transactionHash s) l.
Proof. revert s. induction l as [|a l IH]; intros s; [done|]. apply (IH (setState s a)). Qed.

Lemma approvalError_foldl s l :
  approvalError (foldl setState s l) = foldl cellApprovalError (approvalError s) l.
Proof. revert s. induction l as [|a l IH]; intros s; [done|]. apply (IH (setState s a)). Qed.

(** Drops from a fold the effects that leave the folded cell alone. *)
Ltac drop_frames f :=
  repeat match goal with
  | |- context [foldl f ?x (useEffect ?b ?body)] =>
      let H := fresh "Hframe" in
      assert (H : forall y, foldl f y (useEffect b body) = y)
        by (intros; effect_cases);
      rewrite (H x); clear H
  end.

Lemma render_approvalHash m ca ct :
  approvalHash (hook (render p m ca ct)) =
    match data (approvalClient m) with
    | Some h =>
        if differs (approvalData (rendered m)) (Some h) then Some h
        else approvalHash (hook m)
    | None => approvalHash (hook m)
    end.
Proof.
  unfold render. rewrite hook_apply_actions, approvalHash_foldl.
  unfold effects. rewrite !foldl_app.
  change (hook (withRendered m (closure m))) with (hook m).
  drop_frames cellApprovalHash.
  change (approvalData (closure m)) with (data (approvalClient m)).
  unfold effectApprovalData.
  change (approvalData (closure m)) with (data (approvalClient m)).
  destruct (data (approvalClient m)); [|by destruct (differs _ _)].
  by destruct (differs _ _).
Qed.

Lemma render_transactionHash m ca ct :
  transactionHash (hook (render p m ca ct)) =
    match data (transactionClient m) with
    | Some h =>
        if differs (transactionData (rendered m)) (Some h) then Some h
        else transactionHash (hook m)
    | None => transactionHash (hook m)
    end.
Proof.
  unfold render. rewrite hook_apply_actions, transactionHash_foldl.
  unfold effects. rewrite !foldl_app.
  change (hook (withRendered m (closure m))) with (hook m).
  drop_frames cellTransactionHash.
  unfold effectTransactionData.
  change (transactionData (closure m)) with (data (transactionClient m)).
  destruct (data (transactionClient m)); [|by destruct (differs _ _)].
  by destruct (differs _ _).
Qed.

Lemma render_approvalClient m ca ct :
  approvalClient (render p m ca ct) = approvalClient m.
Proof.
  unfold render. rewrite approvalClient_apply_actions.
  unfold effects. rewrite !foldl_app.
  change (approvalClient (withRendered m (closure m))) with (approvalClient m).
  by drop_frames onApprovalClient.
Qed.

Lemma render_transactionClient m ca ct :
  transactionClient (render p m ca ct) =
    if fires (rendered m) (closure m) then WPending else transactionClient m.
Proof.
  unfold render. rewrite transactionClient_apply_actions.
  unfold effects. rewrite !foldl_app.
  change (transactionClient (withRendered m (closure m))) with (transactionClient m).
  drop_frames onTransactionClient.
  unfold fires, useEffect, effectApprovalSuccess.
  destruct (_ || _); [|reflexivity].
  destruct (approvalHash (state (closure m))); [|reflexivity]. cbn.
  destruct (_ && _ && _); [|reflexivity].
  cbn. unfold optcall. by destruct (onApprovalSuccess p).
Qed.

Lemma render_receipts m ca ct : receipts (render p m ca ct) = receipts m.
Proof. unfold render. by rewrite receipts_apply_actions. Qed.

Lemma render_rendered m ca ct : rendered (render p m ca ct) = closure m.
Proof. unfold render. by rewrite rendered_apply_actions. Qed.

Lemma render_submissions m ca ct :
  submissions (effects p (rendered m) (closure m) ca ct) =
    if fires (rendered m) (closure m)
    then [WriteTransaction (transactionRequest (transactionConfig p))]
    else [].
Proof.
  rewrite submissions_effects. unfold fires, useEffect.
  destruct (_ || _); [|reflexivity].
  rewrite submissions_effectApprovalSuccess. cbn. reflexivity.
Qed.

Lemma render_approvalError m ca ct :
  approvalError (hook (render p m ca ct)) =
    foldl cellApprovalError
      (foldl cellApprovalError (approvalError (hook m))
         (useEffect
            (differs (approvalWriteError (rendered m)) (error (approvalClient m)) || ca)
            (effectApprovalWriteError p (closure m))))
      (useEffect
         (differs (approvalConfirmError (rendered m))
            (approvalConfirmError (closure m)) || ca)
         (effectApprovalConfirmError p (closure m))).
Proof.
  unfold render. rewrite hook_apply_actions, approvalError_foldl.
  unfold effects. rewrite !foldl_app.
  change (hook (withRendered m (closure m))) with (hook m).
  drop_frames cellApprovalError. reflexivity.
Qed.

Lemma approvalOnError_sets x e :
  foldl cellApprovalError x (approvalOnError p e) = Some e.
Proof. unfold approvalOnError, optcall. by destruct (onApprovalError p). Qed.

Lemma approvalOnError_calls e :
  onApprovalError p = true -> In (OnApprovalError e) (approvalOnError p e).
Proof. intros Hcb. unfold approvalOnError, optcall. rewrite Hcb. cbn. tauto. Qed.

(** No effect calls the approval write primitive. *)
Lemma approvals_effects prev c ca ct : approvals (effects p prev c ca ct) = [].
Proof.
  unfold effects. rewrite !approvals_app.
  replace (approvals (useEffect _ (effectApprovalData c))) with (@nil Action)
    by effect_cases.
  replace (approvals (useEffect _ (effectTransactionData c))) with (@nil Action)
    by effect_cases.
  replace (approvals (useEffect _ (effectApprovalWriteError p c))) with (@nil Action)
    by effect_cases.
  replace (approvals (useEffect _ (effectTransactionWriteError p c))) with (@nil Action)
    by effect_cases.
  replace (approvals (useEffect _ (effectApprovalConfirmError p c))) with (@nil Action)
    by effect_cases.
  replace (approvals (useEffect _ (effectTransactionConfirmError p c))) with (@nil Action)
    by effect_cases.
  replace (approvals (useEffect _ (effectApprovalSuccess p c))) with (@nil Action)
    by effect_cases.
  replace (approvals (useEffect _ (effectTransactionSuccess p c))) with (@nil Action)
    by effect_cases.
  reflexivity.
Qed.

Lemma approvals_performed m s :
  approvalConfig p = None -> approvals (performed parseUnits p m s) = [].
Proof.
  intros Hcfg. destruct s; cbn [performed]; try reflexivity.
  - unfold execute. by rewrite Hcfg.
  - unfold approvalOnError, optcall.
    by destruct (approvalClient m), (onApprovalError p).
  - unfold transactionOnError, optcall.
    by destruct (transactionClient m), (onTransactionError p).
  - apply approvals_effects.
Qed.

Lemma approvals_run m l :
  approvalConfig p = None ->
  approvals (log (run parseUnits p m l)) = approvals (log m).
Proof.
  intros Hcfg. revert m. induction l as [|s l IH]; intros m; [done|].
  cbn [run foldl]. unfold run in IH. rewrite IH, log_step, approvals_app.
  by rewrite approvals_performed, app_nil_r.
Qed.

(** At mount every effect runs once; with nothing submitted and nothing
    settled none of them does anything. *)
Lemma mount_effects_idle :
  effectApprovalData initialClosure
  ++ effectTransactionData initialClosure
  ++ effectApprovalWriteError p initialClosure
  ++ effectTransactionWriteError p initialClosure
  ++ effectApprovalConfirmError p initialClosure
  ++ effectTransactionConfirmError p initialClosure
  ++ effectApprovalSuccess p initialClosure
  ++ effectTransactionSuccess p initialClosure = []
  /\ closure mounted = initialClosure.
Proof. split; reflexivity. Qed.

End Frames.

(** ** The approval comes first *)

Section Sequencing.

Variable parseUnits : string -> Z -> Error + Z.
Variable p : UseUniversalTransactionParams.

Lemma isApprovalSuccess_closure m :
  isApprovalSuccess (closure m) = true <-> approval_confirmed m.
Proof.
  unfold approval_confirmed, closure, useWaitForTransactionReceipt. cbn.
  destruct (approvalHash (hook m)) as [h|].
  - destruct (receipts m !! h) as [[|e]|] eqn:Hr; cbn; split;
      try discriminate; try (intros (h' & [= <-] & Hc); congruence).
    intros _. eauto.
  - cbn. split; [discriminate | intros (h & [=] & _)].
Qed.

Lemma fires_confirmed m :
  fires (rendered m) (closure m) = true -> approval_confirmed m.
Proof.
  unfold fires. rewrite !andb_true_iff. intros (_ & ((_ & H) & _) & _).
  by apply isApprovalSuccess_closure.
Qed.

Lemma render_keeps_approvalHash m ca ct h :
  approval_hash_follows_client m ->
  approvalHash (hook m) = Some h ->
  approvalHash (hook (render p m ca ct)) = Some h.
Proof.
  intros H1 Hh. rewrite render_approvalHash. rewrite (H1 h Hh). cbn.
  by destruct (differs _ _).
Qed.

Lemma render_keeps_confirmed m ca ct :
  approval_hash_follows_client m ->
  approval_confirmed m -> approval_confirmed (render p m ca ct).
Proof.
  intros Hf (h & Hh & Hc). exists h. split.
  - by apply render_keeps_approvalHash.
  - by rewrite render_receipts.
Qed.

Lemma approval_hash_follows_client_step m s :
  approval_hash_follows_client m ->
  approval_hash_follows_client (step parseUnits p m s).
Proof.
  intros H1. destruct s; cbn [step].
  - unfold approval_hash_follows_client.
    rewrite hook_apply_actions, approvalHash_foldl.
    unfold execute, executeApproval, executeTransaction, approvalOnError, optcall.
    repeat case_match; cbn; intros ?; discriminate.
  - unfold approval_hash_follows_client.
    rewrite hook_apply_actions, approvalHash_foldl.
    cbn. intros ?; discriminate.
  - destruct (approvalClient m) eqn:Hc; try assumption.
    intros h' Hh'. apply H1 in Hh'. congruence.
  - destruct (approvalClient m) eqn:Hc; try assumption.
    unfold approval_hash_follows_client.
    rewrite hook_apply_actions, approvalHash_foldl, approvalClient_apply_actions.
    unfold approvalOnError, optcall. destruct (onApprovalError p); cbn;
      intros h' Hh'; apply H1 in Hh'; congruence.
  - destruct (transactionClient m) eqn:Hc; assumption.
  - destruct (transactionClient m) eqn:Hc; try assumption.
    unfold approval_hash_follows_client.
    rewrite hook_apply_actions, approvalHash_foldl, approvalClient_apply_actions.
    unfold transactionOnError, optcall. destruct (onTransactionError p); cbn;
      exact H1.
  - destruct (receipts m !! h); assumption.
  - destruct (receipts m !! h); assumption.
  - intros h Hh.
    rewrite render_approvalClient. rewrite render_approvalHash in Hh.
    destruct (approvalClient m) eqn:Hc; cbn in Hh; try (apply H1 in Hh; congruence).
    destruct (differs _ _); [congruence|]. apply H1 in Hh. congruence.
Qed.

Lemma approval_confirmed_same m m' :
  approvalHash (hook m') = approvalHash (hook m) ->
  receipts m' = receipts m ->
  approval_confirmed m -> approval_confirmed m'.
Proof. intros Hh Hr (h & H1 & H2). exists h. by rewrite Hh, Hr. Qed.

Lemma approval_confirmed_settle m h o :
  receipts m !! h = None ->
  approval_confirmed m -> approval_confirmed (settle m h o).
Proof.
  intros Hn (h' & H1 & H2). exists h'. split; [exact H1|]. cbn.
  rewrite lookup_insert_ne; [exact H2|]. intros ->. congruence.
Qed.

(** Only [execute] reads [approvalConfig]: any other step keeps the order,
    whatever its props. *)
Lemma sequenced_kept m s :
  (s = UserExecute -> is_Some (approvalConfig p)) ->
  sequenced m -> sequenced (step parseUnits p m s).
Proof.
  intros Hx (H1 & HJ & HJ').
  split; [by apply approval_hash_follows_client_step|].
  destruct s; cbn [step].
  - destruct (Hx eq_refl) as [cfg Hcfg].
    rewrite transactionClient_apply_actions, hook_apply_actions, transactionHash_foldl.
    unfold execute, executeApproval, approvalOnError, optcall. rewrite Hcfg.
    repeat case_match; cbn; (split; [congruence | intros [? ?]; discriminate]).
  - rewrite transactionClient_apply_actions, hook_apply_actions, transactionHash_foldl.
    cbn. split; [congruence | intros [? ?]; discriminate].
  - destruct (approvalClient m); split; assumption.
  - destruct (approvalClient m); try (split; assumption).
    rewrite transactionClient_apply_actions, hook_apply_actions, transactionHash_foldl.
    assert (Hsame : forall m0, approval_confirmed m ->
      approval_confirmed
        (apply_actions (withApprovalClient m m0) (approvalOnError p e))).
    { intros m0. apply approval_confirmed_same.
      - rewrite hook_apply_actions, approvalHash_foldl.
        unfold approvalOnError, optcall. by destruct (onApprovalError p).
      - by rewrite receipts_apply_actions. }
    unfold approvalOnError, optcall in *.
    destruct (onApprovalError p); cbn in *; split; intros H; apply Hsame; auto.
  - destruct (transactionClient m) eqn:Hc; try (rewrite ?Hc; split; assumption).
    assert (Hm : approval_confirmed m) by (apply HJ; congruence).
    split; intros _; apply (approval_confirmed_same m); auto.
  - destruct (transactionClient m) eqn:Hc; try (rewrite ?Hc; split; assumption).
    assert (Hm : approval_confirmed m) by (apply HJ; congruence).
    split; intros _; (apply (approval_confirmed_same m); [| |exact Hm]);
      rewrite ?hook_apply_actions, ?approvalHash_foldl, ?receipts_apply_actions;
      unfold transactionOnError, optcall; by destruct (onTransactionError p).
  - destruct (receipts m !! h) eqn:Hr; try (split; assumption).
    split; intros H; apply approval_confirmed_settle; auto.
  - destruct (receipts m !! h) eqn:Hr; try (split; assumption).
    split; intros H; apply approval_confirmed_settle; auto.
  - split.
    + rewrite render_transactionClient. intros H.
      apply render_keeps_confirmed; [exact H1|].
      destruct (fires (rendered m) (closure m)) eqn:Hf.
      * by apply fires_confirmed.
      * by apply HJ.
    + rewrite render_transactionHash. intros H.
      apply render_keeps_confirmed; [exact H1|].
      destruct (transactionClient m) eqn:Hc; cbn in H; try (by apply HJ').
      destruct (differs _ _); [|by apply HJ'].
      apply HJ. congruence.
Qed.

Lemma sequenced_step m s :
  is_Some (approvalConfig p) ->
  sequenced m -> sequenced (step parseUnits p m s).
Proof. intros Hcfg. apply sequenced_kept. intros _. exact Hcfg. Qed.

Lemma sequenced_mounted : sequenced mounted.
Proof.
  split; [intros h; discriminate|]. split.
  - intros H. by destruct H.
  - intros [x Hx]. discriminate.
Qed.

Lemma sequenced_run m l :
  is_Some (approvalConfig p) ->
  sequenced m -> sequenced (run parseUnits p m l).
Proof.
  intros Hcfg. revert m. induction l as [|s l IH]; intros m Hm; [exact Hm|].
  apply (IH (step parseUnits p m s)). by apply sequenced_step.
Qed.

(** With an approval configured, a step that submits the dependent
    transaction is a render that sees the approval confirmed. *)
Lemma submitting_step m s :
  is_Some (approvalConfig p) ->
  submissions (performed parseUnits p m s) <> [] ->
  (exists ca ct, s = Render ca ct) /\ fires (rendered m) (closure m) = true.
Proof.
  intros [cfg Hcfg] Hs. destruct s; cbn [performed] in Hs.
  - exfalso. apply Hs. unfold execute. rewrite Hcfg, submissions_app.
    by rewrite executeApproval_no_submission.
  - by destruct Hs.
  - by destruct Hs.
  - exfalso. apply Hs. unfold approvalOnError, optcall.
    by destruct (approvalClient m), (onApprovalError p).
  - by destruct Hs.
  - exfalso. apply Hs. unfold transactionOnError, optcall.
    by destruct (transactionClient m), (onTransactionError p).
  - by destruct Hs.
  - by destruct Hs.
  - split; [eauto|]. rewrite render_submissions in Hs.
    by destruct (fires (rendered m) (closure m)).
Qed.

Lemma log_trace m l :
  log (run parseUnits p m l) = log m ++ trace parseUnits p m l.
Proof.
  revert m. induction l as [|s l IH]; intros m; cbn.
  - by rewrite app_nil_r.
  - unfold run in IH. rewrite IH, log_step. by rewrite app_assoc.
Qed.

Lemma since_trace m l :
  drop (length (log m)) (log (run parseUnits p m l)) = trace parseUnits p m l.
Proof. rewrite log_trace. by rewrite drop_app_length. Qed.

Lemma trace_app m l1 l2 :
  trace parseUnits p m (l1 ++ l2) =
    trace parseUnits p m l1 ++ trace parseUnits p (run parseUnits p m l1) l2.
Proof.
  revert m. induction l1 as [|s l1 IH]; intros m; [done|].
  cbn. rewrite IH. by rewrite app_assoc.
Qed.

End Sequencing.

(** C1: with an approval configured, at every point of every run of the
    mounted hook, a step that calls the transaction write primitive is a
    render in which the approval hash is set and [isApprovalSuccess] is true
    (the receipt of that hash is in, confirmed); and the hook waits on a
    transaction hash only in such a state. *)
Theorem submission_after_confirmation parseUnits p l s :
  is_Some (approvalConfig p) ->
  let m := run parseUnits p mounted l in
  (submissions (log (step parseUnits p m s)) <> submissions (log m) ->
     (exists ca ct, s = Render ca ct) /\
     exists h, approvalHash (hook m) = Some h /\
       isApprovalSuccess (closure m) = true /\
       receipts m !! h = Some Confirmed) /\
  (is_Some (transactionHash (hook m)) \/ isTransactionConfirming (closure m) = true ->
     exists h, approvalHash (hook m) = Some h /\
       isApprovalSuccess (closure m) = true /\
       receipts m !! h = Some Confirmed).
Proof.
  intros Hcfg m.
  assert (Hseq : sequenced m) by (apply sequenced_run; [exact Hcfg | apply sequenced_mounted]).
  assert (Hconf : approval_confirmed m ->
    exists h, approvalHash (hook m) = Some h /\
      isApprovalSuccess (closure m) = true /\ receipts m !! h = Some Confirmed).
  { intros Hc. pose proof Hc as (h & Hh & Hr). exists h.
    repeat split; try assumption. by apply isApprovalSuccess_closure. }
  split.
  - intros Hs. rewrite log_step, submissions_app in Hs.
    assert (Hne : submissions (performed parseUnits p m s) <> []).
    { intros Hnil. apply Hs. by rewrite Hnil, app_nil_r. }
    destruct (submitting_step parseUnits p m s Hcfg Hne) as [Hr Hf].
    split; [exact Hr|]. apply Hconf. by apply fires_confirmed.
  - intros [Hh | Hw]; apply Hconf.
    + by apply Hseq.
    + apply Hseq. unfold closure, useWaitForTransactionReceipt in Hw. cbn in Hw.
      destruct (transactionHash (hook m)); [eauto | discriminate].
Qed.

Lemma submission_after_confirmation_witness :
  is_Some (approvalConfig sampleParams) /\
  let m := run sampleParseUnits sampleParams mounted
             [UserExecute; ApprovalWriteOk (Hex "a1"); Render false false;
              ReceiptOk (Hex "a1")] in
  submissions (log (step sampleParseUnits sampleParams m (Render false false)))
    <> submissions (log m) /\
  exists h, approvalHash (hook m) = Some h /\
    isApprovalSuccess (closure m) = true /\
    receipts m !! h = Some Confirmed.
Proof.
  split; [eexists; reflexivity|]. split; [vm_compute; discriminate|].
  destruct (submission_after_confirmation sampleParseUnits sampleParams
              [UserExecute; ApprovalWriteOk (Hex "a1"); Render false false;
               ReceiptOk (Hex "a1")] (Render false false)) as [H _].
  - eexists; reflexivity.
  - apply H. vm_compute. discriminate.
Defined.

(** C8: [execute] starts with eight clearing statements, the same ones
    [reset] consists of: whatever the state, after them the six cells hold
    their initial values and both write clients are idle, and none of them
    submits anything; what [execute] submits comes after them.  [reset] does
    this clearing and nothing else. *)
Theorem execute_clears_first parseUnits p m :
  let clearing := take 8 (execute parseUnits p) in
  let cleared := apply_actions m clearing in
  let afterReset := step parseUnits p m UserReset in
  (execute parseUnits p =
     clearing ++ match approvalConfig p with
                 | Some _ => executeApproval parseUnits p
                 | None => executeTransaction p
                 end) /\
  clearing ≡ₚ reset /\
  (approvals clearing = [] /\ submissions clearing = []) /\
  (hook cleared = initialState /\
   approvalClient cleared = WIdle /\ transactionClient cleared = WIdle) /\
  (hook afterReset = initialState /\
   approvalClient afterReset = WIdle /\ transactionClient afterReset = WIdle) /\
  log afterReset = log m ++ reset /\
  (approvals reset = [] /\ submissions reset = []).
Proof.
  cbn zeta. split; [apply execute_unfold|].
  split.
  { change (take 8 (execute parseUnits p)) with
      ([SetApprovalHash None; SetTransactionHash None]
       ++ [SetApprovalError None; SetTransactionError None]
       ++ [SetIsApproving false; SetIsTransacting false]
       ++ [ResetApproval; ResetTransaction]).
    change reset with
      ([SetApprovalHash None; SetTransactionHash None]
       ++ [SetIsApproving false; SetIsTransacting false]
       ++ [SetApprovalError None; SetTransactionError None]
       ++ [ResetApproval; ResetTransaction]).
    apply Permutation_app_head. rewrite !app_assoc.
    apply Permutation_app_tail, Permutation_app_comm. }
  split; [split; reflexivity|].
  split; [repeat split|].
  split; [repeat split|].
  split; [apply log_step|].
  split; reflexivity.
Qed.

(** ** The read hook *)

(** C7: [useUniversalReadContract] is the read primitive applied to the
    given parameters, with [[]], the default address, the default ABI,
    [true] and [false] put in for [args], [address], [abi], [enabled] and
    [watch] left out and [chainId] passed as it is, and it returns the
    primitive's seven fields as they are. *)
Theorem useUniversalReadContract_delegates {T Refetch Rest : Type}
    (DEFAULT_CONTRACT_ADDRESS : Address) (DEFAULT_CONTRACT_ABI : Abi)
    (useReadContract : Read.Query.Parameters -> Read.Query.Result T Refetch Rest)
    (params : Read.UseUniversalReadContractParams) :
  let q :=
    {| Read.Query.address :=
         match Read.address params with
         | Some a => a
         | None => DEFAULT_CONTRACT_ADDRESS
         end;
       Read.Query.abi :=
         match Read.abi params with Some a => a | None => DEFAULT_CONTRACT_ABI end;
       Read.Query.functionName := Read.functionName params;
       Read.Query.args := match Read.args params with Some a => a | None => [] end;
       Read.Query.query :=
         {| Read.Query.enabled :=
              match Read.enabled params with Some b => b | None => true end |};
       Read.Query.watch :=
         match Read.watch params with Some b => b | None => false end;
       Read.Query.chainId := Read.chainId params |} in
  let r := useReadContract q in
  let ret :=
    Read.useUniversalReadContract DEFAULT_CONTRACT_ADDRESS DEFAULT_CONTRACT_ABI
      useReadContract params in
  ret = Read.readDelegateSpec DEFAULT_CONTRACT_ADDRESS DEFAULT_CONTRACT_ABI
          useReadContract params /\
  Read.data
    (Read.useUniversalReadContract DEFAULT_CONTRACT_ADDRESS DEFAULT_CONTRACT_ABI
       Read.echo params) = Some q /\
  (Read.data ret = Read.Query.data r /\
   Read.isLoading ret = Read.Query.isLoading r /\
   Read.isError ret = Read.Query.isError r /\
   Read.error ret = Read.Query.error r /\
   Read.refetch ret = Read.Query.refetch r /\
   Read.isSuccess ret = Read.Query.isSuccess r /\
   Read.isFetching ret = Read.Query.isFetching r).
Proof.
  cbn zeta. split.
  - unfold Read.useUniversalReadContract, Read.readDelegateSpec, Read.reshape,
      Read.forwarded.
    destruct (Read.args params), (Read.address params), (Read.abi params),
      (Read.enabled params), (Read.watch params); reflexivity.
  - split; [reflexivity|]. repeat split.
Qed.

(** ** The first submission of an execution *)

Section Once.

Variable parseUnits : string -> Z -> Error + Z.
Variable p : UseUniversalTransactionParams.

Lemma fires_guard m :
  fires (rendered m) (closure m) = true ->
  (isApprovalSuccess (rendered m) <> isApprovalSuccess (closure m) \/
   approvalHash (state (rendered m)) <> approvalHash (hook m)) /\
  isTransacting (hook m) = false /\ transactionHash (hook m) = None.
Proof.
  unfold fires, differs. rewrite !andb_true_iff, orb_true_iff, !negb_true_iff.
  rewrite !bool_decide_eq_false. cbn.
  intros (Hd & ((_ & _) & Ht) & Hh). repeat split; try assumption.
  by destruct (transactionHash (hook m)).
Qed.

Lemma no_submission_unless_render m s :
  s <> UserExecute ->
  (forall ca ct, s <> Render ca ct) ->
  submissions (performed parseUnits p m s) = [].
Proof.
  intros Hx Hr. destruct s; cbn [performed]; try reflexivity.
  - by destruct Hx.
  - unfold approvalOnError, optcall.
    by destruct (approvalClient m), (onApprovalError p).
  - unfold transactionOnError, optcall.
    by destruct (transactionClient m), (onTransactionError p).
  - by destruct (Hr ca ct).
Qed.

(** The approval side of the machine after a step that is not a render and
    not [execute]. *)
Lemma approval_side_step m s :
  s <> UserExecute -> s <> UserReset ->
  (forall ca ct, s <> Render ca ct) ->
  approvalHash (hook (step parseUnits p m s)) = approvalHash (hook m) /\
  rendered (step parseUnits p m s) = rendered m /\
  (approvalClient m <> WPending ->
   approvalClient (step parseUnits p m s) = approvalClient m) /\
  (forall h o, receipts m !! h = Some o ->
     receipts (step parseUnits p m s) !! h = Some o).
Proof.
  intros Hx Hre Hr. destruct s; cbn [step];
    try (by destruct Hx); try (by destruct Hre); try (by destruct (Hr ca ct)).
  - destruct (approvalClient m) eqn:Hc; repeat split; try done.
  - destruct (approvalClient m) eqn:Hc; try (repeat split; done).
    rewrite hook_apply_actions, approvalHash_foldl, rendered_apply_actions,
      approvalClient_apply_actions, receipts_apply_actions.
    unfold approvalOnError, optcall.
    destruct (onApprovalError p); repeat split; done.
  - destruct (transactionClient m); repeat split; done.
  - destruct (transactionClient m) eqn:Hc; try (repeat split; done).
    rewrite hook_apply_actions, approvalHash_foldl, rendered_apply_actions,
      approvalClient_apply_actions, receipts_apply_actions.
    unfold transactionOnError, optcall.
    destruct (onTransactionError p); repeat split; done.
  - destruct (receipts m !! h) eqn:Hn; repeat split; try done.
    intros h' o Ho. cbn. rewrite lookup_insert_ne; [done|]. congruence.
  - destruct (receipts m !! h) eqn:Hn; repeat split; try done.
    intros h' o Ho. cbn. rewrite lookup_insert_ne; [done|]. congruence.
Qed.

Lemma spent_step m s :
  s <> UserExecute ->
  spent m ->
  spent (step parseUnits p m s) /\ submissions (performed parseUnits p m s) = [].
Proof.
  intros Hx Hsp.
  destruct s as [| | | | | | | |ca ct]; try (by destruct Hx).
  { split; [|reflexivity]. right. by split. }
  all: try (split; [|by apply no_submission_unless_render];
    match goal with |- spent (step _ _ _ ?s) =>
      destruct (approval_side_step m s) as (Hh & Hrd & Hc & Hrc); try done
    end;
    destruct Hsp as [(h0 & H1 & H2 & H3 & H4 & H5)|[H1 H2]];
    [ left; exists h0; rewrite Hh, Hrd, Hc by congruence; eauto 10
    | right; rewrite Hh, Hc by congruence; eauto ]).
  cbn [step performed]. rewrite render_submissions.
  destruct Hsp as [(h0 & H1 & H2 & H3 & H4 & H5)|[H1 H2]].
  - assert (Hs : isApprovalSuccess (closure m) = true).
    { apply isApprovalSuccess_closure. exists h0. by split. }
    assert (Hf : fires (rendered m) (closure m) = false).
    { destruct (fires (rendered m) (closure m)) eqn:Hf; [|done].
      apply fires_guard in Hf as ([Hd|Hd] & _); congruence. }
    rewrite Hf. split; [|done]. left. exists h0.
    rewrite render_approvalHash, render_approvalClient, render_receipts,
      render_rendered, H2. cbn. rewrite H1.
    repeat split; try done; [by destruct (differs _ _)|].
    unfold useWaitForTransactionReceipt. by rewrite H3.
  - assert (Hf : fires (rendered m) (closure m) = false).
    { unfold fires. cbn. rewrite H2. cbn. by rewrite andb_false_r. }
    rewrite Hf. split; [|done]. right.
    rewrite render_approvalHash, render_approvalClient, H1. by split.
Qed.

Lemma spent_run m l :
  Forall (fun s => s <> UserExecute) l ->
  spent m ->
  submissions (trace parseUnits p m l) = [].
Proof.
  revert m. induction l as [|s l IH]; intros m Hl Hsp; [done|].
  inversion Hl as [|? ? Hs Hl']; subst.
  destruct (spent_step m s Hs Hsp) as [Hsp' Hnil].
  cbn. rewrite submissions_app, Hnil. by apply IH.
Qed.

(** Before the submission: a step submits nothing, or it submits once and
    leaves the machine [spent]. *)
Lemma first_submission_step m s :
  s <> UserExecute ->
  approval_hash_follows_client m ->
  submissions (performed parseUnits p m s) = [] \/
  (length (submissions (performed parseUnits p m s)) = 1%nat /\
   spent (step parseUnits p m s)).
Proof.
  intros Hx H1.
  destruct s as [| | | | | | | |ca ct];
    try (left; apply no_submission_unless_render; done).
  cbn [step performed]. rewrite render_submissions.
  destruct (fires (rendered m) (closure m)) eqn:Hf; [right|by left].
  split; [done|]. left.
  pose proof (fires_confirmed m Hf) as (h & Hh & Hc).
  exists h. rewrite render_approvalClient, render_receipts, render_rendered.
  repeat split.
  - by apply render_keeps_approvalHash.
  - by apply H1.
  - done.
  - apply isApprovalSuccess_closure. exists h. by split.
  - done.
Qed.

End Once.

Lemma execute_approvalHash parseUnits p m :
  approvalHash (hook (step parseUnits p m UserExecute)) = None.
Proof.
  cbn [step]. rewrite hook_apply_actions, approvalHash_foldl.
  unfold execute, executeApproval, executeTransaction, approvalOnError, optcall.
  repeat case_match; reflexivity.
Qed.

Lemma execute_direct_spent parseUnits p m :
  approvalConfig p = None -> spent (step parseUnits p m UserExecute).
Proof.
  intros Hcfg. right. split; [|apply execute_approvalHash].
  cbn [step]. rewrite approvalClient_apply_actions. unfold execute.
  by rewrite Hcfg.
Qed.

(** ** A failed approval stops the flow *)

Section Failure.

Variable parseUnits : string -> Z -> Error + Z.
Variable p : UseUniversalTransactionParams.

Lemma approval_hash_follows_client_run m l :
  approval_hash_follows_client m ->
  approval_hash_follows_client (run parseUnits p m l).
Proof.
  revert m. induction l as [|s l IH]; intros m Hm; [exact Hm|].
  apply (IH (step parseUnits p m s)). by apply approval_hash_follows_client_step.
Qed.

Lemma spent_run_end m l :
  Forall (fun s => s <> UserExecute) l ->
  spent m -> spent (run parseUnits p m l).
Proof.
  revert m. induction l as [|s l IH]; intros m Hl Hsp; [exact Hsp|].
  inversion Hl as [|? ? Hs Hl']; subst.
  apply (IH (step parseUnits p m s)); [done|]. by apply spent_step.
Qed.

(** Up to the submission: nothing submitted yet, or the machine is spent. *)
Lemma before_submission_run m l :
  Forall (fun s => s <> UserExecute) l ->
  approval_hash_follows_client m ->
  submissions (trace parseUnits p m l) = [] \/ spent (run parseUnits p m l).
Proof.
  revert m. induction l as [|s l IH]; intros m Hl H1; [by left|].
  inversion Hl as [|? ? Hs Hl']; subst. cbn.
  destruct (first_submission_step parseUnits p m s Hs H1) as [Hnil|[_ Hsp]].
  - rewrite submissions_app, Hnil. cbn.
    apply (IH (step parseUnits p m s)); [done|].
    by apply approval_hash_follows_client_step.
  - right. by apply spent_run_end.
Qed.

Lemma approval_fails_not_spent m f e :
  approval_fails m f e -> ~ spent m.
Proof.
  intros [[_ Hp]|(h & _ & Hh & Hn)] [(h0 & H1 & H2 & H3 & _)|[H1 H2]]; congruence.
Qed.

Lemma doomed_not_fires m :
  doomed m -> fires (rendered m) (closure m) = false.
Proof.
  intros (H1 & _ & Hd).
  destruct (fires (rendered m) (closure m)) eqn:Hf; [exfalso|done].
  apply fires_confirmed in Hf as (h & Hh & Hc).
  destruct (Hd h (H1 h Hh)) as [e He]. congruence.
Qed.

Lemma doomed_step m s :
  s <> UserExecute ->
  doomed m ->
  doomed (step parseUnits p m s) /\ submissions (performed parseUnits p m s) = [].
Proof.
  intros Hx Hd. pose proof Hd as (H1 & Hp & Hf).
  split.
  - split; [by apply approval_hash_follows_client_step|].
    destruct s as [| | | | | | | |ca ct]; try (by destruct Hx).
    { by split. }
    all: try (match goal with |- context [step _ _ _ ?s] =>
        destruct (approval_side_step parseUnits p m s) as (_ & _ & Hc & Hrc); try done
      end;
      rewrite (Hc Hp); split; [done|];
      let h' := fresh "h" in let Hh' := fresh "Hh" in
      let e' := fresh "e" in let He' := fresh "He" in
      intros h' Hh'; destruct (Hf h' Hh') as [e' He']; exists e'; by apply Hrc).
    cbn [step]. rewrite render_approvalClient, render_receipts. by split.
  - destruct s as [| | | | | | | |ca ct];
      try (apply no_submission_unless_render; done).
    cbn [performed]. rewrite render_submissions. by rewrite doomed_not_fires.
Qed.

Lemma doomed_run m l :
  Forall (fun s => s <> UserExecute) l ->
  doomed m ->
  submissions (trace parseUnits p m l) = [].
Proof.
  revert m. induction l as [|s l IH]; intros m Hl Hd; [done|].
  inversion Hl as [|? ? Hs Hl']; subst.
  destruct (doomed_step m s Hs Hd) as [Hd' Hnil].
  cbn. rewrite submissions_app, Hnil. by apply IH.
Qed.

Lemma failure_dooms m f e :
  approval_hash_follows_client m ->
  approval_fails m f e ->
  doomed (step parseUnits p m f) /\ submissions (performed parseUnits p m f) = [].
Proof.
  intros H1 Hf.
  assert (Hx : f <> UserExecute) by (destruct Hf as [[-> _]|(h & -> & _)]; done).
  split.
  - split; [by apply approval_hash_follows_client_step|].
    destruct Hf as [[-> Hp]|(h & -> & Hh & Hn)]; cbn [step].
    + rewrite Hp, approvalClient_apply_actions.
      unfold approvalOnError, optcall.
      destruct (onApprovalError p); cbn; (split; [done|intros ? ?; discriminate]).
    + rewrite Hn. cbn. rewrite (H1 h Hh). split; [done|].
      intros h' [= <-]. exists e. apply lookup_insert_eq.
  - apply no_submission_unless_render; [done|].
    intros ca ct. destruct Hf as [[-> _]|(h & -> & _)]; done.
Qed.

(** *** The failure reaches [approvalError] *)

Lemma confirmError_unset m :
  approvalHash (hook m) = None -> approvalConfirmError (closure m) = None.
Proof. intros H. cbn. by rewrite H. Qed.

Lemma confirmError_unsettled m h :
  approvalHash (hook m) = Some h -> receipts m !! h = None ->
  approvalConfirmError (closure m) = None.
Proof. intros H Hn. cbn. rewrite H. cbn. by rewrite Hn. Qed.

Lemma confirmError_failed m h e :
  approvalHash (hook m) = Some h -> receipts m !! h = Some (Failed e) ->
  approvalConfirmError (closure m) = Some e.
Proof. intros H Hn. cbn. rewrite H. cbn. by rewrite Hn. Qed.

(** A step that leaves the approval hash and the last closure alone and
    only adds receipts keeps the hook waiting as it was. *)
Lemma awaiting_side m s :
  s <> UserExecute -> s <> UserReset ->
  (forall ca ct, s <> Render ca ct) ->
  awaiting m -> awaiting (step parseUnits p m s).
Proof.
  intros Hx Hre Hr Ha.
  destruct (approval_side_step parseUnits p m s) as (Hh & Hrd & _ & Hrc);
    try done.
  intros h' Hh' Hn. rewrite Hrd. apply (Ha h'); [by rewrite <- Hh|].
  destruct (receipts m !! h') as [o|] eqn:Ho; [|done].
  apply Hrc in Ho. congruence.
Qed.

Lemma awaiting_step m s :
  approval_hash_follows_client m ->
  awaiting m -> awaiting (step parseUnits p m s).
Proof.
  intros H1 Ha.
  destruct s as [| | | | | | | |ca ct].
  - intros h Hh. by rewrite execute_approvalHash in Hh.
  - intros h Hh. discriminate.
  - by apply awaiting_side.
  - by apply awaiting_side.
  - by apply awaiting_side.
  - by apply awaiting_side.
  - by apply awaiting_side.
  - by apply awaiting_side.
  - intros h Hh Hn. cbn [step] in *.
    rewrite render_rendered. rewrite render_receipts in Hn.
    destruct (approvalHash (hook m)) as [h0|] eqn:H0.
    + rewrite (render_keeps_approvalHash p m ca ct h0 H1 H0) in Hh.
      injection Hh as ->. by apply (confirmError_unsettled m h).
    + by apply confirmError_unset.
Qed.

Lemma awaiting_run m l :
  approval_hash_follows_client m ->
  awaiting m -> awaiting (run parseUnits p m l).
Proof.
  revert m. induction l as [|s l IH]; intros m H1 Ha; [exact Ha|].
  apply (IH (step parseUnits p m s)).
  - by apply approval_hash_follows_client_step.
  - by apply awaiting_step.
Qed.

Lemma exposed_step e m s :
  s <> UserExecute -> s <> UserReset ->
  exposed e m -> exposed e (step parseUnits p m s).
Proof.
  intros Hx Hre Hexp. pose proof Hexp as [He Hside].
  assert (Hp : approvalClient m <> WPending)
    by (destruct Hside as [[Hw _]|(h0 & _ & Hw & _)]; congruence).
  destruct s as [| | | | | | | |ca ct]; try done.
  - cbn [step]. destruct (approvalClient m) eqn:Hc; first [congruence | exact Hexp].
  - cbn [step]. destruct (approvalClient m) eqn:Hc; first [congruence | exact Hexp].
  - cbn [step]. destruct (transactionClient m); exact Hexp.
  - destruct (approval_side_step parseUnits p m (TransactionWriteFail e0))
      as (Hh & _ & Hc & Hrc); try done.
    split.
    + cbn [step]. destruct (transactionClient m); try done.
      rewrite hook_apply_actions, approvalError_foldl.
      unfold transactionOnError, optcall. by destruct (onTransactionError p).
    + rewrite Hh, (Hc Hp). destruct Hside as [?|(h0 & ? & ? & ?)]; [by left|].
      right. exists h0. repeat split; try done. by apply Hrc.
  - destruct (approval_side_step parseUnits p m (ReceiptOk h))
      as (Hh & _ & Hc & Hrc); try done.
    split.
    + cbn [step]. by destruct (receipts m !! h).
    + rewrite Hh, (Hc Hp). destruct Hside as [?|(h0 & ? & ? & ?)]; [by left|].
      right. exists h0. repeat split; try done. by apply Hrc.
  - destruct (approval_side_step parseUnits p m (ReceiptFail h e0))
      as (Hh & _ & Hc & Hrc); try done.
    split.
    + cbn [step]. by destruct (receipts m !! h).
    + rewrite Hh, (Hc Hp). destruct Hside as [?|(h0 & ? & ? & ?)]; [by left|].
      right. exists h0. repeat split; try done. by apply Hrc.
  - cbn [step]. split.
    + rewrite render_approvalError.
      destruct Hside as [[Hc Hh]|(h0 & Hh & Hc & Hr)].
      * rewrite (confirmError_unset m Hh), Hc.
        unfold effectApprovalWriteError, effectApprovalConfirmError, useEffect.
        rewrite (confirmError_unset m Hh). cbn [approvalWriteError closure error].
        rewrite Hc. cbn [error].
        destruct (_ || ca), (_ || ca); cbn [foldl];
          rewrite ?approvalOnError_sets; done.
      * rewrite (confirmError_failed m h0 e Hh Hr), Hc.
        unfold effectApprovalWriteError, effectApprovalConfirmError, useEffect.
        rewrite (confirmError_failed m h0 e Hh Hr).
        cbn [approvalWriteError closure error]. rewrite Hc. cbn [error].
        destruct (_ || ca), (_ || ca); cbn [foldl];
          rewrite ?approvalOnError_sets; done.
    + rewrite render_approvalHash, render_approvalClient, render_receipts.
      destruct Hside as [[Hc Hh]|(h0 & Hh & Hc & Hr)]; rewrite Hc; cbn [data].
      * by left.
      * right. exists h0. repeat split; try done. by destruct (differs _ _).
Qed.

Lemma exposed_run e m l :
  Forall (fun s => s <> UserExecute) l ->
  Forall (fun s => s <> UserReset) l ->
  exposed e m -> exposed e (run parseUnits p m l).
Proof.
  revert m. induction l as [|s l IH]; intros m Hx Hr He; [exact He|].
  inversion Hx; inversion Hr; subst.
  apply (IH (step parseUnits p m s)); try done. by apply exposed_step.
Qed.

Lemma unnoticed_step e m s :
  s <> UserExecute -> s <> UserReset -> ~ isRender s ->
  unnoticed e m -> unnoticed e (step parseUnits p m s).
Proof.
  intros Hx Hre Hr (h0 & Hh & Hc & Hf & Hn).
  destruct (approval_side_step parseUnits p m s) as (Hh' & Hrd & Hc' & Hrc);
    try done.
  { intros ca ct ->. apply Hr. by exists ca, ct. }
  exists h0. rewrite Hh', Hrd, Hc' by congruence. repeat split; try done.
  by apply Hrc.
Qed.

Lemma unnoticed_render e m ca ct :
  unnoticed e m ->
  exposed e (render p m ca ct) /\
  (onApprovalError p = true ->
   In (OnApprovalError e) (effects p (rendered m) (closure m) ca ct)).
Proof.
  intros (h0 & Hh & Hc & Hf & Hn).
  pose proof (confirmError_failed m h0 e Hh Hf) as Hce.
  assert (Hd : differs (approvalConfirmError (rendered m))
                 (approvalConfirmError (closure m)) || ca = true).
  { rewrite Hn, Hce. reflexivity. }
  split; [split|].
  - rewrite render_approvalError, Hd.
    unfold effectApprovalConfirmError at 1. rewrite Hce.
    cbn [useEffect]. apply approvalOnError_sets.
  - right. exists h0.
    rewrite render_approvalHash, render_approvalClient, render_receipts, Hc.
    cbn [data]. repeat split; try done.
    by destruct (differs (approvalData (rendered m)) (Some h0)).
  - intros Hcb. unfold effects. rewrite Hd.
    unfold effectApprovalConfirmError at 1. rewrite Hce. cbn [useEffect].
    do 4 (apply in_or_app; right). apply in_or_app. left.
    by apply approvalOnError_calls.
Qed.

(** Right after the failure: it is already exposed and the callback was
    called (a failed write runs the [onError] handler), or the next render
    will notice it. *)
Lemma failure_step m f e :
  approval_hash_follows_client m ->
  awaiting m ->
  approval_fails m f e ->
  (exposed e (step parseUnits p m f) /\
   (onApprovalError p = true ->
    In (OnApprovalError e) (performed parseUnits p m f))) \/
  unnoticed e (step parseUnits p m f).
Proof.
  intros H1 Ha [[-> Hp]|(h & -> & Hh & Hn)].
  - left. cbn [step performed]. rewrite Hp. split; [|apply approvalOnError_calls].
    assert (Hnone : approvalHash (hook m) = None).
    { destruct (approvalHash (hook m)) as [h|] eqn:Hh; [|done].
      apply H1 in Hh. congruence. }
    split.
    + rewrite hook_apply_actions, approvalError_foldl. apply approvalOnError_sets.
    + left. rewrite approvalClient_apply_actions, hook_apply_actions,
        approvalHash_foldl.
      unfold approvalOnError, optcall. by destruct (onApprovalError p).
  - right. cbn [step]. rewrite Hn. exists h. cbn.
    repeat split; try done.
    + by apply H1.
    + apply lookup_insert_eq.
    + by apply (Ha h).
Qed.

Lemma exposure_run e m l :
  Forall (fun s => s <> UserExecute) l ->
  Forall (fun s => s <> UserReset) l ->
  Exists isRender l ->
  unnoticed e m ->
  exposed e (run parseUnits p m l) /\
  (onApprovalError p = true -> In (OnApprovalError e) (trace parseUnits p m l)).
Proof.
  revert m. induction l as [|s l IH]; intros m Hx Hre Hex Hu.
  { inversion Hex. }
  inversion Hx as [|? ? Hxs Hxl]; inversion Hre as [|? ? Hrs Hrl]; subst.
  destruct s as [| | | | | | | |ca ct].
  9: { destruct (unnoticed_render e m ca ct Hu) as [He Hcb]. split.
       - by apply (exposed_run e (render p m ca ct) l).
       - intros Hp. cbn [trace performed]. apply in_or_app. left. by apply Hcb. }
  all: try done.
  all: match goal with |- context [run _ _ _ (?s :: _)] =>
    assert (Hnr : ~ isRender s) by (intros (ca & ct & ?); discriminate);
    assert (Hex' : Exists isRender l)
      by (inversion Hex as [? ? Hr|]; [by destruct Hnr | done]);
    destruct (IH (step parseUnits p m s) Hxl Hrl Hex'
                (unnoticed_step e m s Hxs Hrs Hnr Hu)) as [He Hcb];
    split; [exact He | intros Hp; cbn [trace]; apply in_or_app; right; by apply Hcb]
  end.
Qed.

End Failure.

(** C2: with an approval configured, take any call of [execute] and let
    the approval fail afterwards, by the pending approval write failing or
    by the awaited approval hash settling as failed.  Then from that
    [execute] on, up to the next one, the transaction write primitive is
    never called; and, as long as [reset] is not called, once the failure
    is seen (at once for a failed write, by the next render for a failed
    confirmation) the error sits in [approvalError], and [onApprovalError],
    if supplied, has been called with it. *)
Theorem approval_failure_stops_flow parseUnits p m0 pre f e post :
  is_Some (approvalConfig p) ->
  Forall (fun s => s <> UserExecute) pre ->
  Forall (fun s => s <> UserExecute) post ->
  let m1 := step parseUnits p m0 UserExecute in
  let m2 := run parseUnits p m1 pre in
  let m3 := run parseUnits p m2 (f :: post) in
  approval_fails m2 f e ->
  submissions (drop (length (log m0)) (log m3)) = [] /\
  (Forall (fun s => s <> UserReset) post -> Exists isRender post ->
   approvalError (hook m3) = Some e /\
   (onApprovalError p = true ->
    In (OnApprovalError e) (drop (length (log m2)) (log m3)))).
Proof.
  intros [cfg Hcfg] Hpre Hpost m1 m2 m3 Hf.
  assert (H1 : approval_hash_follows_client m1).
  { intros h Hh. unfold m1 in Hh. by rewrite execute_approvalHash in Hh. }
  assert (H2 : approval_hash_follows_client m2)
    by by apply approval_hash_follows_client_run.
  assert (Ha : awaiting m2).
  { apply awaiting_run; [done|]. intros h Hh.
    unfold m1 in Hh. by rewrite execute_approvalHash in Hh. }
  split.
  - assert (Hm3 : m3 = run parseUnits p m0 (UserExecute :: pre ++ f :: post)).
    { unfold m3, m2, m1, run. cbn [foldl]. by rewrite foldl_app. }
    rewrite Hm3, since_trace. cbn [trace performed].
    fold m1. rewrite trace_app. fold m2. cbn [trace].
    rewrite !submissions_app.
    replace (submissions (execute parseUnits p)) with (@nil Action).
    2: { unfold execute. rewrite Hcfg, submissions_app.
         by rewrite executeApproval_no_submission. }
    destruct (before_submission_run parseUnits p m1 pre Hpre H1) as [->|Hsp].
    2: { by destruct (approval_fails_not_spent m2 f e Hf). }
    destruct (failure_dooms parseUnits p m2 f e H2 Hf) as [Hd ->].
    by rewrite (doomed_run parseUnits p _ post Hpost Hd).
  - intros Hre Hex.
    assert (Hexp : exposed e m3 /\
      (onApprovalError p = true ->
       In (OnApprovalError e) (trace parseUnits p m2 (f :: post)))).
    { destruct (failure_step parseUnits p m2 f e H2 Ha Hf) as [[He Hcb]|Hu].
      - split; [by apply (exposed_run parseUnits p e (step parseUnits p m2 f) post)|].
        intros Hp. cbn [trace]. apply in_or_app. left. by apply Hcb.
      - destruct (exposure_run parseUnits p e _ post Hpost Hre Hex Hu) as [He Hcb].
        split; [exact He|]. intros Hp. cbn [trace]. apply in_or_app. right.
        by apply Hcb. }
    destruct Hexp as [[He _] Hcb]. split; [exact He|].
    unfold m3. by rewrite since_trace.
Qed.

Lemma approval_failure_stops_flow_witness :
  submissions
    (drop (length (log mounted))
       (log (run sampleParseUnits sampleParams
               (run sampleParseUnits sampleParams
                  (step sampleParseUnits sampleParams mounted UserExecute)
                  [ApprovalWriteOk (Hex "a1"); Render false false])
               (ReceiptFail (Hex "a1") (MkError "reverted")
                :: [Render false false; ReceiptOk (Hex "b2"); Render true true]))))
    = [] /\
  approvalError
    (hook (run sampleParseUnits sampleParams
             (run sampleParseUnits sampleParams
                (step sampleParseUnits sampleParams mounted UserExecute)
                [ApprovalWriteOk (Hex "a1"); Render false false])
             (ReceiptFail (Hex "a1") (MkError "reverted")
              :: [Render false false; ReceiptOk (Hex "b2"); Render true true])))
    = Some (MkError "reverted").
Proof.
  destruct (approval_failure_stops_flow sampleParseUnits sampleParams mounted
              [ApprovalWriteOk (Hex "a1"); Render false false]
              (ReceiptFail (Hex "a1") (MkError "reverted"))
              (MkError "reverted")
              [Render false false; ReceiptOk (Hex "b2"); Render true true])
    as [Hnone Hexposed].
  - eexists; reflexivity.
  - repeat constructor; discriminate.
  - repeat constructor; discriminate.
  - right. exists (Hex "a1"). repeat split; vm_compute; reflexivity.
  - destruct Hexposed as [Herr _].
    + repeat constructor; discriminate.
    + left. exists false, false. reflexivity.
    + split; [exact Hnone | exact Herr].
Defined.

(** ** The two branches of [execute] *)

(** C3: without an approval configured [execute] submits the dependent
    transaction and the approval write primitive is never called, by
    [execute] or by anything that follows; with one configured [execute]
    runs [executeApproval] right after the clearing and submits no
    transaction itself.  The approval step is entered (its first statement,
    [setIsApproving(true)], runs) exactly when an approval is configured. *)
Theorem execute_branches parseUnits p :
  match approvalConfig p with
  | None =>
      approvals (execute parseUnits p) = [] /\
      submissions (execute parseUnits p) =
        [WriteTransaction (transactionRequest (transactionConfig p))] /\
      (forall m l, approvals (log (run parseUnits p m l)) = approvals (log m))
  | Some _ =>
      drop 8 (execute parseUnits p) = executeApproval parseUnits p /\
      submissions (execute parseUnits p) = []
  end /\
  (In (SetIsApproving true) (execute parseUnits p) <-> is_Some (approvalConfig p)).
Proof.
  split.
  - destruct (approvalConfig p) as [cfg|] eqn:Hcfg.
    + split.
      * unfold execute. rewrite Hcfg. reflexivity.
      * unfold execute. rewrite Hcfg, submissions_app.
        rewrite executeApproval_no_submission. reflexivity.
    + split; [|split].
      * unfold execute. rewrite Hcfg. reflexivity.
      * unfold execute. rewrite Hcfg. reflexivity.
      * intros m l. by apply approvals_run.
  - unfold execute, executeApproval. destruct (approvalConfig p) as [cfg|]; split.
    + intros _. eauto.
    + intros _. cbn. tauto.
    + cbn. intros H. repeat (destruct H as [H|H]; [discriminate|]). destruct H.
    + intros [x Hx]. discriminate.
Qed.

(** * Further properties of the hook *)

(** ** The remaining cells across a render *)

(** Drops from a fold over a render's effects those that leave the folded
    cell alone. *)
Ltac drop_untouched f :=
  repeat match goal with
  | |- context [foldl f ?x (useEffect ?b ?body)] =>
      let H := fresh "Hframe" in
      assert (H : forall y, foldl f y (useEffect b body) = y)
        by (intros; effect_cases);
      rewrite (H x); clear H
  end.

Section Cells.

Variable parseUnits : string -> Z -> Error + Z.
Variable p : UseUniversalTransactionParams.

Lemma isApproving_foldl s l :
  isApproving (foldl setState s l) = foldl cellIsApproving (isApproving s) l.
Proof. revert s. induction l as [|a l IH]; intros s; [done|]. apply (IH (setState s a)). Qed.

Lemma isTransacting_foldl s l :
  isTransacting (foldl setState s l) = foldl cellIsTransacting (isTransacting s) l.
Proof. revert s. induction l as [|a l IH]; intros s; [done|]. apply (IH (setState s a)). Qed.

Lemma transactionError_foldl s l :
  transactionError (foldl setState s l)
  = foldl cellTransactionError (transactionError s) l.
Proof. revert s. induction l as [|a l IH]; intros s; [done|]. apply (IH (setState s a)). Qed.


Lemma render_isApproving m ca ct :
  isApproving (hook (render p m ca ct)) =
    foldl cellIsApproving
      (foldl cellIsApproving
         (foldl cellIsApproving (isApproving (hook m))
            (useEffect
               (differs (approvalWriteError (rendered m)) (error (approvalClient m))
                || ca)
               (effectApprovalWriteError p (closure m))))
         (useEffect
            (differs (approvalConfirmError (rendered m))
               (approvalConfirmError (closure m)) || ca)
            (effectApprovalConfirmError p (closure m))))
      (useEffect
         (differs (isApprovalSuccess (rendered m)) (isApprovalSuccess (closure m))
          || differs (approvalHash (state (rendered m))) (approvalHash (hook m)))
         (effectApprovalSuccess p (closure m))).
Proof.
  unfold render. rewrite hook_apply_actions, isApproving_foldl.
  unfold effects. rewrite !foldl_app.
  change (hook (withRendered m (closure m))) with (hook m).
  drop_untouched cellIsApproving. reflexivity.
Qed.

Lemma render_isTransacting m ca ct :
  isTransacting (hook (render p m ca ct)) =
    foldl cellIsTransacting
      (foldl cellIsTransacting
         (foldl cellIsTransacting
            (foldl cellIsTransacting (isTransacting (hook m))
               (useEffect
                  (differs (transactionWriteError (rendered m))
                     (error (transactionClient m)) || ct)
                  (effectTransactionWriteError p (closure m))))
            (useEffect
               (differs (transactionConfirmError (rendered m))
                  (transactionConfirmError (closure m)) || ct)
               (effectTransactionConfirmError p (closure m))))
         (useEffect
            (differs (isApprovalSuccess (rendered m)) (isApprovalSuccess (closure m))
             || differs (approvalHash (state (rendered m))) (approvalHash (hook m)))
            (effectApprovalSuccess p (closure m))))
      (useEffect
         (differs (isTransactionSuccess (rendered m))
            (isTransactionSuccess (closure m))
          || differs (transactionHash (state (rendered m)))
               (transactionHash (hook m)))
         (effectTransactionSuccess p (closure m))).
Proof.
  unfold render. rewrite hook_apply_actions, isTransacting_foldl.
  unfold effects. rewrite !foldl_app.
  change (hook (withRendered m (closure m))) with (hook m).
  drop_untouched cellIsTransacting. reflexivity.
Qed.

Lemma render_transactionError m ca ct :
  transactionError (hook (render p m ca ct)) =
    foldl cellTransactionError
      (foldl cellTransactionError
         (foldl cellTransactionError (transactionError (hook m))
            (useEffect
               (differs (transactionWriteError (rendered m))
                  (error (transactionClient m)) || ct)
               (effectTransactionWriteError p (closure m))))
         (useEffect
            (differs (transactionConfirmError (rendered m))
               (transactionConfirmError (closure m)) || ct)
            (effectTransactionConfirmError p (closure m))))
      (useEffect
         (differs (isApprovalSuccess (rendered m)) (isApprovalSuccess (closure m))
          || differs (approvalHash (state (rendered m))) (approvalHash (hook m)))
         (effectApprovalSuccess p (closure m))).
Proof.
  unfold render. rewrite hook_apply_actions, transactionError_foldl.
  unfold effects. rewrite !foldl_app.
  change (hook (withRendered m (closure m))) with (hook m).
  drop_untouched cellTransactionError. reflexivity.
Qed.

End Cells.

(** ** What is submitted, and how often *)

Section Submitted.

Variable parseUnits : string -> Z -> Error + Z.
Variable p : UseUniversalTransactionParams.

Lemma in_submissions a l :
  In a (submissions l) <-> In a l /\ isWriteTransaction a = true.
Proof.
  unfold submissions. rewrite <- !list_elem_of_In, list_elem_of_filter. tauto.
Qed.

Lemma submissions_execute :
  submissions (execute parseUnits p) =
    match approvalConfig p with
    | Some _ => []
    | None => [WriteTransaction (transactionRequest (transactionConfig p))]
    end.
Proof.
  unfold execute. destruct (approvalConfig p) eqn:Hcfg; [|reflexivity].
  rewrite submissions_app. by rewrite executeApproval_no_submission.
Qed.

(** A step submits nothing or the one configured call. *)
Lemma submissions_performed m s :
  submissions (performed parseUnits p m s) = [] \/
  submissions (performed parseUnits p m s)
  = [WriteTransaction (transactionRequest (transactionConfig p))].
Proof.
  destruct s as [| | | | | | | |ca ct];
    try (left; apply no_submission_unless_render; done).
  - cbn [performed]. rewrite submissions_execute.
    destruct (approvalConfig p); [by left | by right].
  - cbn [performed]. rewrite render_submissions.
    destruct (fires (rendered m) (closure m)); [by right | by left].
Qed.

Lemma approvals_not_execute m s :
  s <> UserExecute -> approvals (performed parseUnits p m s) = [].
Proof.
  intros Hx. destruct s; cbn [performed]; try reflexivity.
  - by destruct Hx.
  - unfold approvalOnError, optcall.
    by destruct (approvalClient m), (onApprovalError p).
  - unfold transactionOnError, optcall.
    by destruct (transactionClient m), (onTransactionError p).
  - apply approvals_effects.
Qed.

Lemma approvals_execute_length :
  (length (approvals (execute parseUnits p)) <= 1)%nat.
Proof.
  unfold execute, executeApproval, executeTransaction, approvalOnError, optcall.
  repeat case_match; vm_compute; lia.
Qed.

Lemma spent_mounted : spent mounted.
Proof. right. by split. Qed.

End Submitted.

(** X1: every call of the transaction write primitive in a run of the
    mounted hook is the configured one: to [contractAddress], with
    [contractAbi] and [functionName], and with the configured [args], or
    no arguments when [args] is left out. *)
Theorem submitted_request parseUnits p l r :
  In (WriteTransaction r) (log (run parseUnits p mounted l)) ->
  r = {| WriteContract.address := contractAddress (transactionConfig p);
         WriteContract.abi := contractAbi (transactionConfig p);
         WriteContract.functionName := functionName (transactionConfig p);
         WriteContract.args :=
           match args (transactionConfig p) with
           | Some a => a
           | None => []
           end |}.
Proof.
  rewrite log_trace. cbn [log mounted app].
  generalize mounted. induction l as [|s l IH]; intros m Hin; [destruct Hin|].
  cbn [trace] in Hin. apply in_app_or in Hin as [Hin|Hin]; [|by apply (IH _ Hin)].
  assert (Hs : In (WriteTransaction r) (submissions (performed parseUnits p m s)))
    by (by apply in_submissions).
  destruct (submissions_performed parseUnits p m s) as [Hnil|Hone].
  - rewrite Hnil in Hs. destruct Hs.
  - rewrite Hone in Hs. destruct Hs as [[= <-]|[]].
    unfold transactionRequest. by destruct (args (transactionConfig p)).
Qed.

Lemma submitted_request_witness :
  In (WriteTransaction
        {| WriteContract.address := "0xStaking";
           WriteContract.abi := ["stake"];
           WriteContract.functionName := "stake";
           WriteContract.args := [VBigint 5] |})
     (log (run sampleParseUnits sampleDirect mounted [UserExecute])) /\
  {| WriteContract.address := "0xStaking";
     WriteContract.abi := ["stake"];
     WriteContract.functionName := "stake";
     WriteContract.args := [VBigint 5] |}
  = {| WriteContract.address := contractAddress (transactionConfig sampleDirect);
       WriteContract.abi := contractAbi (transactionConfig sampleDirect);
       WriteContract.functionName := functionName (transactionConfig sampleDirect);
       WriteContract.args :=
         match args (transactionConfig sampleDirect) with
         | Some a => a
         | None => []
         end |}.
Proof.
  assert (Hin : In (WriteTransaction
        {| WriteContract.address := "0xStaking";
           WriteContract.abi := ["stake"];
           WriteContract.functionName := "stake";
           WriteContract.args := [VBigint 5] |})
     (log (run sampleParseUnits sampleDirect mounted [UserExecute]))).
  { vm_compute. do 10 right. left. reflexivity. }
  split; [exact Hin|].
  exact (submitted_request sampleParseUnits sampleDirect [UserExecute] _ Hin).
Defined.

(** ** After [reset], and after an amount that does not parse *)

Section Stopped.

Variable parseUnits : string -> Z -> Error + Z.
Variable p : UseUniversalTransactionParams.

Lemma useEffect_nil b : useEffect b [] = [].
Proof. by destruct b. Qed.

Lemma closure_quiet m : quiet m -> closure m = initialClosure.
Proof.
  intros (Hh & Ha & Ht). unfold closure. by rewrite Hh, Ha, Ht.
Qed.

Lemma effects_initialClosure prev ca ct :
  effects p prev initialClosure ca ct = [].
Proof.
  unfold effects.
  change (effectApprovalData initialClosure) with (@nil Action).
  change (effectTransactionData initialClosure) with (@nil Action).
  change (effectApprovalWriteError p initialClosure) with (@nil Action).
  change (effectTransactionWriteError p initialClosure) with (@nil Action).
  change (effectApprovalConfirmError p initialClosure) with (@nil Action).
  change (effectTransactionConfirmError p initialClosure) with (@nil Action).
  change (effectApprovalSuccess p initialClosure) with (@nil Action).
  change (effectTransactionSuccess p initialClosure) with (@nil Action).
  by rewrite !useEffect_nil.
Qed.

Lemma quiet_step m s :
  s <> UserExecute ->
  quiet m ->
  quiet (step parseUnits p m s) /\
  (forall a, In a (performed parseUnits p m s) -> In a reset).
Proof.
  intros Hx Hq. pose proof Hq as (Hh & Ha & Ht).
  destruct s as [| | | | | | | |ca ct]; cbn [step performed]; try done.
  - rewrite Ha. split; [exact Hq | intros a []].
  - rewrite Ha. split; [exact Hq | intros a []].
  - rewrite Ht. split; [exact Hq | intros a []].
  - rewrite Ht. split; [exact Hq | intros a []].
  - split; [|intros a []]. by destruct (receipts m !! h).
  - split; [|intros a []]. by destruct (receipts m !! h).
  - unfold render. rewrite (closure_quiet m Hq), effects_initialClosure.
    split; [exact Hq | intros a []].
Qed.

Lemma gave_up_step e m s :
  s <> UserExecute -> s <> UserReset ->
  gave_up e m ->
  gave_up e (step parseUnits p m s) /\
  performed parseUnits p m s = [].
Proof.
  intros Hx Hre Hg. pose proof Hg as (He & Hia & Hit & Hah & Hth & Hac & Htc).
  destruct s as [| | | | | | | |ca ct]; cbn [step performed]; try done.
  - rewrite Hac. by split.
  - rewrite Hac. by split.
  - rewrite Htc. by split.
  - rewrite Htc. by split.
  - split; [|done]. by destruct (receipts m !! h).
  - split; [|done]. by destruct (receipts m !! h).
  - assert (Hc : effects p (rendered m) (closure m) ca ct = []).
    { unfold effects, effectApprovalData, effectTransactionData,
        effectApprovalWriteError, effectTransactionWriteError,
        effectApprovalConfirmError, effectTransactionConfirmError,
        effectApprovalSuccess, effectTransactionSuccess.
      cbn [closure state approvalData transactionData approvalWriteError
           transactionWriteError approvalConfirmError transactionConfirmError].
      rewrite Hah, Hth, Hac, Htc. cbn. by rewrite !useEffect_nil. }
    unfold render. rewrite Hc. by split.
Qed.

End Stopped.

(** X3: after [reset], until [execute] is called again, the hook does
    nothing whatever the wallet and the chain report: the cells keep their
    initial values, both write clients stay idle, and the only statements
    run are those of further [reset] calls (no write, no callback). *)
Theorem reset_stops_everything parseUnits p m l :
  Forall (fun s => s <> UserExecute) l ->
  quiet (run parseUnits p m (UserReset :: l)) /\
  (forall a,
     In a (drop (length (log m)) (log (run parseUnits p m (UserReset :: l)))) ->
     In a reset).
Proof.
  intros Hl. rewrite since_trace. cbn [run foldl trace performed].
  assert (Hq : quiet (step parseUnits p m UserReset)) by (by repeat split).
  assert (Hgen : forall m0, quiet m0 ->
    quiet (foldl (step parseUnits p) m0 l) /\
    (forall a, In a (trace parseUnits p m0 l) -> In a reset)).
  { clear Hq. induction l as [|s l IH]; intros m0 Hq0; [by split|].
    inversion Hl as [|? ? Hs Hl']; subst.
    destruct (quiet_step parseUnits p m0 s Hs Hq0) as [Hq1 Hp].
    destruct (IH Hl' _ Hq1) as [Hq2 Ht]. split; [exact Hq2|].
    intros a Hin. cbn [trace] in Hin.
    apply in_app_or in Hin as [Hin|Hin]; [by apply Hp | by apply Ht]. }
  destruct (Hgen _ Hq) as [Hq' Ht]. split; [exact Hq'|].
  intros a Hin. apply in_app_or in Hin as [Hin|Hin]; [exact Hin | by apply Ht].
Qed.

Lemma reset_stops_everything_witness :
  quiet (run sampleParseUnits sampleParams
           (run sampleParseUnits sampleParams mounted
              [UserExecute; ApprovalWriteOk (Hex "a1"); Render false false])
           (UserReset ::
            [ReceiptOk (Hex "a1"); Render false false;
             ApprovalWriteOk (Hex "a2"); Render true true])).
Proof.
  refine (proj1 (reset_stops_everything sampleParseUnits sampleParams
    (run sampleParseUnits sampleParams mounted
       [UserExecute; ApprovalWriteOk (Hex "a1"); Render false false])
    [ReceiptOk (Hex "a1"); Render false false;
     ApprovalWriteOk (Hex "a2"); Render true true] _)).
  repeat constructor; discriminate.
Defined.

(** X4: when [parseUnits] throws on the configured amount, [execute] calls
    neither write primitive and nothing is submitted up to the next
    [execute]; [onApprovalError], if supplied, is called with the thrown
    error; and unless [reset] is called the error stays in [approvalError]
    with nothing shown as loading. *)
Theorem unparsable_amount_stops_flow parseUnits p cfg e m l :
  approvalConfig p = Some cfg ->
  approvalAmount parseUnits cfg = inl e ->
  Forall (fun s => s <> UserExecute) l ->
  let m' := run parseUnits p m (UserExecute :: l) in
  approvals (drop (length (log m)) (log m')) = [] /\
  submissions (drop (length (log m)) (log m')) = [] /\
  (onApprovalError p = true -> In (OnApprovalError e) (execute parseUnits p)) /\
  (Forall (fun s => s <> UserReset) l ->
   approvalError (hook m') = Some e /\
   ret_isLoading (useUniversalTransaction parseUnits p (closure m')) = false).
Proof.
  intros Hcfg Hthrow Hl. cbn zeta. rewrite since_trace.
  cbn [run foldl trace performed].
  assert (Hexec : execute parseUnits p =
    [SetApprovalHash None; SetTransactionHash None;
     SetApprovalError None; SetTransactionError None;
     SetIsApproving false; SetIsTransacting false;
     ResetApproval; ResetTransaction;
     SetIsApproving true; SetApprovalError None;
     SetApprovalError (Some e); SetIsApproving false]
    ++ optcall (onApprovalError p) (OnApprovalError e)).
  { unfold execute, executeApproval, approvalOnError.
    by rewrite Hcfg, Hthrow. }
  assert (Hg : gave_up e (step parseUnits p m UserExecute)).
  { cbn [step]. rewrite Hexec. unfold optcall.
    destruct (onApprovalError p); by repeat split. }
  assert (Hsp : spent (step parseUnits p m UserExecute)).
  { right. by destruct Hg as (_ & _ & _ & ? & _ & ? & _). }
  split; [|split; [|split]].
  - rewrite approvals_app.
    replace (approvals (execute parseUnits p)) with (@nil Action)
      by (rewrite Hexec; unfold optcall; by destruct (onApprovalError p)).
    cbn [app]. generalize (step parseUnits p m UserExecute).
    induction l as [|s l IH]; intros m0; [done|].
    inversion Hl as [|? ? Hs Hl']; subst. cbn [trace].
    rewrite approvals_app, (approvals_not_execute parseUnits p m0 s Hs).
    by apply IH.
  - rewrite submissions_app, submissions_execute, Hcfg.
    by rewrite (spent_run parseUnits p _ l Hl Hsp).
  - intros Hcb. rewrite Hexec. apply in_or_app. right.
    unfold optcall. rewrite Hcb. by left.
  - intros Hre.
    assert (Hend : gave_up e (foldl (step parseUnits p)
                                (step parseUnits p m UserExecute) l)).
    { revert Hg. generalize (step parseUnits p m UserExecute).
      induction l as [|s l IH]; intros m0 Hg0; [exact Hg0|].
      inversion Hl as [|? ? Hs Hl']; inversion Hre as [|? ? Hr Hre']; subst.
      apply (IH Hl' Hre' (step parseUnits p m0 s)).
      by apply gave_up_step. }
    revert Hend.
    generalize (foldl (step parseUnits p) (step parseUnits p m UserExecute) l).
    intros m' (He & Hia & Hit & Hah & Hth & _).
    split; [exact He|]. cbn. by rewrite Hia, Hit, Hah, Hth.
Qed.

Lemma unparsable_amount_stops_flow_witness :
  approvalError
    (hook (run sampleParseUnits sampleUnparsable mounted
             (UserExecute :: [Render false false; ReceiptOk (Hex "a1");
                              Render true true])))
  = Some (MkError "invalid decimal number").
Proof.
  destruct (unparsable_amount_stops_flow sampleParseUnits sampleUnparsable
              {| tokenAddress := "0xToken"; tokenAbi := ["approve"];
                 spenderAddress := "0xStaking"; amount := AmountString "five";
                 decimals := Some 6 |}
              (MkError "invalid decimal number") mounted
              [Render false false; ReceiptOk (Hex "a1"); Render true true])
    as (_ & _ & _ & Herr).
  - reflexivity.
  - reflexivity.
  - repeat constructor; discriminate.
  - destruct Herr as [Herr _]; [repeat constructor; discriminate|].
    exact Herr.
Defined.

(** ** The cells follow the write clients *)

Section Tracked.

Variable parseUnits : string -> Z -> Error + Z.
Variable p : UseUniversalTransactionParams.

(** The approval-success effect of a render: its body when it [fires],
    nothing otherwise. *)
Lemma approvalSuccess_effect m :
  useEffect
    (differs (isApprovalSuccess (rendered m)) (isApprovalSuccess (closure m))
     || differs (approvalHash (state (rendered m))) (approvalHash (hook m)))
    (effectApprovalSuccess p (closure m))
  = if fires (rendered m) (closure m)
    then [SetIsApproving false]
         ++ match approvalHash (hook m) with
            | Some h => optcall (onApprovalSuccess p) (OnApprovalSuccess h)
            | None => []
            end
         ++ executeTransaction p
    else [].
Proof.
  unfold fires, useEffect, effectApprovalSuccess. cbn [closure state].
  destruct (_ || _); [|reflexivity].
  destruct (approvalHash (hook m)); [|reflexivity]. cbn [truthy andb].
  by destruct (_ && _ && _).
Qed.

Lemma not_under_way_data w : ~ under_way w -> data w = None /\ w <> WPending.
Proof.
  intros Hn. destruct w; try done.
  - destruct Hn. by left.
  - destruct Hn. right. by eexists.
Qed.

Lemma under_way_no_error w : under_way w -> error w = None.
Proof. by intros [->|[h ->]]. Qed.

Lemma transactionConfirmError_unset m :
  transactionHash (hook m) = None -> transactionConfirmError (closure m) = None.
Proof. intros H. cbn. by rewrite H. Qed.

Lemma transactionSuccess_unset m :
  transactionHash (hook m) = None -> effectTransactionSuccess p (closure m) = [].
Proof. intros H. unfold effectTransactionSuccess. cbn [closure state]. by rewrite H. Qed.

Lemma approvalSuccess_unset m :
  approvalHash (hook m) = None -> effectApprovalSuccess p (closure m) = [].
Proof. intros H. unfold effectApprovalSuccess. cbn [closure state]. by rewrite H. Qed.

Lemma fires_transaction_side m :
  fires (rendered m) (closure m) = true ->
  isTransacting (hook m) = false /\ transactionHash (hook m) = None.
Proof. intros Hf. by apply fires_guard in Hf as (_ & ? & ?). Qed.

Lemma tracked_execute m : tracked (step parseUnits p m UserExecute).
Proof.
  cbn [step]. unfold tracked, approval_hash_follows_client.
  rewrite hook_apply_actions, approvalClient_apply_actions,
    transactionClient_apply_actions.
  unfold execute, executeApproval, executeTransaction, approvalOnError, optcall.
  repeat case_match; cbn; repeat split; try done;
    intros _ [Hw|[h Hw]]; discriminate.
Qed.

Lemma tracked_mounted : tracked mounted.
Proof.
  unfold tracked, approval_hash_follows_client. cbn.
  repeat split; try done; intros _ [Hw|[h Hw]]; discriminate.
Qed.

Lemma tracked_reset m : tracked (step parseUnits p m UserReset).
Proof.
  cbn [step]. unfold tracked, approval_hash_follows_client. cbn.
  repeat split; try done; intros _ [Hw|[h Hw]]; discriminate.
Qed.

Lemma render_hash_unset_before m ca ct :
  approvalHash (hook (render p m ca ct)) = None -> approvalHash (hook m) = None.
Proof.
  rewrite render_approvalHash. destruct (data (approvalClient m)); [|done].
  by destruct (differs _ _).
Qed.

Lemma render_transactionHash_unset_before m ca ct :
  transactionHash (hook (render p m ca ct)) = None ->
  transactionHash (hook m) = None.
Proof.
  rewrite render_transactionHash. destruct (data (transactionClient m)); [|done].
  by destruct (differs _ _).
Qed.

Lemma executeTransaction_sets_isTransacting x l :
  foldl cellIsTransacting x (l ++ executeTransaction p) = true.
Proof. rewrite foldl_app. reflexivity. Qed.

Lemma tracked_render m ca ct : tracked m -> tracked (render p m ca ct).
Proof.
  intros (H1 & H2 & H3 & H4).
  split; [exact (approval_hash_follows_client_step parseUnits p m (Render ca ct) H1)|].
  split; [|split].
  - intros t Ht. rewrite render_transactionClient.
    destruct (fires (rendered m) (closure m)) eqn:Hf.
    + exfalso. destruct (fires_transaction_side m Hf) as [Hit Hth].
      assert (Hn : ~ under_way (transactionClient m)).
      { intros Hw. specialize (H4 Hth Hw). congruence. }
      apply not_under_way_data in Hn as [Hd _].
      rewrite render_transactionHash, Hd in Ht. congruence.
    + rewrite render_transactionHash in Ht.
      destruct (transactionClient m) eqn:Hc; cbn [data] in Ht;
        try (apply H2 in Ht; congruence).
      destruct (differs _ _); [congruence|]. apply H2 in Ht. congruence.
  - intros Hh Hw. rewrite render_approvalClient in Hw.
    apply render_hash_unset_before in Hh.
    rewrite render_isApproving.
    unfold effectApprovalWriteError, effectApprovalConfirmError.
    rewrite (confirmError_unset m Hh), (approvalSuccess_unset m Hh).
    cbn [approvalWriteError closure]. rewrite (under_way_no_error _ Hw).
    rewrite !useEffect_nil. cbn [foldl]. by apply H3.
  - intros Hh Hw. rewrite render_isTransacting, approvalSuccess_effect.
    pose proof (render_transactionHash_unset_before m ca ct Hh) as Hh0.
    rewrite (transactionSuccess_unset m Hh0), useEffect_nil. cbn [foldl].
    destruct (fires (rendered m) (closure m)) eqn:Hf.
    + rewrite app_assoc. apply executeTransaction_sets_isTransacting.
    + rewrite render_transactionClient, Hf in Hw.
      unfold effectTransactionWriteError, effectTransactionConfirmError.
      rewrite (transactionConfirmError_unset m Hh0).
      cbn [transactionWriteError closure]. rewrite (under_way_no_error _ Hw).
      rewrite !useEffect_nil. cbn [foldl]. by apply H4.
Qed.

Lemma tracked_step m s : tracked m -> tracked (step parseUnits p m s).
Proof.
  intros Ht. pose proof Ht as (H1 & H2 & H3 & H4).
  destruct s as [| | | | | | | |ca ct].
  - apply tracked_execute.
  - apply tracked_reset.
  - cbn [step]. destruct (approvalClient m) eqn:Hc; try exact Ht.
    split; [|split; [|split]]; cbn.
    + intros h' Hh'. apply H1 in Hh'. congruence.
    + exact H2.
    + intros Hh _. apply H3; [exact Hh | by left].
    + exact H4.
  - cbn [step]. destruct (approvalClient m) eqn:Hc; try exact Ht.
    unfold tracked, approval_hash_follows_client.
    rewrite hook_apply_actions, approvalClient_apply_actions,
      transactionClient_apply_actions.
    unfold approvalOnError, optcall.
    destruct (onApprovalError p); cbn; (split; [|split; [|split]]); try done;
      try (intros h' Hh'; apply H1 in Hh'; congruence);
      intros _ [Hw|[h Hw]]; discriminate.
  - cbn [step]. destruct (transactionClient m) eqn:Hc; try exact Ht.
    split; [|split; [|split]]; cbn.
    + exact H1.
    + intros h' Hh'. apply H2 in Hh'. congruence.
    + exact H3.
    + intros Hh _. apply H4; [exact Hh | by left].
  - cbn [step]. destruct (transactionClient m) eqn:Hc; try exact Ht.
    unfold tracked, approval_hash_follows_client.
    rewrite hook_apply_actions, approvalClient_apply_actions,
      transactionClient_apply_actions.
    unfold transactionOnError, optcall.
    destruct (onTransactionError p); cbn; (split; [|split; [|split]]); try done;
      try (intros h' Hh'; apply H2 in Hh'; congruence);
      intros _ [Hw|[h Hw]]; discriminate.
  - cbn [step]. by destruct (receipts m !! h).
  - cbn [step]. by destruct (receipts m !! h).
  - by apply tracked_render.
Qed.

Lemma tracked_run m l : tracked m -> tracked (run parseUnits p m l).
Proof.
  revert m. induction l as [|s l IH]; intros m Hm; [exact Hm|].
  apply (IH (step parseUnits p m s)). by apply tracked_step.
Qed.

End Tracked.

(** X5: at every point of a run of the mounted hook, a hash the hook
    reports is the one its write primitive currently holds as data: no hash
    of an earlier execution is shown. *)
Theorem reported_hashes parseUnits p l :
  let m := run parseUnits p mounted l in
  let r := useUniversalTransaction parseUnits p (closure m) in
  (forall h, ret_approvalHash r = Some h -> approvalData (closure m) = Some h) /\
  (forall t, ret_transactionHash r = Some t ->
     transactionData (closure m) = Some t).
Proof.
  cbn zeta.
  destruct (tracked_run parseUnits p mounted l (tracked_mounted))
    as (H1 & H2 & _).
  split.
  - intros h Hh. cbn in *. by rewrite (H1 h Hh).
  - intros t Ht. cbn in *. by rewrite (H2 t Ht).
Qed.

(** X6: at every point of a run of the mounted hook, while a write is
    pending, or has handed back a hash that the hook has not recorded yet,
    the step is reported as in progress and [isLoading] is true. *)
Theorem in_progress_while_under_way parseUnits p l :
  let m := run parseUnits p mounted l in
  let r := useUniversalTransaction parseUnits p (closure m) in
  (under_way (approvalClient m) -> ret_approvalHash r = None ->
   ret_isApproving r = true /\ ret_isLoading r = true) /\
  (under_way (transactionClient m) -> ret_transactionHash r = None ->
   ret_isTransacting r = true /\ ret_isLoading r = true).
Proof.
  cbn zeta.
  destruct (tracked_run parseUnits p mounted l (tracked_mounted))
    as (_ & _ & H3 & H4).
  revert H3 H4. generalize (run parseUnits p mounted l). intros m H3 H4.
  split; intros Hw Hh; cbn in *.
  - rewrite (H3 Hh Hw). by split.
  - rewrite (H4 Hh Hw). split; [done|]. by rewrite !orb_true_r.
Qed.

(** ** A failed transaction is reported *)

Section TransactionFailure.

Variable parseUnits : string -> Z -> Error + Z.
Variable p : UseUniversalTransactionParams.

(** The transaction side of the machine after a step that is neither a
    render nor a call of the user. *)
Lemma transaction_side_step m s :
  s <> UserExecute -> s <> UserReset ->
  (forall ca ct, s <> Render ca ct) ->
  transactionHash (hook (step parseUnits p m s)) = transactionHash (hook m) /\
  rendered (step parseUnits p m s) = rendered m /\
  (transactionClient m <> WPending ->
   transactionClient (step parseUnits p m s) = transactionClient m /\
   transactionError (hook (step parseUnits p m s)) = transactionError (hook m) /\
   isTransacting (hook (step parseUnits p m s)) = isTransacting (hook m)) /\
  (forall h o, receipts m !! h = Some o ->
     receipts (step parseUnits p m s) !! h = Some o).
Proof.
  intros Hx Hre Hr. destruct s; cbn [step];
    try (by destruct Hx); try (by destruct Hre); try (by destruct (Hr ca ct)).
  - destruct (approvalClient m); repeat split; done.
  - destruct (approvalClient m) eqn:Hc; try (repeat split; done).
    rewrite hook_apply_actions, transactionHash_foldl, transactionError_foldl,
      isTransacting_foldl, rendered_apply_actions,
      transactionClient_apply_actions, receipts_apply_actions.
    unfold approvalOnError, optcall.
    destruct (onApprovalError p); repeat split; done.
  - destruct (transactionClient m) eqn:Hc; repeat split; try done.
  - destruct (transactionClient m) eqn:Hc; try (repeat split; done).
    rewrite hook_apply_actions, transactionHash_foldl, rendered_apply_actions,
      receipts_apply_actions.
    unfold transactionOnError, optcall.
    destruct (onTransactionError p); repeat split; done.
  - destruct (receipts m !! h) eqn:Hn; repeat split; try done.
    intros h' o Ho. cbn. rewrite lookup_insert_ne; [done|]. congruence.
  - destruct (receipts m !! h) eqn:Hn; repeat split; try done.
    intros h' o Ho. cbn. rewrite lookup_insert_ne; [done|]. congruence.
Qed.

Lemma transactionOnError_sets x e :
  foldl cellTransactionError x (transactionOnError p e) = Some e.
Proof. unfold transactionOnError, optcall. by destruct (onTransactionError p). Qed.

Lemma transactionOnError_lowers x e :
  foldl cellIsTransacting x (transactionOnError p e) = false.
Proof. unfold transactionOnError, optcall. by destruct (onTransactionError p). Qed.

Lemma transactionOnError_calls e :
  onTransactionError p = true ->
  In (OnTransactionError e) (transactionOnError p e).
Proof. intros Hcb. unfold transactionOnError, optcall. rewrite Hcb. cbn. tauto. Qed.

Lemma transactionConfirmError_unsettled m t :
  transactionHash (hook m) = Some t -> receipts m !! t = None ->
  transactionConfirmError (closure m) = None.
Proof. intros H Hn. cbn. rewrite H. cbn. by rewrite Hn. Qed.

Lemma transactionConfirmError_failed m t e :
  transactionHash (hook m) = Some t -> receipts m !! t = Some (Failed e) ->
  transactionConfirmError (closure m) = Some e.
Proof. intros H Hn. cbn. rewrite H. cbn. by rewrite Hn. Qed.

Lemma transactionSuccess_failed m t e :
  transactionHash (hook m) = Some t -> receipts m !! t = Some (Failed e) ->
  effectTransactionSuccess p (closure m) = [].
Proof.
  intros H Hn. unfold effectTransactionSuccess. cbn. rewrite H. cbn. by rewrite Hn.
Qed.

Lemma recorded_hash_not_fires m t :
  transactionHash (hook m) = Some t -> fires (rendered m) (closure m) = false.
Proof.
  intros Ht. destruct (fires (rendered m) (closure m)) eqn:Hf; [|done].
  apply fires_transaction_side in Hf as [_ Hn]. congruence.
Qed.

Lemma render_keeps_transactionHash m ca ct t :
  transactionClient m = WSuccess t ->
  transactionHash (hook m) = Some t ->
  transactionHash (hook (render p m ca ct)) = Some t.
Proof.
  intros Hc Hh. rewrite render_transactionHash, Hc. cbn [data].
  by destruct (differs _ _).
Qed.

Lemma busy_is_spent_step m s :
  s <> UserExecute ->
  approval_hash_follows_client m ->
  busy_is_spent m -> busy_is_spent (step parseUnits p m s).
Proof.
  intros Hx H1 Hb Hbusy.
  assert (Hcases : transactionClient m = WIdle \/ transactionClient m <> WIdle)
    by (destruct (transactionClient m); [by left | by right..]).
  destruct Hcases as [Hidle|Hn].
  - destruct (first_submission_step parseUnits p m s Hx H1) as [Hnil|[_ Hsp]];
      [exfalso | exact Hsp].
    destruct s as [| | | | | | | |ca ct]; cbn [step] in Hbusy; try done.
    + by destruct (approvalClient m).
    + destruct (approvalClient m); try done.
      rewrite transactionClient_apply_actions in Hbusy.
      unfold approvalOnError, optcall in Hbusy.
      by destruct (onApprovalError p).
    + by rewrite Hidle in Hbusy.
    + by rewrite Hidle in Hbusy.
    + by destruct (receipts m !! h).
    + by destruct (receipts m !! h).
    + cbn [performed] in Hnil. rewrite render_submissions in Hnil.
      rewrite render_transactionClient in Hbusy.
      by destruct (fires (rendered m) (closure m)).
  - by apply spent_step, Hb.
Qed.

Lemma busy_is_spent_execute m : busy_is_spent (step parseUnits p m UserExecute).
Proof.
  intros Hbusy. destruct (approvalConfig p) as [cfg|] eqn:Hcfg.
  - exfalso. apply Hbusy. cbn [step].
    rewrite transactionClient_apply_actions.
    unfold execute, executeApproval, approvalOnError, optcall. rewrite Hcfg.
    by repeat case_match.
  - by apply execute_direct_spent.
Qed.

Lemma awaiting_transaction_step m s :
  tracked m ->
  awaiting_transaction m -> awaiting_transaction (step parseUnits p m s).
Proof.
  intros (_ & H2 & _) Ha.
  destruct s as [| | | | | | | |ca ct].
  1,2: intros t Ht; cbn [step] in Ht;
       rewrite hook_apply_actions, transactionHash_foldl in Ht;
       unfold execute, executeApproval, executeTransaction, approvalOnError,
         optcall in Ht;
       repeat case_match; discriminate.
  1-6: match goal with |- awaiting_transaction (step _ _ _ ?s) =>
         destruct (transaction_side_step m s) as (Hh & Hrd & _ & Hrc); try done;
         intros t' Ht' Hn; rewrite Hrd; apply (Ha t'); [by rewrite <- Hh|];
         destruct (receipts m !! t') as [o|] eqn:Ho; [|done];
         apply Hrc in Ho; congruence
       end.
  intros t Ht Hn. cbn [step] in *.
  rewrite render_rendered. rewrite render_receipts in Hn.
  destruct (transactionHash (hook m)) as [t0|] eqn:H0.
  - rewrite (render_keeps_transactionHash m ca ct t0 (H2 t0 eq_refl) H0) in Ht.
    injection Ht as ->. by apply (transactionConfirmError_unsettled m t).
  - by apply transactionConfirmError_unset.
Qed.

Lemma exposed_transaction_step e m s :
  s <> UserExecute -> s <> UserReset ->
  exposed_transaction e m ->
  exposed_transaction e (step parseUnits p m s) /\
  submissions (performed parseUnits p m s) = [].
Proof.
  intros Hx Hre Hexp. pose proof Hexp as (He & Hit & Hside).
  assert (Hp : transactionClient m <> WPending)
    by (destruct Hside as [(Hw & _)|(t0 & _ & Hw & _)]; congruence).
  destruct s as [| | | | | | | |ca ct]; try done.
  1-6: split; [|by apply no_submission_unless_render];
       match goal with |- exposed_transaction _ (step _ _ _ ?s) =>
         destruct (transaction_side_step m s) as (Hh & _ & Hc & Hrc); try done;
         destruct (Hc Hp) as (Hc1 & Hc2 & Hc3);
         unfold exposed_transaction; rewrite Hh, Hc1, Hc2, Hc3;
         (split; [done|]); (split; [done|]);
         destruct Hside as [(? & ? & Hsp)|(t0 & ? & ? & ?)];
         [ left; repeat split; try done; by apply spent_step
         | right; exists t0; repeat split; try done; by apply Hrc ]
       end.
  cbn [step performed]. rewrite render_submissions.
  assert (Hf : fires (rendered m) (closure m) = false).
  { destruct Hside as [(_ & _ & Hsp)|(t0 & Ht & _)].
    - destruct (spent_step parseUnits p m (Render ca ct) Hx Hsp) as [_ Hnil].
      cbn [performed] in Hnil. rewrite render_submissions in Hnil.
      by destruct (fires (rendered m) (closure m)).
    - by apply (recorded_hash_not_fires m t0). }
  rewrite Hf. split; [|done].
  unfold exposed_transaction.
  rewrite render_transactionError, render_isTransacting, approvalSuccess_effect, Hf.
  rewrite render_transactionHash, render_transactionClient, render_receipts, Hf.
  cbn [foldl].
  destruct Hside as [(Hc & Hh & Hsp)|(t0 & Hh & Hc & Hr)].
  - unfold effectTransactionWriteError, effectTransactionConfirmError.
    rewrite (transactionConfirmError_unset m Hh), (transactionSuccess_unset p m Hh).
    cbn [transactionWriteError closure]. rewrite Hc. cbn [error data].
    rewrite !useEffect_nil. cbn [foldl].
    repeat split.
    + destruct (_ || ct); cbn [useEffect foldl];
        [apply transactionOnError_sets | done].
    + destruct (_ || ct); cbn [useEffect foldl];
        [apply transactionOnError_lowers | done].
    + left. repeat split; try done.
      by apply (spent_step parseUnits p m (Render ca ct)).
  - unfold effectTransactionWriteError, effectTransactionConfirmError.
    rewrite (transactionConfirmError_failed m t0 e Hh Hr),
      (transactionSuccess_failed m t0 e Hh Hr).
    cbn [transactionWriteError closure]. rewrite Hc. cbn [error data].
    rewrite !useEffect_nil. cbn [foldl].
    repeat split.
    + destruct (_ || ct); cbn [useEffect foldl];
        [apply transactionOnError_sets | done].
    + destruct (_ || ct); cbn [useEffect foldl];
        [apply transactionOnError_lowers | done].
    + right. exists t0. repeat split; try done.
      by destruct (differs (transactionData (rendered m)) (Some t0)).
Qed.

Lemma unnoticed_transaction_step e m s :
  s <> UserExecute -> s <> UserReset -> ~ isRender s ->
  unnoticed_transaction e m ->
  unnoticed_transaction e (step parseUnits p m s) /\
  submissions (performed parseUnits p m s) = [].
Proof.
  intros Hx Hre Hr (t0 & Hh & Hc & Hf & Hn).
  assert (Hr' : forall ca ct, s <> Render ca ct).
  { intros ca ct ->. apply Hr. by exists ca, ct. }
  split; [|by apply no_submission_unless_render].
  destruct (transaction_side_step m s) as (Hh' & Hrd & Hc' & Hrc); try done.
  destruct Hc' as (Hc1 & _); [congruence|].
  exists t0. rewrite Hh', Hrd, Hc1. repeat split; try done. by apply Hrc.
Qed.

Lemma unnoticed_transaction_render e m ca ct :
  unnoticed_transaction e m ->
  exposed_transaction e (render p m ca ct) /\
  submissions (effects p (rendered m) (closure m) ca ct) = [] /\
  (onTransactionError p = true ->
   In (OnTransactionError e) (effects p (rendered m) (closure m) ca ct)).
Proof.
  intros (t0 & Hh & Hc & Hf & Hn).
  pose proof (transactionConfirmError_failed m t0 e Hh Hf) as Hce.
  pose proof (recorded_hash_not_fires m t0 Hh) as Hnf.
  assert (Hd : differs (transactionConfirmError (rendered m))
                 (transactionConfirmError (closure m)) || ct = true).
  { rewrite Hn, Hce. reflexivity. }
  split; [|split].
  - unfold exposed_transaction.
    rewrite render_transactionError, render_isTransacting, approvalSuccess_effect.
    rewrite render_transactionHash, render_transactionClient, render_receipts.
    rewrite Hnf, Hd. cbn [foldl].
    unfold effectTransactionWriteError, effectTransactionConfirmError.
    rewrite Hce, (transactionSuccess_failed m t0 e Hh Hf).
    cbn [transactionWriteError closure]. rewrite Hc. cbn [error data].
    rewrite !useEffect_nil. cbn [useEffect foldl].
    repeat split.
    + apply transactionOnError_sets.
    + apply transactionOnError_lowers.
    + right. exists t0. repeat split; try done.
      by destruct (differs (transactionData (rendered m)) (Some t0)).
  - by rewrite render_submissions, Hnf.
  - intros Hcb. unfold effects. rewrite Hd.
    unfold effectTransactionConfirmError at 1. rewrite Hce. cbn [useEffect].
    do 5 (apply in_or_app; right). apply in_or_app. left.
    by apply transactionOnError_calls.
Qed.

Lemma transaction_failure_step m f e :
  tracked m -> awaiting_transaction m ->
  (transactionClient m = WPending -> spent m) ->
  transaction_fails m f e ->
  submissions (performed parseUnits p m f) = [] /\
  ((exposed_transaction e (step parseUnits p m f) /\
    (onTransactionError p = true ->
     In (OnTransactionError e) (performed parseUnits p m f))) \/
   unnoticed_transaction e (step parseUnits p m f)).
Proof.
  intros (H1 & H2 & _) Ha Hb [[-> Hp]|(t & -> & Hh & Hn)].
  - split; [by apply no_submission_unless_render|]. left.
    assert (Hsp : spent m) by (by apply Hb).
    assert (Hnone : transactionHash (hook m) = None).
    { destruct (transactionHash (hook m)) as [t|] eqn:Hh; [|done].
      specialize (H2 t eq_refl). congruence. }
    split.
    + destruct (spent_step parseUnits p m (TransactionWriteFail e)) as [Hsp' _];
        try done.
      revert Hsp'. cbn [step]. rewrite Hp. intros Hsp'.
      unfold exposed_transaction.
      rewrite hook_apply_actions, transactionError_foldl, isTransacting_foldl,
        transactionHash_foldl, transactionClient_apply_actions.
      rewrite transactionOnError_sets, transactionOnError_lowers.
      repeat split. left.
      unfold transactionOnError, optcall in *.
      destruct (onTransactionError p); cbn; by repeat split.
    + cbn [performed]. rewrite Hp. apply transactionOnError_calls.
  - split; [by apply no_submission_unless_render|]. right.
    cbn [step]. rewrite Hn. exists t. cbn.
    repeat split; try done.
    + by apply H2.
    + apply lookup_insert_eq.
    + by apply (Ha t).
Qed.

End TransactionFailure.

(** ** The success callbacks *)

Section Callbacks.

Variable parseUnits : string -> Z -> Error + Z.
Variable p : UseUniversalTransactionParams.

Lemma in_useEffect a b l : In a (useEffect b l) -> b = true /\ In a l.
Proof. destruct b; [by split | intros []]. Qed.

Lemma isTransactionSuccess_closure m :
  isTransactionSuccess (closure m) = true <->
  exists t, transactionHash (hook m) = Some t /\ receipts m !! t = Some Confirmed.
Proof.
  unfold closure, useWaitForTransactionReceipt. cbn.
  destruct (transactionHash (hook m)) as [t|].
  - destruct (receipts m !! t) as [[|e]|] eqn:Hr; cbn; split;
      try discriminate; try (intros (t' & [= <-] & Hc); congruence).
    intros _. eauto.
  - cbn. split; [discriminate | intros (t & [=] & _)].
Qed.

(** Which statements of the hook can make a given success call. *)
Ltac no_such_call H :=
  unfold execute, executeApproval, executeTransaction, reset, useEffect,
    effectApprovalData, effectTransactionData,
    effectApprovalWriteError, effectTransactionWriteError,
    effectApprovalConfirmError, effectTransactionConfirmError,
    effectApprovalSuccess, effectTransactionSuccess,
    approvalOnError, transactionOnError, optcall in H;
  repeat case_match; cbn in H; intuition discriminate.

Lemma success_call_in_render m s a :
  (a = OnFinalSuccess \/ (exists t, a = OnTransactionSuccess t)
   \/ exists h, a = OnApprovalSuccess h) ->
  In a (performed parseUnits p m s) ->
  exists ca ct, s = Render ca ct.
Proof.
  intros Ha Hin. destruct s as [| | | | | | | |ca ct]; cbn [performed] in Hin;
    try (by destruct Hin); try (by eexists _, _); exfalso;
    destruct Ha as [->|[[t ->]|[h ->]]]; no_such_call Hin.
Qed.

Lemma transaction_success_call m ca ct a :
  (a = OnFinalSuccess \/ exists t, a = OnTransactionSuccess t) ->
  In a (effects p (rendered m) (closure m) ca ct) ->
  In a (effectTransactionSuccess p (closure m)) /\
  (differs (isTransactionSuccess (rendered m)) (isTransactionSuccess (closure m))
   || differs (transactionHash (state (rendered m))) (transactionHash (hook m)))
  = true.
Proof.
  intros Ha Hin. unfold effects in Hin.
  repeat (apply in_app_or in Hin as [Hin|Hin]);
    apply in_useEffect in Hin as [Hb Hin]; try (by split); exfalso;
    destruct Ha as [->|[t ->]]; no_such_call Hin.
Qed.

Lemma approval_success_call m ca ct h :
  In (OnApprovalSuccess h) (effects p (rendered m) (closure m) ca ct) ->
  fires (rendered m) (closure m) = true /\ approvalHash (hook m) = Some h.
Proof.
  intros Hin. unfold effects in Hin.
  repeat (apply in_app_or in Hin as [Hin|Hin]).
  7: { rewrite approvalSuccess_effect in Hin.
       destruct (fires (rendered m) (closure m)); [split; [done|] | destruct Hin].
       destruct (approvalHash (hook m)) as [h'|];
         unfold optcall, executeTransaction in Hin;
         destruct (onApprovalSuccess p); cbn in Hin;
         intuition (try discriminate); congruence. }
  all: apply in_useEffect in Hin as [Hb Hin]; exfalso; no_such_call Hin.
Qed.

Lemma in_transactionSuccess a m :
  In a (effectTransactionSuccess p (closure m)) ->
  isTransactionSuccess (closure m) = true /\
  exists t, transactionHash (hook m) = Some t /\
    (a = SetIsTransacting false \/ a = OnTransactionSuccess t \/ a = OnFinalSuccess).
Proof.
  unfold effectTransactionSuccess. cbn [closure state].
  destruct (transactionHash (hook m)) as [t|]; [|intros []].
  destruct (isTransactionSuccess (closure m)) eqn:Hs; [|intros []].
  intros Hin. split; [done|]. exists t. split; [done|].
  unfold optcall in Hin.
  destruct (onTransactionSuccess p), (onFinalSuccess p); cbn in Hin; intuition.
Qed.

End Callbacks.

(** ** The success callbacks run once *)

Section SuccessOnce.

Variable parseUnits : string -> Z -> Error + Z.
Variable p : UseUniversalTransactionParams.
Variable final : bool.

Lemma successCalls_app l1 l2 :
  successCalls final (l1 ++ l2) = successCalls final l1 ++ successCalls final l2.
Proof. apply filter_app. Qed.

Lemma differs_same `{EqDecision A} (x : A) : differs x x = false.
Proof. unfold differs. by rewrite bool_decide_eq_true_2. Qed.

(** Only the transaction-success effect makes these calls. *)
Lemma successCalls_effects prev c ca ct :
  successCalls final (effects p prev c ca ct) =
    successCalls final
      (useEffect
         (differs (isTransactionSuccess prev) (isTransactionSuccess c)
          || differs (transactionHash (state prev)) (transactionHash (state c)))
         (effectTransactionSuccess p c)).
Proof.
  unfold effects. rewrite !successCalls_app.
  replace (successCalls final (useEffect _ (effectApprovalData c)))
    with (@nil Action) by effect_cases.
  replace (successCalls final (useEffect _ (effectTransactionData c)))
    with (@nil Action) by effect_cases.
  replace (successCalls final (useEffect _ (effectApprovalWriteError p c)))
    with (@nil Action) by effect_cases.
  replace (successCalls final (useEffect _ (effectTransactionWriteError p c)))
    with (@nil Action) by effect_cases.
  replace (successCalls final (useEffect _ (effectApprovalConfirmError p c)))
    with (@nil Action) by effect_cases.
  replace (successCalls final (useEffect _ (effectTransactionConfirmError p c)))
    with (@nil Action) by effect_cases.
  replace (successCalls final (useEffect _ (effectApprovalSuccess p c)))
    with (@nil Action) by effect_cases.
  reflexivity.
Qed.

Lemma successCalls_not_render m s :
  (forall ca ct, s <> Render ca ct) ->
  successCalls final (performed parseUnits p m s) = [].
Proof.
  intros Hr. destruct s as [| | | | | | | |ca ct]; cbn [performed];
    try reflexivity; try (by destruct (Hr ca ct)).
  - unfold execute, executeApproval, executeTransaction, approvalOnError, optcall.
    by repeat case_match.
  - unfold approvalOnError, optcall.
    by destruct (approvalClient m), (onApprovalError p).
  - unfold transactionOnError, optcall.
    by destruct (transactionClient m), (onTransactionError p).
Qed.

Lemma successCalls_body_length c :
  (length (successCalls final (effectTransactionSuccess p c)) <= 1)%nat.
Proof.
  unfold effectTransactionSuccess, optcall.
  destruct final; repeat case_match; vm_compute; lia.
Qed.

Lemma finished_step m s :
  s <> UserExecute ->
  finished m ->
  finished (step parseUnits p m s) /\
  successCalls final (performed parseUnits p m s) = [].
Proof.
  intros Hx Hfin.
  destruct s as [| | | | | | | |ca ct]; try (by destruct Hx).
  { split; [|reflexivity]. right. by repeat split. }
  all: try (split; [|by apply successCalls_not_render];
    match goal with |- finished (step _ _ _ ?s) =>
      destruct (transaction_side_step parseUnits p m s)
        as (Hth & Hrd & Htc & Hrc); try done;
      destruct (approval_side_step parseUnits p m s)
        as (Hah & _ & Hac & _); try done
    end;
    destruct Hfin as [(t0 & H1 & H2 & H3 & H4 & H5)|(H1 & H2 & H3 & H4)];
    [ left; exists t0; destruct Htc as (Htc & _); [congruence|];
      rewrite Hth, Hrd, Htc; repeat split; try done; by apply Hrc
    | right; destruct Htc as (Htc & _); [congruence|];
      rewrite Hth, Htc, Hah, Hac by congruence; by repeat split ]).
  cbn [step performed]. rewrite successCalls_effects.
  destruct Hfin as [(t0 & H1 & H2 & H3 & H4 & H5)|(H1 & H2 & H3 & H4)].
  - assert (Hs : isTransactionSuccess (closure m) = true).
    { apply isTransactionSuccess_closure. exists t0. by split. }
    split.
    + left. exists t0.
      rewrite (render_keeps_transactionHash p m ca ct t0 H2 H1),
        render_transactionClient, (recorded_hash_not_fires m t0 H1),
        render_receipts, render_rendered.
      repeat split; try done.
    + cbn [closure state] in *. rewrite H4, H5, H1.
      change (isSuccess (useWaitForTransactionReceipt (receipts m)
                           (transactionHash (hook m))))
        with (isTransactionSuccess (closure m)).
      by rewrite Hs, !differs_same.
  - split.
    + right.
      assert (Hf : fires (rendered m) (closure m) = false).
      { destruct (fires (rendered m) (closure m)) eqn:Hf; [|done].
        apply fires_confirmed in Hf as (h & Hh & _). congruence. }
      rewrite render_transactionClient, Hf, render_transactionHash,
        render_approvalClient, render_approvalHash, H1, H3.
      by repeat split.
    + by rewrite (transactionSuccess_unset p m H2), useEffect_nil.
Qed.

Lemma first_success_step m s :
  s <> UserExecute ->
  tracked m ->
  successCalls final (performed parseUnits p m s) = [] \/
  ((length (successCalls final (performed parseUnits p m s)) <= 1)%nat /\
   finished (step parseUnits p m s)).
Proof.
  intros Hx (_ & H2 & _).
  destruct s as [| | | | | | | |ca ct];
    try (left; apply successCalls_not_render; done).
  cbn [step performed]. rewrite successCalls_effects.
  destruct (differs (isTransactionSuccess (rendered m))
              (isTransactionSuccess (closure m))
            || differs (transactionHash (state (rendered m)))
                 (transactionHash (state (closure m)))); [|by left].
  cbn [useEffect].
  destruct (isTransactionSuccess (closure m)) eqn:Hs.
  - right. split; [apply successCalls_body_length|].
    apply isTransactionSuccess_closure in Hs as (t & Ht & Hc).
    left. exists t.
    rewrite (render_keeps_transactionHash p m ca ct t (H2 t Ht) Ht),
      render_transactionClient, (recorded_hash_not_fires m t Ht),
      render_receipts, render_rendered.
    repeat split; try done; [by apply H2|].
    apply isTransactionSuccess_closure. exists t. by split.
  - left. unfold effectTransactionSuccess. rewrite Hs. by case_match.
Qed.

End SuccessOnce.

(** ** Something is always shown *)

Section Reporting.

Variable parseUnits : string -> Z -> Error + Z.
(** [p] are the props of the render that shows the state, [q] those of the
    step taken. *)
Variable p q : UseUniversalTransactionParams.

Lemma completed_spec m :
  completed p m = true <->
  (is_Some (approvalConfig p) -> approval_confirmed m) /\
  exists t, transactionHash (hook m) = Some t /\ receipts m !! t = Some Confirmed.
Proof.
  unfold completed. rewrite andb_true_iff, isTransactionSuccess_closure.
  destruct (approvalConfig p) as [cfg|].
  - rewrite isApprovalSuccess_closure. split.
    + intros [Ha Ht]. by split.
    + intros [Ha Ht]. split; [apply Ha; by eexists | done].
  - split.
    + intros [_ Ht]. split; [intros [x Hx]; discriminate | done].
    + intros [_ Ht]. by split.
Qed.

Lemma sequenced_execute m :
  is_Some (approvalConfig q) -> sequenced (step parseUnits q m UserExecute).
Proof.
  intros [cfg Hcfg]. split; [|split].
  - intros h Hh. by rewrite execute_approvalHash in Hh.
  - intros Hbusy. exfalso. apply Hbusy. cbn [step].
    rewrite transactionClient_apply_actions.
    unfold execute, executeApproval, approvalOnError, optcall. rewrite Hcfg.
    by repeat case_match.
  - intros [t Ht]. exfalso. revert Ht. cbn [step].
    rewrite hook_apply_actions, transactionHash_foldl.
    unfold execute, executeApproval, approvalOnError, optcall. rewrite Hcfg.
    by repeat case_match.
Qed.

Lemma reporting_execute m : reporting p (step parseUnits q m UserExecute).
Proof.
  unfold reporting. cbn [step].
  rewrite hook_apply_actions, isApproving_foldl, isTransacting_foldl,
    approvalError_foldl.
  unfold execute, executeApproval, executeTransaction, approvalOnError, optcall.
  repeat case_match; cbn; eauto 6.
Qed.

(** Once complete, complete until [execute] or [reset]. *)
Lemma completed_step m s :
  s <> UserExecute -> s <> UserReset ->
  tracked m ->
  completed p m = true -> completed p (step parseUnits q m s) = true.
Proof.
  intros Hx Hre (H1 & H2 & _). rewrite !completed_spec.
  intros (Ha & t & Ht & Hc).
  destruct s as [| | | | | | | |ca ct]; try done.
  1-6: match goal with |- context [step _ _ _ ?s] =>
         destruct (transaction_side_step parseUnits q m s)
           as (Hth & _ & _ & Hrc); try done;
         destruct (approval_side_step parseUnits q m s)
           as (Hah & _ & _ & _); try done;
         split;
         [ intros Hcfg; destruct (Ha Hcfg) as (h0 & Hh0 & Hc0); exists h0;
           rewrite Hah; split; [done | by apply Hrc]
         | exists t; rewrite Hth; split; [done | by apply Hrc] ]
       end.
  cbn [step]. split.
  - intros Hcfg. by apply render_keeps_confirmed, Ha.
  - exists t. rewrite render_receipts. split; [|done].
    apply render_keeps_transactionHash; [by apply H2 | done].
Qed.

(** An error effect runs the handler or nothing. *)
Lemma approval_error_effect b (o : option Error) :
  useEffect b (match o with Some e => approvalOnError q e | None => [] end) = []
  \/ exists e, useEffect b (match o with Some e => approvalOnError q e
                                    | None => [] end) = approvalOnError q e.
Proof. destruct b, o; cbn; eauto. Qed.

Lemma transaction_error_effect b (o : option Error) :
  useEffect b (match o with Some e => transactionOnError q e | None => [] end) = []
  \/ exists e, useEffect b (match o with Some e => transactionOnError q e
                                    | None => [] end) = transactionOnError q e.
Proof. destruct b, o; cbn; eauto. Qed.

Lemma reporting_render m ca ct :
  tracked m ->
  (is_Some (approvalConfig p) -> sequenced m) ->
  reporting p m -> reporting p (render q m ca ct).
Proof.
  intros Ht Hseq Hrep. pose proof Ht as (H1 & H2 & _).
  destruct (fires (rendered m) (closure m)) eqn:Hf.
  { right. left. rewrite render_isTransacting, approvalSuccess_effect, Hf.
    destruct (fires_transaction_side m Hf) as [_ Hnone].
    rewrite (transactionSuccess_unset q m Hnone), useEffect_nil. cbn [foldl].
    rewrite app_assoc. apply executeTransaction_sets_isTransacting. }
  destruct (completed p m) eqn:Hc.
  { do 4 right.
    by apply (completed_step m (Render ca ct)). }
  assert (Hts : effectTransactionSuccess q (closure m) = []).
  { unfold effectTransactionSuccess. cbn [closure state].
    destruct (transactionHash (hook m)) as [t|] eqn:Hh; [|done].
    destruct (isTransactionSuccess (closure m)) eqn:Hs; [exfalso | done].
    assert (completed p m = true); [|congruence].
    apply completed_spec. split.
    - intros Hcfg. apply (Hseq Hcfg). by rewrite Hh; eexists.
    - by apply isTransactionSuccess_closure. }
  unfold reporting.
  rewrite render_isApproving, render_isTransacting, render_approvalError,
    render_transactionError, approvalSuccess_effect, Hf, Hts, useEffect_nil.
  cbn [foldl].
  unfold effectApprovalWriteError, effectApprovalConfirmError,
    effectTransactionWriteError, effectTransactionConfirmError.
  destruct (approval_error_effect
              (differs (approvalConfirmError (rendered m))
                 (approvalConfirmError (closure m)) || ca)
              (approvalConfirmError (closure m))) as [->|[e ->]].
  2: { right. right. left. rewrite approvalOnError_sets. by eexists. }
  destruct (approval_error_effect
              (differs (approvalWriteError (rendered m))
                 (error (approvalClient m)) || ca)
              (approvalWriteError (closure m))) as [->|[e ->]].
  2: { right. right. left. cbn [foldl]. rewrite approvalOnError_sets. by eexists. }
  destruct (transaction_error_effect
              (differs (transactionConfirmError (rendered m))
                 (transactionConfirmError (closure m)) || ct)
              (transactionConfirmError (closure m))) as [->|[e ->]].
  2: { do 3 right. left.
       rewrite (transactionOnError_sets q). by eexists. }
  destruct (transaction_error_effect
              (differs (transactionWriteError (rendered m))
                 (error (transactionClient m)) || ct)
              (transactionWriteError (closure m))) as [->|[e ->]].
  2: { do 3 right. left. cbn [foldl].
       rewrite (transactionOnError_sets q). by eexists. }
  cbn [foldl].
  destruct Hrep as [?|[?|[?|[?|?]]]]; [eauto 6 ..|congruence].
Qed.

Lemma reporting_step m s :
  s <> UserExecute -> s <> UserReset ->
  tracked m ->
  (is_Some (approvalConfig p) -> sequenced m) ->
  reporting p m -> reporting p (step parseUnits q m s).
Proof.
  intros Hx Hre Ht Hseq Hrep.
  destruct s as [| | | | | | | |ca ct]; try done; cbn [step].
  - destruct (approvalClient m); exact Hrep.
  - destruct (approvalClient m) eqn:Hcl; try done.
    right. right. left.
    rewrite hook_apply_actions, approvalError_foldl, approvalOnError_sets.
    by eexists.
  - destruct (transactionClient m); exact Hrep.
  - destruct (transactionClient m) eqn:Hcl; try done.
    do 3 right. left.
    rewrite hook_apply_actions, transactionError_foldl,
      (transactionOnError_sets q).
    by eexists.
  - destruct Hrep as [?|[?|[?|[?|Hc]]]]; unfold reporting;
      try (destruct (receipts m !! h); cbn; eauto 6; fail).
    do 4 right. by apply (completed_step m (ReceiptOk h)).
  - destruct Hrep as [?|[?|[?|[?|Hc]]]]; unfold reporting;
      try (destruct (receipts m !! h); cbn; eauto 6; fail).
    do 4 right. by apply (completed_step m (ReceiptFail h e)).
  - by apply reporting_render.
Qed.

End Reporting.

(** ** The flow without failures *)

Lemma differs_none_some `{EqDecision A} (x : A) : differs None (Some x) = true.
Proof. unfold differs. by rewrite bool_decide_eq_false_2. Qed.

Lemma differs_false_true : differs false true = true.
Proof. reflexivity. Qed.

(** Runs one render on a machine whose fields are given. *)
Ltac render_stage :=
  cbn [step];
  unfold render, effects, view, closure, useWaitForTransactionReceipt,
    effectApprovalData, effectTransactionData,
    effectApprovalWriteError, effectTransactionWriteError,
    effectApprovalConfirmError, effectTransactionConfirmError,
    effectApprovalSuccess, effectTransactionSuccess;
  repeat (progress (cbn -[differs lookup insert];
    rewrite ?useEffect_nil, ?differs_same, ?differs_none_some,
      ?differs_false_true, ?lookup_empty;
    repeat match goal with H : _ !! _ = _ |- _ => rewrite !H end));
  unfold optcall, executeTransaction;
  repeat case_match;
  cbn [foldl app]; unfold apply_action, withRendered; cbn -[lookup insert];
  f_equal; rewrite <- ?app_assoc; reflexivity.

Section Completes.

Variable parseUnits : string -> Z -> Error + Z.
Variable p : UseUniversalTransactionParams.
Variables h t : Hash.

(** The receipt of [t] comes in where that of [h] is in already (the two
    may be the same hash). *)
Lemma settle_after (m : Machine) :
  receipts m = <[h := Confirmed]> ∅ ->
  exists rc,
    step parseUnits p m (ReceiptOk t)
    = {| hook := hook m; approvalClient := approvalClient m;
         transactionClient := transactionClient m; receipts := rc;
         rendered := rendered m; log := log m |} /\
    rc !! h = Some Confirmed /\ rc !! t = Some Confirmed.
Proof.
  intros Hrc. cbn [step]. rewrite Hrc.
  destruct (decide (t = h)) as [->|Hne].
  - rewrite lookup_insert_eq. exists (<[h := Confirmed]> ∅).
    rewrite <- Hrc at 1. rewrite lookup_insert_eq. by destruct m.
  - rewrite lookup_insert_ne, lookup_empty by done.
    exists (<[t := Confirmed]> (<[h := Confirmed]> ∅)).
    unfold settle. rewrite Hrc. repeat split.
    + rewrite lookup_insert_ne by done. apply lookup_insert_eq.
    + apply lookup_insert_eq.
Qed.

(** *** With an approval *)

Lemma records_approval ca ct lg :
  step parseUnits p
    {| hook := cells None None true false; approvalClient := WSuccess h;
       transactionClient := WIdle; receipts := ∅; rendered := initialClosure;
       log := lg |} (Render ca ct)
  = {| hook := cells (Some h) None true false; approvalClient := WSuccess h;
       transactionClient := WIdle; receipts := ∅;
       rendered := view (cells None None true false) (WSuccess h) WIdle ∅;
       log := lg ++ [SetApprovalHash (Some h)] |}.
Proof. render_stage. Qed.

Lemma submits_after_approval ca ct lg :
  step parseUnits p
    {| hook := cells (Some h) None true false; approvalClient := WSuccess h;
       transactionClient := WIdle; receipts := <[h := Confirmed]> ∅;
       rendered := view (cells None None true false) (WSuccess h) WIdle ∅;
       log := lg |} (Render ca ct)
  = {| hook := cells (Some h) None false true; approvalClient := WSuccess h;
       transactionClient := WPending; receipts := <[h := Confirmed]> ∅;
       rendered := view (cells (Some h) None true false) (WSuccess h) WIdle
                     (<[h := Confirmed]> ∅);
       log := lg ++ [SetIsApproving false]
              ++ optcall (onApprovalSuccess p) (OnApprovalSuccess h)
              ++ executeTransaction p |}.
Proof.
  assert (Hh : (<[h := Confirmed]> ∅ : gmap Hash Outcome) !! h = Some Confirmed)
    by apply lookup_insert_eq.
  render_stage.
Qed.

Lemma records_transaction ca ct lg :
  step parseUnits p
    {| hook := cells (Some h) None false true; approvalClient := WSuccess h;
       transactionClient := WSuccess t; receipts := <[h := Confirmed]> ∅;
       rendered := view (cells (Some h) None true false) (WSuccess h) WIdle
                     (<[h := Confirmed]> ∅);
       log := lg |} (Render ca ct)
  = {| hook := cells (Some h) (Some t) false true; approvalClient := WSuccess h;
       transactionClient := WSuccess t; receipts := <[h := Confirmed]> ∅;
       rendered := view (cells (Some h) None false true) (WSuccess h) (WSuccess t)
                     (<[h := Confirmed]> ∅);
       log := lg ++ [SetTransactionHash (Some t)] |}.
Proof.
  assert (Hh : (<[h := Confirmed]> ∅ : gmap Hash Outcome) !! h = Some Confirmed)
    by apply lookup_insert_eq.
  render_stage.
Qed.

Lemma reports_success ca ct lg (rc : gmap Hash Outcome) :
  rc !! h = Some Confirmed -> rc !! t = Some Confirmed ->
  step parseUnits p
    {| hook := cells (Some h) (Some t) false true; approvalClient := WSuccess h;
       transactionClient := WSuccess t; receipts := rc;
       rendered := view (cells (Some h) None false true) (WSuccess h) (WSuccess t)
                     (<[h := Confirmed]> ∅);
       log := lg |} (Render ca ct)
  = {| hook := cells (Some h) (Some t) false false; approvalClient := WSuccess h;
       transactionClient := WSuccess t; receipts := rc;
       rendered := view (cells (Some h) (Some t) false true) (WSuccess h)
                     (WSuccess t) rc;
       log := lg ++ [SetIsTransacting false]
              ++ optcall (onTransactionSuccess p) (OnTransactionSuccess t)
              ++ optcall (onFinalSuccess p) OnFinalSuccess |}.
Proof.
  intros Hh Ht.
  assert (Hh0 : (<[h := Confirmed]> ∅ : gmap Hash Outcome) !! h = Some Confirmed)
    by apply lookup_insert_eq.
  render_stage.
Qed.

Lemma approval_handed_back s tc rc rd lg :
  step parseUnits p
    {| hook := s; approvalClient := WPending; transactionClient := tc;
       receipts := rc; rendered := rd; log := lg |} (ApprovalWriteOk h)
  = {| hook := s; approvalClient := WSuccess h; transactionClient := tc;
       receipts := rc; rendered := rd; log := lg |}.
Proof. reflexivity. Qed.

Lemma transaction_handed_back s ac rc rd lg :
  step parseUnits p
    {| hook := s; approvalClient := ac; transactionClient := WPending;
       receipts := rc; rendered := rd; log := lg |} (TransactionWriteOk t)
  = {| hook := s; approvalClient := ac; transactionClient := WSuccess t;
       receipts := rc; rendered := rd; log := lg |}.
Proof. reflexivity. Qed.

Lemma first_receipt (x : Hash) s ac tc rd lg :
  step parseUnits p
    {| hook := s; approvalClient := ac; transactionClient := tc;
       receipts := ∅; rendered := rd; log := lg |} (ReceiptOk x)
  = {| hook := s; approvalClient := ac; transactionClient := tc;
       receipts := <[x := Confirmed]> ∅; rendered := rd; log := lg |}.
Proof. cbn [step receipts]. by rewrite lookup_empty. Qed.

(** *** Without an approval *)

Lemma records_direct ca ct lg :
  step parseUnits p
    {| hook := cells None None false true; approvalClient := WIdle;
       transactionClient := WSuccess t; receipts := ∅;
       rendered := initialClosure; log := lg |} (Render ca ct)
  = {| hook := cells None (Some t) false true; approvalClient := WIdle;
       transactionClient := WSuccess t; receipts := ∅;
       rendered := view (cells None None false true) WIdle (WSuccess t) ∅;
       log := lg ++ [SetTransactionHash (Some t)] |}.
Proof. render_stage. Qed.

Lemma reports_direct ca ct lg :
  step parseUnits p
    {| hook := cells None (Some t) false true; approvalClient := WIdle;
       transactionClient := WSuccess t; receipts := <[t := Confirmed]> ∅;
       rendered := view (cells None None false true) WIdle (WSuccess t) ∅;
       log := lg |} (Render ca ct)
  = {| hook := cells None (Some t) false false; approvalClient := WIdle;
       transactionClient := WSuccess t; receipts := <[t := Confirmed]> ∅;
       rendered := view (cells None (Some t) false true) WIdle (WSuccess t)
                     (<[t := Confirmed]> ∅);
       log := lg ++ [SetIsTransacting false]
              ++ optcall (onTransactionSuccess p) (OnTransactionSuccess t)
              ++ optcall (onFinalSuccess p) OnFinalSuccess |}.
Proof.
  assert (Ht : (<[t := Confirmed]> ∅ : gmap Hash Outcome) !! t = Some Confirmed)
    by apply lookup_insert_eq.
  render_stage.
Qed.

End Completes.

(** X11: with an approval configured whose amount parses, if the approval
    write hands back a hash, that hash is confirmed, the transaction write
    hands back a hash and that one is confirmed too, with a render after
    each, then the hook has done exactly this, in this order: the
    statements of [execute], recorded the approval hash, lowered
    [isApproving], called [onApprovalSuccess], submitted the transaction,
    recorded its hash, lowered [isTransacting], called
    [onTransactionSuccess] and [onFinalSuccess]; and it shows the flow as
    complete, not loading, with both hashes and no error. *)
Theorem approval_flow_completes parseUnits p cfg v h t a1 b1 a2 b2 a3 b3 a4 b4 :
  approvalConfig p = Some cfg ->
  approvalAmount parseUnits cfg = inr v ->
  let m := run parseUnits p mounted
             [UserExecute; ApprovalWriteOk h; Render a1 b1; ReceiptOk h;
              Render a2 b2; TransactionWriteOk t; Render a3 b3; ReceiptOk t;
              Render a4 b4] in
  let r := useUniversalTransaction parseUnits p (closure m) in
  log m = execute parseUnits p
          ++ [SetApprovalHash (Some h); SetIsApproving false]
          ++ optcall (onApprovalSuccess p) (OnApprovalSuccess h)
          ++ executeTransaction p
          ++ [SetTransactionHash (Some t); SetIsTransacting false]
          ++ optcall (onTransactionSuccess p) (OnTransactionSuccess t)
          ++ optcall (onFinalSuccess p) OnFinalSuccess /\
  ret_isComplete r = true /\ ret_isLoading r = false /\
  ret_approvalHash r = Some h /\ ret_transactionHash r = Some t /\
  ret_approvalError r = None /\ ret_transactionError r = None.
Proof.
  intros Hcfg Hv. cbn zeta. unfold run. cbn [foldl].
  assert (E1 : step parseUnits p mounted UserExecute
    = {| hook := cells None None true false; approvalClient := WPending;
         transactionClient := WIdle; receipts := ∅;
         rendered := initialClosure; log := execute parseUnits p |}).
  { cbn [step]. unfold execute, executeApproval. by rewrite Hcfg, Hv. }
  rewrite E1, approval_handed_back, records_approval, first_receipt,
    submits_after_approval, transaction_handed_back, records_transaction.
  match goal with |- context [step parseUnits p ?m7 (ReceiptOk t)] =>
    destruct (settle_after parseUnits p h t m7 eq_refl) as (rc & -> & Hh & Ht)
  end.
  cbn [hook approvalClient transactionClient rendered log].
  rewrite (reports_success parseUnits p h t a4 b4 _ rc Hh Ht).
  split; [cbn [log]; by rewrite <- !app_assoc|].
  cbn. rewrite Hh, Ht, Hcfg. by repeat split.
Qed.

Lemma approval_flow_completes_witness :
  ret_isComplete
    (useUniversalTransaction sampleParseUnits sampleParams
       (closure
          (run sampleParseUnits sampleParams mounted
             [UserExecute; ApprovalWriteOk (Hex "a1"); Render false false;
              ReceiptOk (Hex "a1"); Render false false;
              TransactionWriteOk (Hex "b2"); Render false false;
              ReceiptOk (Hex "b2"); Render false false]))) = true.
Proof.
  destruct (approval_flow_completes sampleParseUnits sampleParams sampleApproval
              5000000000000000000 (Hex "a1") (Hex "b2")
              false false false false false false false false)
    as (_ & Hc & _).
  - reflexivity.
  - reflexivity.
  - exact Hc.
Defined.

(** X12: without an approval configured, if the transaction write hands
    back a hash and that hash is confirmed, with a render after each, then
    the hook has done exactly this, in this order: the statements of
    [execute] (which submit the transaction), recorded the hash, lowered
    [isTransacting], called [onTransactionSuccess] and [onFinalSuccess];
    and it shows the flow as complete, not loading, with the hash and no
    error.  The approval write primitive and [onApprovalSuccess] are not
    called. *)
Theorem direct_flow_completes parseUnits p t a1 b1 a2 b2 :
  approvalConfig p = None ->
  let m := run parseUnits p mounted
             [UserExecute; TransactionWriteOk t; Render a1 b1; ReceiptOk t;
              Render a2 b2] in
  let r := useUniversalTransaction parseUnits p (closure m) in
  log m = execute parseUnits p
          ++ [SetTransactionHash (Some t); SetIsTransacting false]
          ++ optcall (onTransactionSuccess p) (OnTransactionSuccess t)
          ++ optcall (onFinalSuccess p) OnFinalSuccess /\
  ret_isComplete r = true /\ ret_isLoading r = false /\
  ret_approvalHash r = None /\ ret_transactionHash r = Some t /\
  ret_approvalError r = None /\ ret_transactionError r = None.
Proof.
  intros Hcfg. cbn zeta. unfold run. cbn [foldl].
  assert (E1 : step parseUnits p mounted UserExecute
    = {| hook := cells None None false true; approvalClient := WIdle;
         transactionClient := WPending; receipts := ∅;
         rendered := initialClosure; log := execute parseUnits p |}).
  { cbn [step]. unfold execute. by rewrite Hcfg. }
  rewrite E1, transaction_handed_back, records_direct, first_receipt,
    reports_direct.
  split; [cbn [log]; by rewrite <- !app_assoc|].
  cbn -[lookup insert]. rewrite lookup_insert_eq, Hcfg. by repeat split.
Qed.

Lemma direct_flow_completes_witness :
  ret_isComplete
    (useUniversalTransaction sampleParseUnits sampleDirect
       (closure
          (run sampleParseUnits sampleDirect mounted
             [UserExecute; TransactionWriteOk (Hex "b2"); Render false false;
              ReceiptOk (Hex "b2"); Render true true]))) = true.
Proof.
  destruct (direct_flow_completes sampleParseUnits sampleDirect (Hex "b2")
              false false true true) as (_ & Hc & _).
  - reflexivity.
  - exact Hc.
Defined.

(** * The hook when props change and answers are taken back *)

(** ** Events and their traces *)

Section Wide.

Variable parseUnits : string -> Z -> Error + Z.

Lemma log_occur m e :
  log (occur parseUnits m e) = log m ++ caused parseUnits m e.
Proof.
  destruct e as [q s|h]; cbn [occur caused]; [apply log_step|].
  destruct (receipts m !! h) as [[|]|]; cbn; by rewrite app_nil_r.
Qed.

Lemma log_history m l :
  log (happen parseUnits m l) = log m ++ history parseUnits m l.
Proof.
  revert m. induction l as [|e l IH]; intros m; cbn [happen foldl history].
  - by rewrite app_nil_r.
  - unfold happen in IH. rewrite IH, log_occur. by rewrite app_assoc.
Qed.

Lemma since_history m l :
  drop (length (log m)) (log (happen parseUnits m l)) = history parseUnits m l.
Proof. rewrite log_history. by rewrite drop_app_length. Qed.

(** A run under fixed props is a list of events. *)
Lemma run_happen p m l :
  happen parseUnits m (map (Under p) l) = run parseUnits p m l.
Proof.
  revert m. induction l as [|s l IH]; intros m; [done|]. apply (IH _).
Qed.

Lemma count_cons f e l :
  count f (e :: l) = ((if f e then 1 else 0) + count f l)%nat.
Proof. unfold count. rewrite filter_cons. by destruct (f e). Qed.

(** A lost receipt changes the receipts only. *)
Lemma loss_frame m h :
  hook (occur parseUnits m (ReceiptLost h)) = hook m /\
  approvalClient (occur parseUnits m (ReceiptLost h)) = approvalClient m /\
  transactionClient (occur parseUnits m (ReceiptLost h)) = transactionClient m /\
  rendered (occur parseUnits m (ReceiptLost h)) = rendered m.
Proof. cbn [occur]. by destruct (receipts m !! h) as [[|]|]. Qed.

Lemma approval_hash_follows_client_occur m e :
  approval_hash_follows_client m ->
  approval_hash_follows_client (occur parseUnits m e).
Proof.
  intros H1. destruct e as [q s|h]; [by apply approval_hash_follows_client_step|].
  destruct (loss_frame m h) as (Hh & Ha & _). intros x Hx.
  rewrite Ha. apply H1. by rewrite <- Hh.
Qed.

Lemma tracked_occur m e : tracked m -> tracked (occur parseUnits m e).
Proof.
  intros Ht. destruct e as [q s|h]; [by apply tracked_step|].
  destruct (loss_frame m h) as (Hh & Ha & Htc & _).
  unfold tracked, approval_hash_follows_client. by rewrite Hh, Ha, Htc.
Qed.

Lemma tracked_happen m l : tracked m -> tracked (happen parseUnits m l).
Proof.
  revert m. induction l as [|e l IH]; intros m Hm; [exact Hm|].
  apply (IH (occur parseUnits m e)). by apply tracked_occur.
Qed.

Lemma spent_follows m : spent m -> approval_hash_follows_client m.
Proof. intros [(h & Hh & Hc & _)|[Hc Hh]] x Hx; congruence. Qed.

(** ** How often the transaction is submitted *)

Lemma closed_not_fires m : closed m -> fires (rendered m) (closure m) = false.
Proof.
  intros (_ & Hc). destruct (fires (rendered m) (closure m)) eqn:Hf; [|done].
  exfalso. pose proof (fires_guard m Hf) as (_ & Hit & Hth).
  pose proof (fires_confirmed m Hf) as (h & Hh & _).
  destruct Hc as [Hc|[[t Hc]|[_ Hc]]]; congruence.
Qed.

Lemma closed_render q m ca ct : closed m -> closed (render q m ca ct).
Proof.
  intros Hcl. pose proof (closed_not_fires m Hcl) as Hf.
  destruct Hcl as (Herr & Hc). split.
  { by rewrite render_transactionClient, Hf. }
  destruct (transactionHash (hook m)) as [t|] eqn:Hth.
  { right. left. rewrite render_transactionHash, Hth.
    destruct (data (transactionClient m)); [|by eexists].
    destruct (differs _ _); by eexists. }
  destruct Hc as [Hc|[[t Hc]|[Hc1 Hc2]]]; [|done|].
  - left. rewrite render_isTransacting, approvalSuccess_effect, Hf.
    rewrite (transactionSuccess_unset q m Hth), useEffect_nil.
    unfold effectTransactionWriteError, effectTransactionConfirmError.
    rewrite (transactionConfirmError_unset m Hth).
    cbn [transactionWriteError closure]. rewrite Herr.
    by rewrite !useEffect_nil.
  - right. right. rewrite render_approvalClient, render_approvalHash, Hc1.
    by split.
Qed.

Lemma closed_step q m s :
  s <> UserExecute ->
  (forall e, s <> TransactionWriteFail e) ->
  closed m ->
  closed (step parseUnits q m s) /\
  submissions (performed parseUnits q m s) = [].
Proof.
  intros Hx Hrej Hcl.
  destruct s as [| |h|e|h|e|h|h e|ca ct]; try (by destruct Hx);
    try (by destruct (Hrej e)).
  - split; [|done]. split; [done|]. right. right. by split.
  - split; [|done]. cbn [step]. destruct (approvalClient m) eqn:Hac; try done.
    destruct Hcl as (Herr & [Hc|[Hc|[Hc _]]]); [| |congruence]; split; try done;
      [left|right; left]; done.
  - split; [|by apply no_submission_unless_render]. cbn [step].
    destruct (approvalClient m) eqn:Hac; try done.
    destruct Hcl as (Herr & Hc). unfold closed.
    rewrite transactionClient_apply_actions, hook_apply_actions,
      isTransacting_foldl, transactionHash_foldl.
    unfold approvalOnError, optcall.
    destruct (onApprovalError q); cbn; (split; [done|]);
      destruct Hc as [Hc|[Hc|[Hc _]]]; try congruence; eauto.
  - split; [|done]. cbn [step]. destruct (transactionClient m) eqn:Htc; try done.
    destruct Hcl as (Herr & Hc). split; [done|]. exact Hc.
  - split; [|done]. cbn [step]. by destruct (receipts m !! h).
  - split; [|done]. cbn [step]. by destruct (receipts m !! h).
  - split; [by apply closed_render|].
    cbn [performed]. by rewrite render_submissions, closed_not_fires.
Qed.

Lemma closed_loss m h : closed m -> closed (occur parseUnits m (ReceiptLost h)).
Proof.
  destruct (loss_frame m h) as (Hh & Ha & Ht & _). unfold closed.
  by rewrite Hh, Ha, Ht.
Qed.

(** The render that submits shuts the guard. *)
Lemma fires_closes q m ca ct :
  fires (rendered m) (closure m) = true -> closed (render q m ca ct).
Proof.
  intros Hf. split.
  - by rewrite render_transactionClient, Hf.
  - left. rewrite render_isTransacting, approvalSuccess_effect, Hf.
    destruct (fires_transaction_side m Hf) as [_ Hnone].
    rewrite (transactionSuccess_unset q m Hnone), useEffect_nil. cbn [foldl].
    rewrite app_assoc. apply executeTransaction_sets_isTransacting.
Qed.

Lemma closed_execute_direct q m :
  approvalConfig q = None -> closed (step parseUnits q m UserExecute).
Proof.
  intros Hcfg. unfold closed. cbn [step].
  rewrite transactionClient_apply_actions, hook_apply_actions, isTransacting_foldl.
  unfold execute. rewrite Hcfg. cbn. split; [done | by left].
Qed.

Lemma closed_mounted : closed mounted.
Proof. split; [done|]. right. right. by split. Qed.



(** The budget of submissions, by the failed transaction writes: each
    submission after the first of an execution needs one. *)
Lemma rejections_budget m l :
  (length (submissions (history parseUnits m l))
   <= 1 + count isExecution l + count isRejection l)%nat /\
  (closed m ->
   (length (submissions (history parseUnits m l))
    <= count isExecution l + count isRejection l)%nat).
Proof.
  revert m. induction l as [|e l IH]; intros m.
  { split; [|intros _]; cbn; lia. }
  cbn [history]. rewrite submissions_app, length_app, !count_cons.
  destruct (IH (occur parseUnits m e)) as [IH1 IH2].
  destruct e as [q s|h].
  2: { cbn [caused isExecution isRejection].
       change (submissions []) with (@nil Action). cbn [length]. split; [lia|].
       intros Hcl. specialize (IH2 (closed_loss m h Hcl)). lia. }
  cbn [caused occur] in *.
  destruct s as [| |h|e|h|e|h|h e|ca ct]; cbn [isExecution isRejection].
  1: { cbn [performed]. rewrite submissions_execute.
       destruct (approvalConfig q) as [cfg|] eqn:Hcfg; cbn [length].
       - split; [|intros _]; lia.
       - specialize (IH2 (closed_execute_direct q m Hcfg)). split; [|intros _]; lia. }
  5: { rewrite (no_submission_unless_render parseUnits q m) by done.
       cbn [length]. split; [|intros _]; lia. }
  1-6: split;
    [ rewrite (no_submission_unless_render parseUnits q m) by done; cbn [length]; lia
    | intros Hcl;
      match goal with |- context [performed _ _ _ ?s] =>
        destruct (closed_step q m s) as [Hcl' ->]; try done
      end;
      specialize (IH2 Hcl'); cbn [length]; lia ].
  split.
  - cbn [performed]. rewrite render_submissions.
    destruct (fires (rendered m) (closure m)) eqn:Hf; cbn [length]; [|lia].
    specialize (IH2 (fires_closes q m ca ct Hf)). lia.
  - intros Hcl. destruct (closed_step q m (Render ca ct)) as [Hcl' ->]; try done.
    specialize (IH2 Hcl'). cbn [length]. lia.
Qed.

(** The budget of submissions, by the confirmations taken back: each
    submission after the first of an execution needs one. *)
Lemma losses_budget m l :
  (approval_hash_follows_client m ->
   (length (submissions (history parseUnits m l))
    <= 1 + count isExecution l + count isLoss l)%nat) /\
  (spent m ->
   (length (submissions (history parseUnits m l))
    <= count isExecution l + count isLoss l)%nat).
Proof.
  revert m. induction l as [|e l IH]; intros m.
  { split; intros _; cbn; lia. }
  cbn [history]. rewrite submissions_app, length_app, !count_cons.
  destruct (IH (occur parseUnits m e)) as [IH1 IH2].
  destruct e as [q s|h].
  2: { cbn [caused isExecution isLoss].
       change (submissions []) with (@nil Action). cbn [length].
       split; intros H;
         [|apply spent_follows in H];
         specialize (IH1 (approval_hash_follows_client_occur m _ H)); lia. }
  cbn [caused occur isLoss] in *.
  change (isExecution (Under q s)) with (isExecute s).
  destruct (isExecute s) eqn:He.
  - destruct s; try discriminate. cbn [performed]. rewrite submissions_execute.
    destruct (approvalConfig q) as [cfg|] eqn:Hcfg; cbn [length].
    + assert (Hafter : approval_hash_follows_client (step parseUnits q m UserExecute)).
      { intros h Hh. by rewrite execute_approvalHash in Hh. }
      specialize (IH1 Hafter). split; intros _; lia.
    + specialize (IH2 (execute_direct_spent parseUnits q m Hcfg)).
      split; intros _; lia.
  - assert (Hx : s <> UserExecute) by (intros ->; discriminate).
    split.
    + intros H1.
      destruct (first_submission_step parseUnits q m s Hx H1) as [->|[-> Hsp]].
      * specialize (IH1 (approval_hash_follows_client_step parseUnits q m s H1)).
        cbn [length]. lia.
      * specialize (IH2 Hsp). lia.
    + intros Hsp. destruct (spent_step parseUnits q m s Hx Hsp) as [Hsp' ->].
      specialize (IH2 Hsp'). cbn [length]. lia.
Qed.

End Wide.




(** ** The write primitives against the calls of [execute] *)

Section WideWrites.

Variable parseUnits : string -> Z -> Error + Z.

Lemma approvals_budget_wide m l :
  (length (approvals (history parseUnits m l)) <= count isExecution l)%nat.
Proof.
  revert m. induction l as [|e l IH]; intros m; [cbn; lia|].
  cbn [history]. rewrite approvals_app, length_app, count_cons.
  specialize (IH (occur parseUnits m e)).
  destruct e as [q s|h].
  2: { cbn [caused isExecution]. change (approvals []) with (@nil Action).
       cbn [length]. lia. }
  cbn [caused]. destruct s; cbn [isExecution];
    try (rewrite approvals_not_execute by done; cbn [length]; lia).
  cbn [performed]. pose proof (approvals_execute_length parseUnits q). lia.
Qed.

(** With no approval under way the approval side stays idle until
    [execute] starts one. *)
Lemma approval_idle_step q m s :
  s <> UserExecute ->
  approvalClient m = WIdle -> approvalHash (hook m) = None ->
  approvalClient (step parseUnits q m s) = WIdle /\
  approvalHash (hook (step parseUnits q m s)) = None.
Proof.
  intros Hx Hc Hh.
  destruct s as [| |h|e|h|e|h|h e|ca ct]; try (by destruct Hx).
  1: by split.
  7: { cbn [step]. rewrite render_approvalClient, render_approvalHash, Hc.
       by split. }
  all: match goal with |- context [step _ _ _ ?s] =>
         destruct (approval_side_step parseUnits q m s) as (Hh' & _ & Hc' & _);
           try done
       end; rewrite Hh', Hc' by congruence; by split.
Qed.

(** Without an approval configured the approval side never leaves its idle
    state, so every submission is one made by [execute] itself. *)
Lemma direct_history m l :
  Forall direct l ->
  approvalClient m = WIdle -> approvalHash (hook m) = None ->
  length (submissions (history parseUnits m l)) = count isExecution l.
Proof.
  intros Hl. revert m. induction Hl as [|e l He _ IH]; intros m Hc Hh; [done|].
  cbn [history]. rewrite submissions_app, length_app, count_cons.
  destruct e as [q s|h].
  2: { destruct (loss_frame parseUnits m h) as (Hh' & Hc' & _).
       cbn [caused isExecution]. change (submissions []) with (@nil Action).
       cbn [length]. apply IH; congruence. }
  cbn [caused occur]. change (isExecution (Under q s)) with (isExecute s).
  destruct (isExecute s) eqn:Hs.
  - destruct s; try discriminate. cbn [direct] in He. cbn [performed].
    rewrite submissions_execute, He. cbn [length]. f_equal.
    apply IH; [|apply execute_approvalHash].
    cbn [step]. rewrite approvalClient_apply_actions. unfold execute.
    by rewrite He.
  - assert (Hx : s <> UserExecute) by (intros ->; discriminate).
    assert (Hsp : spent m) by (right; by split).
    destruct (spent_step parseUnits q m s Hx Hsp) as [_ ->].
    destruct (approval_idle_step q m s Hx Hc Hh) as [Hc' Hh'].
    cbn [length]. by apply IH.
Qed.

End WideWrites.

(** X2: from mount on, whatever happens and whatever props the renders are
    given, the approval write primitive is called no more often than
    [execute], and the transaction write primitive no more often than
    [execute] plus the smaller of the number of confirmations a wait took
    back and the number of failed transaction writes; when every [execute]
    is called without an approval configured, the transaction write
    primitive is called exactly once per call of [execute]. *)
Theorem writes_bounded_by_executions parseUnits l :
  let m := happen parseUnits mounted l in
  (length (submissions (log m))
   <= count isExecution l + Nat.min (count isLoss l) (count isRejection l))%nat /\
  (length (approvals (log m)) <= count isExecution l)%nat /\
  (Forall direct l -> length (submissions (log m)) = count isExecution l).
Proof.
  cbn zeta. rewrite log_history. cbn [log mounted app]. repeat split.
  - destruct (losses_budget parseUnits mounted l) as [_ HL].
    destruct (rejections_budget parseUnits mounted l) as [_ HR].
    specialize (HL (spent_mounted)). specialize (HR closed_mounted). lia.
  - apply approvals_budget_wide.
  - intros Hl. by apply direct_history.
Qed.

(** ** How often the success callbacks run *)

Section WideSuccess.

Variable parseUnits : string -> Z -> Error + Z.
Variable final : bool.

(** The budget of success calls: one for an execution, and one more at
    most for each confirmation taken back. *)
Lemma success_budget m l :
  Forall (fun e => isExecution e = false) l ->
  tracked m ->
  (length (successCalls final (history parseUnits m l)) <= 1 + count isLoss l)%nat /\
  (finished m ->
   (length (successCalls final (history parseUnits m l)) <= count isLoss l)%nat).
Proof.
  intros Hl. revert m. induction Hl as [|e l He _ IH]; intros m Ht.
  { split; [|intros _]; cbn; lia. }
  cbn [history]. rewrite successCalls_app, length_app, count_cons.
  destruct (IH (occur parseUnits m e) (tracked_occur parseUnits m e Ht)) as [IH1 IH2].
  destruct e as [q s|h].
  2: { cbn [caused isLoss]. change (successCalls final []) with (@nil Action).
       cbn [length]. split; [|intros _]; lia. }
  cbn [caused occur isLoss] in *.
  assert (Hx : s <> UserExecute) by (intros ->; discriminate).
  split.
  - destruct (first_success_step parseUnits q final m s Hx Ht) as [->|[Hone Hfin]].
    + cbn [length]. lia.
    + specialize (IH2 Hfin). lia.
  - intros Hfin.
    destruct (finished_step parseUnits q final m s Hx Hfin) as [Hfin' ->].
    specialize (IH2 Hfin'). cbn [length]. lia.
Qed.

End WideSuccess.

(** X9: from one call of [execute] up to the next, whatever happens in
    between and whatever props the renders are given, [onFinalSuccess] is
    called once at most, and once more at most for each confirmation a
    wait takes back; the same holds for [onTransactionSuccess].  When no
    wait takes back its answer, each is called at most once. *)
Theorem success_callbacks_once parseUnits q m l :
  Forall (fun e => isExecution e = false) l ->
  (length (successCalls true
             (drop (length (log m))
                (log (happen parseUnits m (Under q UserExecute :: l)))))
   <= 1 + count isLoss l)%nat /\
  (length (successCalls false
             (drop (length (log m))
                (log (happen parseUnits m (Under q UserExecute :: l)))))
   <= 1 + count isLoss l)%nat.
Proof.
  intros Hl. rewrite since_history. cbn [history caused occur].
  split; rewrite successCalls_app,
    (successCalls_not_render parseUnits q _ m UserExecute) by done;
    cbn [app]; apply success_budget; try done; apply tracked_execute.
Qed.

Lemma success_callbacks_once_witness :
  (length (successCalls true
     (drop (length (log mounted))
        (log (happen sampleParseUnits mounted
                (Under sampleParams UserExecute ::
                 [Under sampleParams (ApprovalWriteOk (Hex "a1"));
                  Under sampleParams (Render false false);
                  Under sampleParams (ReceiptOk (Hex "a1"));
                  Under sampleParams (Render false false);
                  Under sampleParams (TransactionWriteOk (Hex "b2"));
                  Under sampleParams (Render false false);
                  Under sampleParams (ReceiptOk (Hex "b2"));
                  Under sampleParams (Render false false);
                  Under sampleDirect (Render true true);
                  Under sampleParams (Render false false)])))))
   <= 1 + count isLoss
            [Under sampleParams (ApprovalWriteOk (Hex "a1"));
             Under sampleParams (Render false false);
             Under sampleParams (ReceiptOk (Hex "a1"));
             Under sampleParams (Render false false);
             Under sampleParams (TransactionWriteOk (Hex "b2"));
             Under sampleParams (Render false false);
             Under sampleParams (ReceiptOk (Hex "b2"));
             Under sampleParams (Render false false);
             Under sampleDirect (Render true true);
             Under sampleParams (Render false false)])%nat.
Proof.
  refine (proj1 (success_callbacks_once sampleParseUnits sampleParams mounted
    [Under sampleParams (ApprovalWriteOk (Hex "a1"));
     Under sampleParams (Render false false);
     Under sampleParams (ReceiptOk (Hex "a1"));
     Under sampleParams (Render false false);
     Under sampleParams (TransactionWriteOk (Hex "b2"));
     Under sampleParams (Render false false);
     Under sampleParams (ReceiptOk (Hex "b2"));
     Under sampleParams (Render false false);
     Under sampleDirect (Render true true);
     Under sampleParams (Render false false)] _)).
  repeat constructor.
Defined.

(** ** When the success callbacks run *)

Section WideSequencing.

Variable parseUnits : string -> Z -> Error + Z.

(** While every [execute] has an approval configured and no wait takes
    back its answer, the approval comes first, whatever the props of the
    other steps. *)
Lemma sequenced_happen m l :
  settled l -> Forall approving l ->
  sequenced m -> sequenced (happen parseUnits m l).
Proof.
  intros Hs. revert m. induction Hs as [|e l He _ IH]; intros m Ha Hm; [exact Hm|].
  inversion Ha as [|? ? Hae Hal]; subst.
  apply (IH (occur parseUnits m e) Hal).
  destruct e as [q s|h]; [|discriminate].
  cbn [occur]. apply sequenced_kept; [|exact Hm].
  intros ->. exact Hae.
Qed.

End WideSequencing.

(** X8: at every point reached from mount, whatever the props and whatever
    the waits report, a success callback is only called by a render, and
    only in these states: [onApprovalSuccess] with the approval hash, which
    is confirmed, in the render that also submits the dependent
    transaction; [onTransactionSuccess] with the transaction hash, which is
    confirmed; [onFinalSuccess] when [isTransactionSuccess] is true.
    [isComplete] is true as well in that render when it is given no
    [approvalConfig], or when every [execute] so far had one and no wait
    took back its answer. *)
Theorem success_callbacks_sound parseUnits l p s :
  let m := happen parseUnits mounted l in
  let ran := drop (length (log m)) (log (occur parseUnits m (Under p s))) in
  let r := useUniversalTransaction parseUnits p (closure m) in
  (forall h, In (OnApprovalSuccess h) ran ->
     isRender s /\ approvalHash (hook m) = Some h /\
     receipts m !! h = Some Confirmed /\
     In (WriteTransaction (transactionRequest (transactionConfig p))) ran) /\
  (forall t, In (OnTransactionSuccess t) ran ->
     isRender s /\ transactionHash (hook m) = Some t /\
     receipts m !! t = Some Confirmed) /\
  (In OnFinalSuccess ran ->
     isRender s /\ ret_isTransactionSuccess r = true /\
     (approvalConfig p = None \/ (settled l /\ Forall approving l) ->
      ret_isComplete r = true)).
Proof.
  cbn zeta. rewrite log_occur, drop_app_length. cbn [caused].
  set (m := happen parseUnits mounted l). split; [|split].
  - intros h Hin.
    destruct (success_call_in_render parseUnits p m s (OnApprovalSuccess h))
      as (ca & ct & ->); [eauto | done |].
    cbn [performed] in *. split; [by exists ca, ct|].
    apply approval_success_call in Hin as [Hf Hh].
    pose proof (fires_confirmed m Hf) as (h' & Hh' & Hc).
    assert (h' = h) as -> by congruence.
    repeat split; try done.
    apply in_submissions. rewrite render_submissions, Hf. by left.
  - intros t Hin.
    destruct (success_call_in_render parseUnits p m s (OnTransactionSuccess t))
      as (ca & ct & ->); [eauto | done |].
    cbn [performed] in *. split; [by exists ca, ct|].
    apply transaction_success_call in Hin as [Hin _]; [|eauto].
    apply in_transactionSuccess in Hin as (Hs & t' & Ht' & Ha).
    destruct Ha as [Ha|[Ha|Ha]]; try discriminate. injection Ha as <-.
    split; [done|].
    apply isTransactionSuccess_closure in Hs as (t'' & Ht'' & Hc). congruence.
  - intros Hin.
    destruct (success_call_in_render parseUnits p m s OnFinalSuccess)
      as (ca & ct & ->); [eauto | done |].
    cbn [performed] in *. split; [by exists ca, ct|].
    apply transaction_success_call in Hin as [Hin _]; [|eauto].
    apply in_transactionSuccess in Hin as (Hs & t & Ht & _).
    split; [exact Hs|].
    cbn [useUniversalTransaction ret_isComplete]. rewrite Hs, andb_true_r.
    intros [Hcfg|[Hset Happ]]; [by rewrite Hcfg|].
    destruct (approvalConfig p) as [cfg|]; [|done].
    apply isApprovalSuccess_closure.
    assert (Hseq : sequenced m)
      by (apply sequenced_happen; [done | done | apply sequenced_mounted]).
    apply Hseq. by rewrite Ht; eexists.
Qed.

(** ** A failed transaction *)

Section WideFailure.

Variable parseUnits : string -> Z -> Error + Z.

(** A failure stays, whatever is taken back. *)
Lemma loss_keeps_failed m h t e :
  receipts m !! t = Some (Failed e) ->
  receipts (occur parseUnits m (ReceiptLost h)) !! t = Some (Failed e).
Proof.
  intros Ht. cbn [occur]. destruct (receipts m !! h) as [[|e']|] eqn:Hh; try done.
  cbn. rewrite lookup_delete_ne; [done|]. intros ->. congruence.
Qed.

Lemma transactionConfirmError_unfailed m t :
  transactionHash (hook m) = Some t ->
  (forall e, receipts m !! t <> Some (Failed e)) ->
  transactionConfirmError (closure m) = None.
Proof.
  intros Hh Hn. cbn. rewrite Hh. cbn.
  destruct (receipts m !! t) as [[|e]|] eqn:Hr; try done. by destruct (Hn e).
Qed.

Lemma unfailed_transaction_occur m ev :
  tracked m ->
  unfailed_transaction m -> unfailed_transaction (occur parseUnits m ev).
Proof.
  intros (_ & H2 & _) Hu. destruct ev as [q s|h].
  2: { destruct (loss_frame parseUnits m h) as (Hh & _ & _ & Hrd).
       intros t Ht Hn. rewrite Hrd. rewrite Hh in Ht. apply (Hu t Ht).
       intros e He. apply (Hn e). by apply loss_keeps_failed. }
  cbn [occur]. destruct s as [| |h|e0|h|e0|h|h e0|ca ct].
  1,2: intros t Ht; cbn [step] in Ht;
       rewrite hook_apply_actions, transactionHash_foldl in Ht;
       unfold execute, executeApproval, executeTransaction, approvalOnError,
         optcall in Ht;
       repeat case_match; discriminate.
  1-6: match goal with |- unfailed_transaction (step _ _ _ ?s) =>
         destruct (transaction_side_step parseUnits q m s) as (Hh & Hrd & _ & Hrc);
           try done;
         intros t' Ht' Hn; rewrite Hrd; apply (Hu t'); [by rewrite <- Hh|];
         intros e' He'; apply (Hn e'); by apply Hrc
       end.
  intros t Ht Hn. cbn [step] in *.
  rewrite render_rendered. rewrite render_receipts in Hn.
  destruct (transactionHash (hook m)) as [t0|] eqn:H0.
  - rewrite (render_keeps_transactionHash q m ca ct t0 (H2 t0 eq_refl) H0) in Ht.
    injection Ht as ->. by apply (transactionConfirmError_unfailed m t).
  - by apply transactionConfirmError_unset.
Qed.

Lemma unfailed_transaction_happen m l :
  tracked m ->
  unfailed_transaction m -> unfailed_transaction (happen parseUnits m l).
Proof.
  revert m. induction l as [|ev l IH]; intros m Ht Hu; [exact Hu|].
  apply (IH (occur parseUnits m ev)).
  - by apply tracked_occur.
  - by apply unfailed_transaction_occur.
Qed.

Lemma unfailed_awaiting m : unfailed_transaction m -> awaiting_transaction m.
Proof. intros Hu t Ht Hn. apply (Hu t Ht). intros e He. congruence. Qed.

Lemma busy_is_spent_happen m l :
  settled l ->
  Forall (fun e => isExecution e = false) l ->
  approval_hash_follows_client m ->
  busy_is_spent m -> busy_is_spent (happen parseUnits m l).
Proof.
  intros Hs. revert m. induction Hs as [|e l He _ IH]; intros m Hx H1 Hb; [exact Hb|].
  inversion Hx as [|? ? Hxe Hxl]; subst.
  apply (IH (occur parseUnits m e) Hxl);
    [by apply approval_hash_follows_client_occur|].
  destruct e as [q s|h]; [|discriminate].
  apply busy_is_spent_step; try done. intros ->. discriminate.
Qed.

(** A hash that is recorded stays until [execute] or [reset]. *)
Lemma recorded_hash_kept q m s t :
  s <> UserExecute -> s <> UserReset ->
  transactionClient m = WSuccess t ->
  transactionHash (hook m) = Some t ->
  transactionHash (hook (step parseUnits q m s)) = Some t.
Proof.
  intros Hx Hr Hc Hh.
  destruct s as [| |h|e0|h|e0|h|h e0|ca ct]; try done.
  7: by apply render_keeps_transactionHash.
  all: match goal with |- context [step _ _ _ ?s] =>
         destruct (transaction_side_step parseUnits q m s) as (Hh' & _); try done
       end; by rewrite Hh'.
Qed.

(** An exposed failure with the hash recorded is that of the receipt. *)
Lemma exposed_recorded e m :
  exposed_transaction e m -> is_Some (transactionHash (hook m)) ->
  exists t, transactionHash (hook m) = Some t /\
    transactionClient m = WSuccess t /\ receipts m !! t = Some (Failed e).
Proof.
  intros (_ & _ & [(_ & Hn & _)|Hr]) [t Ht]; [congruence | exact Hr].
Qed.

(** An exposed failure stays exposed, and nothing is submitted: for a
    failed write as long as no wait takes back its answer, for a failed
    receipt in any case. *)
Lemma exposed_transaction_happen e m l :
  settled l \/ is_Some (transactionHash (hook m)) ->
  Forall (fun ev => isExecution ev = false) l ->
  Forall (fun ev => isResetting ev = false) l ->
  exposed_transaction e m ->
  exposed_transaction e (happen parseUnits m l) /\
  submissions (history parseUnits m l) = [].
Proof.
  revert m. induction l as [|ev l IH]; intros m Hs Hx Hr He; [by split|].
  inversion Hx as [|? ? Hxe Hxl]; inversion Hr as [|? ? Hre Hrl]; subst.
  cbn [happen foldl history].
  destruct ev as [q s|h].
  - assert (Hxs : s <> UserExecute) by (intros ->; discriminate).
    assert (Hrs : s <> UserReset) by (intros ->; discriminate).
    destruct (exposed_transaction_step parseUnits q e m s Hxs Hrs He)
      as [He' Hnil].
    destruct (IH (step parseUnits q m s)) as [He'' Hnil']; try done.
    { destruct Hs as [Hs|Hs]; [left; by inversion Hs|right].
      destruct (exposed_recorded e m He Hs) as (t & Ht & Hc & _).
      rewrite (recorded_hash_kept q m s t); by eauto. }
    split; [exact He''|]. cbn [caused occur].
    by rewrite submissions_app, Hnil, Hnil'.
  - destruct Hs as [Hs|Hs]; [inversion Hs; discriminate|].
    destruct (exposed_recorded e m He Hs) as (t & Ht & Hc & Hf).
    destruct (loss_frame parseUnits m h) as (Hh & _ & Htc & _).
    pose proof He as (Herr & Hit & _).
    apply IH; try done.
    + right. rewrite Hh. exact Hs.
    + unfold exposed_transaction. rewrite Hh, Htc.
      repeat split; try done. right. exists t.
      repeat split; try done. by apply loss_keeps_failed.
Qed.

Lemma unnoticed_transaction_loss e m h :
  unnoticed_transaction e m ->
  unnoticed_transaction e (occur parseUnits m (ReceiptLost h)).
Proof.
  intros (t & Hh & Hc & Hf & Hn).
  destruct (loss_frame parseUnits m h) as (Hh' & _ & Htc & Hrd).
  exists t. rewrite Hh', Htc, Hrd. repeat split; try done.
  by apply loss_keeps_failed.
Qed.

Lemma transaction_exposure_happen e m l :
  Forall (fun ev => isExecution ev = false) l ->
  Forall (fun ev => isResetting ev = false) l ->
  Exists isRendering l ->
  unnoticed_transaction e m ->
  exposed_transaction e (happen parseUnits m l) /\
  submissions (history parseUnits m l) = [] /\
  (Forall handlesTransactionError l ->
   In (OnTransactionError e) (history parseUnits m l)).
Proof.
  revert m. induction l as [|ev l IH]; intros m Hx Hre Hex Hu.
  { inversion Hex. }
  inversion Hx as [|? ? Hxe Hxl]; inversion Hre as [|? ? Hrs Hrl]; subst.
  cbn [happen foldl history].
  destruct ev as [q s|h].
  2: { assert (Hex' : Exists isRendering l)
         by (inversion Hex as [? ? (? & ? & ? & ?)|]; [discriminate | done]).
       destruct (IH _ Hxl Hrl Hex' (unnoticed_transaction_loss e m h Hu))
         as (He & Hnil & Hcb).
       split; [exact He|]. split; [exact Hnil|].
       intros Hp. inversion Hp; subst. by apply Hcb. }
  assert (Hxs : s <> UserExecute) by (intros ->; discriminate).
  assert (Hrs' : s <> UserReset) by (intros ->; discriminate).
  cbn [caused occur].
  destruct s as [| |h|e0|h|e0|h|h e0|ca ct]; try done.
  7: { destruct (unnoticed_transaction_render q e m ca ct Hu) as (He & Hnil & Hcb).
       destruct (exposed_transaction_happen e (render q m ca ct) l) as [He' Hnil'];
         try done.
       { right. destruct He as (_ & _ & [(_ & Hn & _)|(t & Ht & _)]).
         - destruct Hu as (t & Ht & Hc & _).
           rewrite (render_keeps_transactionHash q m ca ct t Hc Ht) in Hn.
           discriminate.
         - by rewrite Ht. }
       split; [exact He'|]. cbn [performed].
       change (step parseUnits q m (Render ca ct)) with (render q m ca ct).
       split.
       - by rewrite submissions_app, Hnil, Hnil'.
       - intros Hp. inversion Hp as [|? ? Hq _]; subst.
         apply in_or_app. left. by apply Hcb. }
  all: match goal with |- context [step _ _ _ ?s] =>
    assert (Hnr : ~ isRender s) by (intros (ca & ct & ?); discriminate);
    assert (Hex' : Exists isRendering l)
      by (inversion Hex as [? ? (? & ? & ? & ?)|]; [discriminate | done]);
    destruct (unnoticed_transaction_step parseUnits q e m s Hxs Hrs' Hnr Hu)
      as [Hu' Hnil];
    destruct (IH (step parseUnits q m s) Hxl Hrl Hex' Hu') as (He & Hnil' & Hcb);
    split; [exact He|]; split;
    [ by rewrite submissions_app, Hnil, Hnil'
    | intros Hp; inversion Hp; subst; apply in_or_app; right; by apply Hcb ]
  end.
Qed.

End WideFailure.

(** X7: take any call of [execute] and let the dependent transaction fail
    afterwards, by the pending transaction write failing or by the awaited
    transaction hash settling as failed.  Then, whatever props the renders
    are given, as long as neither [execute] nor [reset] is called, the
    transaction is not submitted again, and once a render has followed the
    failure [transactionError] holds the error and [isTransacting] is
    false; [onTransactionError] has been called with the error if the props
    supplied it from the failure on.  For a failed write this holds as long
    as no wait takes back its answer; for a failed receipt it holds whatever
    the waits do. *)
Theorem transaction_failure_reported parseUnits q m0 pre qf f e post :
  Forall (fun ev => isExecution ev = false) pre ->
  Forall (fun ev => isExecution ev = false) post ->
  Forall (fun ev => isResetting ev = false) post ->
  Exists isRendering post ->
  let m2 := happen parseUnits (occur parseUnits m0 (Under q UserExecute)) pre in
  let m3 := happen parseUnits m2 (Under qf f :: post) in
  transaction_fails m2 f e ->
  (f = TransactionWriteFail e -> settled pre /\ settled post) ->
  submissions (drop (length (log m2)) (log m3)) = [] /\
  transactionError (hook m3) = Some e /\
  isTransacting (hook m3) = false /\
  (Forall handlesTransactionError (Under qf f :: post) ->
   In (OnTransactionError e) (drop (length (log m2)) (log m3))).
Proof.
  intros Hpre Hpost Hre Hex m2 m3 Hf Hset.
  assert (Ht : tracked m2) by (apply tracked_happen, tracked_execute).
  assert (Ha : awaiting_transaction m2).
  { apply unfailed_awaiting, unfailed_transaction_happen; [apply tracked_execute|].
    intros t Hh. exfalso. revert Hh. cbn [occur step].
    rewrite hook_apply_actions, transactionHash_foldl.
    unfold execute, executeApproval, executeTransaction, approvalOnError, optcall.
    repeat case_match; discriminate. }
  assert (Hb : transactionClient m2 = WPending -> spent m2).
  { intros Hp.
    assert (Hw : f = TransactionWriteFail e).
    { destruct Hf as [[-> _]|(t & _ & Hh & _)]; [done|].
      destruct Ht as (_ & H2 & _). specialize (H2 t Hh). congruence. }
    destruct (Hset Hw) as [Hspre _].
    apply (busy_is_spent_happen parseUnits
             (occur parseUnits m0 (Under q UserExecute)) pre); try done.
    - intros h Hh. cbn [occur] in Hh. by rewrite execute_approvalHash in Hh.
    - apply busy_is_spent_execute.
    - fold m2. congruence. }
  unfold m3. rewrite since_history. cbn [happen foldl history caused occur].
  destruct (transaction_failure_step parseUnits qf m2 f e Ht Ha Hb Hf)
    as [Hnil [[He Hcb]|Hu]].
  - assert (Hs : settled post \/
                 is_Some (transactionHash (hook (step parseUnits qf m2 f)))).
    { destruct Hf as [[Hw _]|(t & -> & Hh & _)].
      - left. by apply Hset.
      - right. cbn [step].
        destruct (receipts m2 !! t);
          change (is_Some (transactionHash (hook m2))); by rewrite Hh. }
    destruct (exposed_transaction_happen parseUnits e _ post Hs Hpost Hre He)
      as [(Herr & Hit & _) Hnil'].
    rewrite submissions_app, Hnil, Hnil'. repeat split; try done.
    intros Hp. inversion Hp as [|? ? Hq _]; subst.
    apply in_or_app. left. by apply Hcb.
  - destruct (transaction_exposure_happen parseUnits e _ post Hpost Hre Hex Hu)
      as ((Herr & Hit & _) & Hnil' & Hcb).
    rewrite submissions_app, Hnil, Hnil'. repeat split; try done.
    intros Hp. inversion Hp; subst. apply in_or_app. right. by apply Hcb.
Qed.

Lemma transaction_failure_reported_witness :
  transactionError
    (hook (happen sampleParseUnits
             (happen sampleParseUnits
                (occur sampleParseUnits mounted (Under sampleParams UserExecute))
                [Under sampleParams (ApprovalWriteOk (Hex "a1"));
                 Under sampleParams (Render false false);
                 Under sampleParams (ReceiptOk (Hex "a1"));
                 Under sampleDirect (Render false false)])
             (Under sampleParams (TransactionWriteFail (MkError "rejected"))
              :: [Under sampleParams (ReceiptOk (Hex "c3"));
                  Under sampleDirect (Render false false);
                  Under sampleParams (Render true true)])))
  = Some (MkError "rejected").
Proof.
  destruct (transaction_failure_reported sampleParseUnits sampleParams mounted
              [Under sampleParams (ApprovalWriteOk (Hex "a1"));
               Under sampleParams (Render false false);
               Under sampleParams (ReceiptOk (Hex "a1"));
               Under sampleDirect (Render false false)]
              sampleParams
              (TransactionWriteFail (MkError "rejected"))
              (MkError "rejected")
              [Under sampleParams (ReceiptOk (Hex "c3"));
               Under sampleDirect (Render false false);
               Under sampleParams (Render true true)])
    as (_ & Herr & _).
  - repeat constructor.
  - repeat constructor.
  - repeat constructor.
  - right. left. exists sampleDirect, false, false. reflexivity.
  - left. split; [reflexivity | vm_compute; reflexivity].
  - intros _. split; repeat constructor.
  - exact Herr.
Defined.

(** ** What the returned state shows *)

Section WideReporting.

Variable parseUnits : string -> Z -> Error + Z.
Variable p : UseUniversalTransactionParams.

Lemma reporting_happen m l :
  settled l ->
  Forall (fun e => isExecution e = false) l ->
  Forall (fun e => isResetting e = false) l ->
  tracked m ->
  (is_Some (approvalConfig p) -> sequenced m) ->
  reporting p m -> reporting p (happen parseUnits m l).
Proof.
  intros Hs. revert m.
  induction Hs as [|e l He _ IH]; intros m Hx Hre Ht Hseq Hrep; [exact Hrep|].
  inversion Hx as [|? ? Hxe Hxl]; inversion Hre as [|? ? Hrs Hrl]; subst.
  destruct e as [q s|h]; [|discriminate].
  assert (Hxs : s <> UserExecute) by (intros ->; discriminate).
  assert (Hrs' : s <> UserReset) by (intros ->; discriminate).
  apply (IH (step parseUnits q m s)); try done.
  - by apply tracked_step.
  - intros Hcfg. apply sequenced_kept; [done | by apply Hseq].
  - by apply reporting_step.
Qed.

End WideReporting.

(** X10: from a call of [execute] on, as long as neither [execute] nor
    [reset] is called again and no wait takes back its answer, the state
    returned by a render always shows something, whatever props the steps
    in between ran under: [isLoading] is true, or [approvalError] or
    [transactionError] is set, or [isComplete] is true.  The one condition
    on the props is that the render is not given an [approvalConfig] when
    [execute] was called without one. *)
Theorem status_always_reported parseUnits q p m0 l :
  Forall (fun e => isExecution e = false) l ->
  Forall (fun e => isResetting e = false) l ->
  settled l ->
  (is_Some (approvalConfig p) -> is_Some (approvalConfig q)) ->
  let m := happen parseUnits m0 (Under q UserExecute :: l) in
  let r := useUniversalTransaction parseUnits p (closure m) in
  ret_isLoading r = true \/
  is_Some (ret_approvalError r) \/ is_Some (ret_transactionError r) \/
  ret_isComplete r = true.
Proof.
  intros Hx Hre Hs Hcfg. cbn zeta.
  assert (Hrep : reporting p (happen parseUnits m0 (Under q UserExecute :: l))).
  { cbn [happen foldl occur]. apply reporting_happen; try done.
    - apply tracked_execute.
    - intros Hp. by apply sequenced_execute, Hcfg.
    - apply reporting_execute. }
  revert Hrep. generalize (happen parseUnits m0 (Under q UserExecute :: l)).
  intros m [H|[H|[H|[H|H]]]]; cbn.
  - left. by rewrite H.
  - left. by rewrite H, !orb_true_r.
  - right. by left.
  - right. right. by left.
  - do 3 right. exact H.
Qed.

Lemma status_always_reported_witness :
  ret_isLoading
    (useUniversalTransaction sampleParseUnits sampleDirect
       (closure
          (happen sampleParseUnits mounted
             (Under sampleParams UserExecute ::
              [Under sampleParams (ApprovalWriteOk (Hex "a1"));
               Under sampleDirect (Render false false);
               Under sampleParams (ReceiptOk (Hex "a1"))])))) = true \/
  is_Some
    (ret_approvalError
       (useUniversalTransaction sampleParseUnits sampleDirect
          (closure
             (happen sampleParseUnits mounted
                (Under sampleParams UserExecute ::
                 [Under sampleParams (ApprovalWriteOk (Hex "a1"));
                  Under sampleDirect (Render false false);
                  Under sampleParams (ReceiptOk (Hex "a1"))]))))) \/
  is_Some
    (ret_transactionError
       (useUniversalTransaction sampleParseUnits sampleDirect
          (closure
             (happen sampleParseUnits mounted
                (Under sampleParams UserExecute ::
                 [Under sampleParams (ApprovalWriteOk (Hex "a1"));
                  Under sampleDirect (Render false false);
                  Under sampleParams (ReceiptOk (Hex "a1"))]))))) \/
  ret_isComplete
    (useUniversalTransaction sampleParseUnits sampleDirect
       (closure
          (happen sampleParseUnits mounted
             (Under sampleParams UserExecute ::
              [Under sampleParams (ApprovalWriteOk (Hex "a1"));
               Under sampleDirect (Render false false);
               Under sampleParams (ReceiptOk (Hex "a1"))])))) = true.
Proof.
  refine (status_always_reported sampleParseUnits sampleParams sampleDirect mounted
            [Under sampleParams (ApprovalWriteOk (Hex "a1"));
             Under sampleDirect (Render false false);
             Under sampleParams (ReceiptOk (Hex "a1"))] _ _ _ _).
  - repeat constructor.
  - repeat constructor.
  - repeat constructor.
  - intros [x Hx]. discriminate.
Defined.

(** That condition is needed: [execute] is called without an approval
    configured, the transaction is confirmed, and the next render is given
    an [approvalConfig].  [onFinalSuccess] has been called, and the state
    returned shows nothing loading, no error and no completion. *)
Lemma final_success_without_completion :
  let m := happen sampleParseUnits mounted
             [Under sampleDirect UserExecute;
              Under sampleParams (TransactionWriteOk (Hex "b2"));
              Under sampleParams (Render false false);
              Under sampleParams (ReceiptOk (Hex "b2"));
              Under sampleParams (Render false false)] in
  let r := useUniversalTransaction sampleParseUnits sampleParams (closure m) in
  In OnFinalSuccess (log m) /\
  ret_isLoading r = false /\
  ret_approvalError r = None /\ ret_transactionError r = None /\
  ret_isComplete r = false.
Proof. vm_compute. repeat split. do 16 (try (left; reflexivity); right). Qed.
